(** * intake-esgf core: identifier parsing, result reconciliation,
      file-metadata merging and verified retrieval

    A shallow embedding of [intake_esgf/core.py].  Python [str] values are
    [string]s whose characters are the code points 0..255; [bytes] are lists
    of [Byte.byte]; [dict]s are finite maps; exceptions are the constructors
    of [exn]; code that touches the file system, the network or the hash
    library runs in the state-and-exception monad [M]. *)

From Stdlib Require Import ZArith Lia String Ascii Strings.Byte.
From stdpp Require Import base option list gmap strings fin_maps pretty.

Open Scope string_scope.
Open Scope list_scope.

(** ** Python values and exceptions *)

Definition bytes := list byte.

(** [pathlib.PurePosixPath]: an optional root anchor and the components. *)
Record Path := mkPath { is_absolute : bool; parts : list string }.

#[global] Instance Path_eq_dec : EqDecision Path.
Proof. solve_decision. Defined.

#[global] Instance Path_countable : Countable Path.
Proof.
  refine (inj_countable' (fun p => (is_absolute p, parts p))
                         (fun t => mkPath t.1 t.2) _).
  by intros [].
Defined.

(** The values stored in the [dict[str, Any]] file-information records. *)
Inductive value :=
| VStr (s : string)
| VInt (z : Z)
| VPath (p : Path)
| VList (l : list string).

#[global] Instance value_eq_dec : EqDecision value.
Proof. solve_decision. Defined.

Inductive exn :=
| ValueError (msg : string)
| KeyError (key : string)
| TypeError
| AttributeError
| AssertionError
| HTTPError (status : Z)
| ConnectionError
| OSError (name : string)
| IndexError
| EsgfSearchException
| GlobusAPIError.

#[global] Instance exn_eq_dec : EqDecision exn.
Proof. solve_decision. Defined.

Inductive result (A : Type) :=
| Ok (a : A)
| Raise (e : exn).
Arguments Ok {A} a.
Arguments Raise {A} e.

#[global] Instance result_ret : MRet result := fun _ a => Ok a.
#[global] Instance result_bind : MBind result := fun _ _ f r =>
  match r with
  | Ok a => f a
  | Raise e => Raise e
  end.
#[global] Instance result_fmap : FMap result := fun _ _ f r =>
  match r with
  | Ok a => Ok (f a)
  | Raise e => Raise e
  end.

(** every exception but the one that reports an empty search result *)
Definition other (e : exn) : Prop :=
  e <> ValueError "Search returned no results.".

Definition fails_otherwise {A} (r : result A) : Prop :=
  forall e, r = Raise e -> other e.

(** a [for] loop that threads a value and stops at the first exception *)
Fixpoint foldM {A B} (f : A -> B -> result A) (a : A) (l : list B) : result A :=
  match l with
  | [] => Ok a
  | x :: l' => a' ← f a x; foldM f a' l'
  end.

(** ** Strings *)

Module Str.

(** [str.lower] on the code points below 256: A-Z and the Latin-1 capitals
    (0xC0-0xDE without the multiplication sign) move up by 32. *)
Definition lower_char (c : ascii) : ascii :=
  let n := N_of_ascii c in
  if ((65 <=? n) && (n <=? 90) || (192 <=? n) && (n <=? 222) && negb (n =? 215))%N
  then ascii_of_N (n + 32) else c.

Fixpoint lower (s : string) : string :=
  match s with
  | EmptyString => EmptyString
  | String c s' => String (lower_char c) (lower s')
  end.

(** [s.split(sep)] for a one-character separator. *)
Fixpoint split_aux (sep : ascii) (cur : string) (s : string) : list string :=
  match s with
  | EmptyString => [String.rev cur]
  | String c s' =>
      if Ascii.eqb c sep then String.rev cur :: split_aux sep EmptyString s'
      else split_aux sep (String c cur) s'
  end.

Definition split (sep : ascii) (s : string) : list string :=
  split_aux sep EmptyString s.

(** [sep.join(l)] *)
Fixpoint join (sep : string) (l : list string) : string :=
  match l with
  | [] => ""
  | [x] => x
  | x :: l' => x +:+ sep +:+ join sep l'
  end.

(** iterating a [str] yields its one-character substrings *)
Fixpoint chars (s : string) : list string :=
  match s with
  | EmptyString => []
  | String c s' => String c EmptyString :: chars s'
  end.

End Str.

(** ** Paths *)

Module Pathlib.

(** [Path(s)]: components are separated by slashes; empty components and
    single dots are dropped; a leading slash anchors the path. *)
Definition of_string (s : string) : Path :=
  mkPath (match s with String "/" _ => true | _ => false end)
         (filter (fun c => c <> "" /\ c <> ".") (Str.split "/" s)).

(** [a / b]: an anchored right operand replaces the left one. *)
Definition joinpath (a b : Path) : Path :=
  if is_absolute b then b
  else mkPath (is_absolute a) (parts a ++ parts b).

(** [p.parent] *)
Definition parent (p : Path) : Path :=
  mkPath (is_absolute p) (removelast (parts p)).

(** The operand of [/] when it comes out of a dictionary: a [Path] or a
    [str]; anything else makes the operator raise [TypeError]. *)
Definition of_value (v : value) : result Path :=
  match v with
  | VPath p => Ok p
  | VStr s => Ok (of_string s)
  | _ => Raise TypeError
  end.

(** the chain of directories from the top down to [p] itself *)
Definition ancestors (p : Path) : list Path :=
  map (fun n => mkPath (is_absolute p) (take n (parts p)))
      (seq 1 (length (parts p))).

End Pathlib.

Notation "a // b" := (Pathlib.joinpath a b) (at level 40, left associativity).

(** ** The world: file system, network and the log of observable calls *)

Inductive node :=
| File (content : bytes)
| Dir.

(** What a mirror does when asked for a URL: the connection fails, or a
    response with a status code arrives whose body is delivered by
    [iter_content] chunk by chunk and either ends or breaks off. *)
Inductive stream_end := Complete | Broken.

Inductive reply :=
| Refused
| Response (status : Z) (body : list bytes) (fin : stream_end).

Definition Network := string -> reply.

Inductive event :=
| EvRequest (url : string)
| EvDigest (file : Path) (algorithm : string).

Record World := mkWorld { fs : gmap Path node; log : list event }.

(** [hashlib]: the names in [algorithms_available] and the constructors found
    in the module dictionary; a hash object absorbs chunks and renders its
    digest in hexadecimal. *)
Record Hasher := mkHasher {
  hstate : Type;
  hnew : hstate;
  hupdate : hstate -> bytes -> hstate;
  hexdigest : hstate -> string
}.

Record Hashlib := mkHashlib {
  algorithms_available : list string;
  hashlib_dict : string -> option Hasher
}.

(** ** The monad of effectful code *)

Definition M (A : Type) : Type := World -> result A * World.

#[global] Instance M_ret : MRet M := fun _ a w => (Ok a, w).
#[global] Instance M_bind : MBind M := fun _ _ f m w =>
  match m w with
  | (Ok a, w') => f a w'
  | (Raise e, w') => (Raise e, w')
  end.

Definition raise {A} (e : exn) : M A := fun w => (Raise e, w).
Definition lift {A} (r : result A) : M A := fun w => (r, w).
Definition get_fs : M (gmap Path node) := fun w => (Ok (fs w), w).
Definition put_fs (f : gmap Path node) : M unit :=
  fun w => (Ok tt, mkWorld f (log w)).
Definition emit (e : event) : M unit :=
  fun w => (Ok tt, mkWorld (fs w) (log w ++ [e])).

(** [d[k]] *)
Definition getitem (d : gmap string value) (k : string) : M value :=
  match d !! k with
  | Some v => mret v
  | None => raise (KeyError k)
  end.

(** ** Verified retrieval *)

Module Retrieval.

(** [p.exists()] *)
Definition exists_ (p : Path) : M bool :=
  f ← get_fs; mret (bool_decide (is_Some (f !! p))).

(** [p.mkdir(parents=True, exist_ok=True)]: walk down from the top, create
    what is missing, accept directories that are there, fail on a file. *)
Fixpoint mkdir_chain (ps : list Path) : M unit :=
  match ps with
  | [] => mret tt
  | d :: ps' =>
      f ← get_fs;
      match f !! d with
      | Some Dir => mkdir_chain ps'
      | Some (File _) =>
          raise (OSError (match ps' with
                          | [] => "FileExistsError"
                          | _ => "NotADirectoryError"
                          end))
      | None => put_fs (<[d := Dir]> f);; mkdir_chain ps'
      end
  end.

Definition mkdir_parents (p : Path) : M unit :=
  mkdir_chain (Pathlib.ancestors p).

(** [open(p, "wb")]: create or truncate *)
Definition open_wb (p : Path) : M unit :=
  f ← get_fs;
  match f !! p with
  | Some Dir => raise (OSError "IsADirectoryError")
  | _ => put_fs (<[p := File []]> f)
  end.

(** [fdl.write(chunk)] on the file opened at [p] *)
Definition write (p : Path) (chunk : bytes) : M unit :=
  f ← get_fs;
  match f !! p with
  | Some (File c) => put_fs (<[p := File (c ++ chunk)]> f)
  | _ => raise (OSError "EBADF")
  end.

(** [open(p, "rb")] followed by reading the whole file *)
Definition read_bytes (p : Path) : M bytes :=
  f ← get_fs;
  match f !! p with
  | Some (File c) => mret c
  | Some Dir => raise (OSError "IsADirectoryError")
  | None => raise (OSError "FileNotFoundError")
  end.

(** [p.unlink()] *)
Definition unlink (p : Path) : M unit :=
  f ← get_fs;
  match f !! p with
  | Some (File _) => put_fs (delete p f)
  | Some Dir => raise (OSError "IsADirectoryError")
  | None => raise (OSError "FileNotFoundError")
  end.

(** [resp.raise_for_status()] *)
Definition raise_for_status (status : Z) : M unit :=
  if ((400 <=? status) && (status <? 600))%Z then raise (HTTPError status)
  else mret tt.

(** The read loop of [get_file_hash]: [fp.read(64 * 1024)] until it
    returns nothing.  [fuel] bounds the number of reads. *)
Definition CHUNK : nat := 64 * 1024.
#[global] Opaque CHUNK.

Fixpoint hash_loop (h : Hasher) (fuel : nat) (data : bytes) (sha : hstate h)
  : hstate h :=
  match fuel with
  | O => sha
  | S fuel' =>
      match take CHUNK data with
      | [] => sha
      | chunk => hash_loop h fuel' (drop CHUNK data) (hupdate h sha chunk)
      end
  end.

Section WithEnvironment.

Variable hashlib : Hashlib.
Variable net : Network.

Definition get_file_hash (filepath : Path) (algorithm : value) : M string :=
  algorithm ← match algorithm with
              | VStr a => mret (Str.lower a)
              | _ => raise AttributeError
              end;
  if negb (bool_decide (algorithm ∈ algorithms_available hashlib))
  then raise AssertionError
  else
    match hashlib_dict hashlib algorithm with
    | None => raise (KeyError algorithm)
    | Some h =>
        emit (EvDigest filepath algorithm);;
        data ← read_bytes filepath;
        mret (hexdigest h (hash_loop h (S (length data)) data (hnew h)))
    end.

(** [requests.get(url, stream=True)] *)
Definition requests_get (url : string) : M (Z * list bytes * stream_end) :=
  emit (EvRequest url);;
  match net url with
  | Refused => raise ConnectionError
  | Response status body fin => mret (status, body, fin)
  end.

(** [for chunk in resp.iter_content(chunk_size=1024): if chunk: ...] *)
Fixpoint write_chunks (local_file : Path) (body : list bytes)
                      (fin : stream_end) : M unit :=
  match body with
  | [] => match fin with
          | Complete => mret tt
          | Broken => raise ConnectionError
          end
  | chunk :: body' =>
      (match chunk with
       | [] => mret tt
       | _ => write local_file chunk
       end);;
      write_chunks local_file body' fin
  end.

(** The transfer, up to the end of the [with open(...)] block.  Closing
    the file, the progress bar and the clock leave no trace here. *)
Definition stream_to_file (url : string) (local_file : Path) : M unit :=
  mkdir_parents (Pathlib.parent local_file);;
  resp ← requests_get url;
  let '(status, body, fin) := resp in
  raise_for_status status;;
  open_wb local_file;;
  write_chunks local_file body fin.

(** Download the url to a local file and check for validity, removing if
    not. *)
Definition download_and_verify (url : string) (local_file : Path)
    (hash : value) (hash_algorithm : value) (content_length : value)
  : M unit :=
  stream_to_file url local_file;;
  digest ← get_file_hash local_file hash_algorithm;
  if bool_decide (VStr digest ≠ hash) then
    unlink local_file;;
    raise (ValueError "Hash does not match")
  else mret tt.

(** [for url in info["HTTPServer"]: ...] *)
Fixpoint try_links (info : gmap string value) (local_file : Path)
                   (urls : list string) : M unit :=
  match urls with
  | [] => mret tt
  | url :: urls' =>
      checksum ← getitem info "checksum";
      checksum_type ← getitem info "checksum_type";
      size ← getitem info "size";
      download_and_verify url local_file checksum checksum_type size;;
      found ← exists_ local_file;
      if (found : bool) then mret tt else try_links info local_file urls'
  end.

(** the iteration protocol on the value stored under ["HTTPServer"] *)
Definition iter (v : value) : M (list string) :=
  match v with
  | VList l => mret l
  | VStr s => mret (Str.chars s)
  | _ => raise TypeError
  end.

Definition cache_or_download (info : gmap string value) (local_cache : Path)
  : M (value * Path) :=
  path ← getitem info "path";
  rel ← lift (Pathlib.of_value path);
  let local_file := local_cache // rel in
  found ← exists_ local_file;
  if (found : bool) then
    key ← getitem info "key"; mret (key, local_file)
  else
    links ← getitem info "HTTPServer";
    urls ← iter links;
    try_links info local_file urls;;
    key ← getitem info "key"; mret (key, local_file).

Definition parallel_download (info : gmap string value) (local_cache : Path)
    (esg_dataroot : option Path) : M (value * Path) :=
  match esg_dataroot with
  | Some root =>
      path ← getitem info "path";
      rel ← lift (Pathlib.of_value path);
      let local_file := root // rel in
      found ← exists_ local_file;
      if (found : bool) then
        key ← getitem info "key"; mret (key, local_file)
      else cache_or_download info local_cache
  | None => cache_or_download info local_cache
  end.

End WithEnvironment.

End Retrieval.

(** ** Regular expressions: the fragment of [re] the dataset pattern uses *)

Module Re.

(** one-character items *)
Inductive cclass :=
| NonSpace                   (* \S *)
| Lit (c : ascii)            (* a plain or escaped character *)
| NoneOf (cs : list ascii).  (* [^...] *)

Inductive regex :=
| Empty
| One (c : cclass)
| Plus (c : cclass)                 (* greedy [+] on a one-character item *)
| Group (name : string) (r : regex) (* (?P<name>...) *)
| Cat (r1 r2 : regex).

(** [str.isspace] on the code points below 256, which is what [\s] matches
    in a [str] pattern *)
Definition is_space (c : ascii) : bool :=
  let n := N_of_ascii c in
  ((9 <=? n) && (n <=? 13) || (28 <=? n) && (n <=? 32)
   || (n =? 133) || (n =? 160))%N.

Definition accepts (k : cclass) (c : ascii) : bool :=
  match k with
  | NonSpace => negb (is_space c)
  | Lit c' => Ascii.eqb c c'
  | NoneOf cs => negb (bool_decide (c ∈ cs))
  end.

(** *** Compiling the pattern text *)

Definition is_alnum (c : ascii) : bool :=
  let n := N_of_ascii c in
  ((48 <=? n) && (n <=? 57) || (65 <=? n) && (n <=? 90)
   || (97 <=? n) && (n <=? 122))%N.

Definition is_special (c : ascii) : bool :=
  bool_decide (c ∈ list_ascii_of_string ".^$*+?{}[]\|()").

Fixpoint until (stop : ascii) (s : list ascii) : option (list ascii * list ascii) :=
  match s with
  | [] => None
  | c :: s' =>
      if Ascii.eqb c stop then Some ([], s')
      else '(w, rest) ← until stop s'; Some (c :: w, rest)
  end.

Definition repeat_item (r : regex) : option regex :=
  match r with
  | One c => Some (Plus c)
  | _ => None
  end.

(** A sequence of items up to the end of the text or a closing
    parenthesis; [None] for syntax outside the fragment. *)
Fixpoint parse (fuel : nat) (s : list ascii) : option (regex * list ascii) :=
  match fuel with
  | O => None
  | S fuel' =>
      match s with
      | [] => Some (Empty, [])
      | ")"%char :: _ => Some (Empty, s)
      | _ =>
          '(item, s1) ←
            match s with
            | "\"%char :: "S"%char :: s1 => Some (One NonSpace, s1)
            | "\"%char :: c :: s1 =>
                if is_alnum c then None else Some (One (Lit c), s1)
            | "["%char :: "^"%char :: s1 =>
                '(cs, s2) ← until "]" s1;
                if bool_decide ("\"%char ∈ cs) || bool_decide ("-"%char ∈ cs)
                   || bool_decide (cs = [])
                then None else Some (One (NoneOf cs), s2)
            | "("%char :: "?"%char :: "P"%char :: "<"%char :: s1 =>
                '(name, s2) ← until ">" s1;
                '(body, s3) ← parse fuel' s2;
                match s3 with
                | ")"%char :: s4 =>
                    Some (Group (string_of_list_ascii name) body, s4)
                | _ => None
                end
            | c :: s1 => if is_special c then None else Some (One (Lit c), s1)
            | [] => None
            end;
          '(item, s2) ←
            match s1 with
            | "+"%char :: s2 => r ← repeat_item item; Some (r, s2)
            | _ => Some (item, s1)
            end;
          '(rest, s3) ← parse fuel' s2;
          Some (Cat item rest, s3)
      end
  end.

(** [re.compile] *)
Definition compile (pattern : string) : option regex :=
  let s := list_ascii_of_string pattern in
  match parse (S (length s)) s with
  | Some (r, []) => Some r
  | _ => None
  end.

(** *** Matching: a backtracking matcher, leftmost and greedy *)

(** [m.groupdict()], in the order of the groups *)
Definition groupdict := list (string * string).

Fixpoint set_group (name v : string) (g : groupdict) : groupdict :=
  match g with
  | [] => [(name, v)]
  | (n, v') :: g' =>
      if String.eqb n name then (n, v) :: g' else (n, v') :: set_group name v g'
  end.

(** [m.group(name)] *)
Fixpoint group (name : string) (g : groupdict) : option string :=
  match g with
  | [] => None
  | (n, v) :: g' => if String.eqb n name then Some v else group name g'
  end.

(** the text between two positions, the second given by what is left *)
Definition consumed (s rest : list ascii) : string :=
  string_of_list_ascii (take (length s - length rest) s).

Section Matcher.
Context {R : Type}.

(** zero or more characters of a class, longest first *)
Fixpoint star (c : cclass) (s : list ascii)
              (k : list ascii -> option R) : option R :=
  match s with
  | x :: s' =>
      if accepts c x then
        match star c s' k with
        | Some r => Some r
        | None => k s
        end
      else k s
  | [] => k s
  end.

Fixpoint exec (r : regex) (s : list ascii) (g : groupdict)
              (k : list ascii -> groupdict -> option R) : option R :=
  match r with
  | Empty => k s g
  | One c =>
      match s with
      | x :: s' => if accepts c x then k s' g else None
      | [] => None
      end
  | Plus c =>
      match s with
      | x :: s' => if accepts c x then star c s' (fun s'' => k s'' g) else None
      | [] => None
      end
  | Group name r1 =>
      exec r1 s g (fun s' g' => k s' (set_group name (consumed s s') g'))
  | Cat r1 r2 => exec r1 s g (fun s' g' => exec r2 s' g' k)
  end.
End Matcher.

(** a match that starts at the head of [s] *)
Definition match_here (r : regex) (s : list ascii) : option groupdict :=
  exec r s [] (fun _ g => Some g).

(** [re.search]: the first start position that admits a match *)
Fixpoint scan (r : regex) (s : list ascii) : option groupdict :=
  match match_here r s with
  | Some g => Some g
  | None =>
      match s with
      | [] => None
      | _ :: s' => scan r s'
      end
  end.

(** [re.search(pattern, s)] followed by [groupdict()]; [None] is "no
    match" (and a pattern outside the fragment). *)
Definition search (pattern s : string) : option groupdict :=
  r ← compile pattern; scan r (list_ascii_of_string s).

End Re.

(** ** Identifier parser *)

Module Parser.

Definition COLUMNS : list string :=
  [ "mip_era"; "activity_id"; "institution_id"; "source_id";
    "experiment_id"; "member_id"; "table_id"; "variable_id";
    "grid_label"; "version"; "data_node" ].

(** [COLUMNS[-1]] *)
Definition last_column : string := default "" (last COLUMNS).

(** Return the dataset id regular expression pattern. *)
Definition get_dataset_pattern : string :=
  Str.join "\."
    (map (fun c => "(?P<" +:+ c +:+ ">\S[^.|]+)") (removelast COLUMNS))
  +:+ "\|(?P<" +:+ last_column +:+ ">\S+)".

(** The pattern as [re.compile] reads it: a group per facet, a dot between
    two of them, then the pipe and the group of the data node. *)
Definition facet_group (name : string) : Re.regex :=
  Re.Group name
    (Re.Cat (Re.One Re.NonSpace)
            (Re.Cat (Re.Plus (Re.NoneOf ["."%char; "|"%char])) Re.Empty)).

Definition node_group : Re.regex :=
  Re.Group last_column (Re.Cat (Re.Plus Re.NonSpace) Re.Empty).

Definition pipe_and_node : Re.regex :=
  Re.Cat (Re.One (Re.Lit "|")) (Re.Cat node_group Re.Empty).

Fixpoint facets_regex (names : list string) : Re.regex :=
  match names with
  | [] => pipe_and_node
  | [n] => Re.Cat (facet_group n) pipe_and_node
  | n :: names' =>
      Re.Cat (facet_group n)
             (Re.Cat (Re.One (Re.Lit ".")) (facets_regex names'))
  end.

(** The body of the loops in the [search] methods:
    [m = re.search(pattern, id); if m: df.append(m.groupdict());
     df[-1]["id"] = id]. *)
Definition parse_id (id : string) : option (list (string * string)) :=
  m ← Re.search get_dataset_pattern id;
  Some (Re.set_group "id" id m).

Definition parse_ids (ids : list string) : list (list (string * string)) :=
  omap parse_id ids.

(** The identifier grammar: the facet values joined by dots, then a pipe
    and the data node. *)
Definition build_id (facets : list string) (data_node : string) : string :=
  Str.join "." facets +:+ "|" +:+ data_node.

(** Rejoining what was captured with the original separators. *)
Definition rejoin (g : list (string * string)) : string :=
  Str.join "." (omap (fun c => Re.group c g) (removelast COLUMNS))
  +:+ "|" +:+ default "" (Re.group last_column g).

(** The round trip of an identifier: it parses, and the captured values
    rejoined give it back. *)
Definition round_trips (id : string) : Prop :=
  exists g, Re.search get_dataset_pattern id = Some g /\ rejoin g = id.

Definition is_separator (c : ascii) : bool :=
  Ascii.eqb c "." || Ascii.eqb c "|".

(** a value without the dot and the pipe *)
Definition no_separator (s : string) : bool :=
  forallb (fun c => negb (is_separator c)) (list_ascii_of_string s).

(** What [\S[^.|]+] asks of a facet value: no separator, a first character
    that is not white space, and at least one more character. *)
Definition facet_ok (s : string) : bool :=
  match list_ascii_of_string s with
  | c :: _ :: _ => negb (Re.is_space c) && no_separator s
  | _ => false
  end.

(** What [\S+] asks of the data node: not empty, no white space. *)
Definition node_ok (s : string) : bool :=
  match list_ascii_of_string s with
  | [] => false
  | cs => forallb (fun c => negb (Re.is_space c)) cs
  end.

End Parser.

(** ** File metadata merger *)

Module Merger.

(** a file-information record, [dict[str, Any]] *)
Abbreviation Info := (gmap string value).

(** An index source, seen through what its [get_file_info(dataset_ids)]
    does: it returns the records or raises. *)
Definition Index := list string -> result (list Info).

(** [merged_info], a [dict] from path to record in insertion order *)
Definition Merged := list (value * Info).

Fixpoint lookup_path (path : value) (merged : Merged) : option Info :=
  match merged with
  | [] => None
  | (p, m) :: merged' =>
      if decide (p = path) then Some m else lookup_path path merged'
  end.

Fixpoint store_path (path : value) (m : Info) (merged : Merged) : Merged :=
  match merged with
  | [] => [(path, m)]
  | (p, m0) :: merged' =>
      if decide (p = path) then (p, m) :: merged'
      else (p, m0) :: store_path path m merged'
  end.

(** The body of [for key, val in info.items()] on [merged_info[path]].
    The first list stored under a key is the list of the record itself, and
    [+=] extends it in place; every record is read once and the sources
    build the lists of a record afresh, so lists are kept as values here.
    [+=] on a scalar with a list on the right raises [TypeError]. *)
Definition merge_item (m : Info) (item : string * value) : result Info :=
  let '(key, val) := item in
  match val with
  | VList l =>
      match m !! key with
      | None => Ok (<[key := val]> m)
      | Some (VList l0) => Ok (<[key := VList (l0 ++ l)]> m)
      | Some _ => Raise TypeError
      end
  | _ =>
      match m !! key with
      | None => Ok (<[key := val]> m)
      | Some _ => Ok m
      end
  end.

(** [if path not in merged_info: merged_info[path] = {}] *)
Definition ensure_path (path : value) (merged : Merged) : Merged :=
  match lookup_path path merged with
  | None => merged ++ [(path, ∅)]
  | Some _ => merged
  end.

(** The body of [for info in infos].  A list is not hashable and cannot be
    a key of [merged_info]. *)
Definition add_info (merged : Merged) (info : Info) : result Merged :=
  match info !! "path" with
  | None => Raise (KeyError "path")
  | Some (VList _) => Raise TypeError
  | Some path =>
      let merged := ensure_path path merged in
      m ← foldM merge_item (default ∅ (lookup_path path merged))
                (map_to_list info);
      Ok (store_path path m merged)
  end.

(** The body of [for ind in indices]. *)
Definition add_index (dataset_ids : list string) (merged : Merged)
                     (ind : Index) : result Merged :=
  match ind dataset_ids with
  | Ok infos => foldM add_info merged infos
  | Raise EsgfSearchException => Ok merged
  | Raise e => Raise e
  end.

Definition combine_file_info (indices : list Index)
                             (dataset_ids : list string) : result (list Info) :=
  merged ← foldM (add_index dataset_ids) [] indices;
  Ok (merged.*2).

(** *** The shape of file records *)

(** the scalar fields; every other key names a protocol and holds a list of
    links *)
Definition SCALARS : list string :=
  ["checksum_type"; "checksum"; "size"; "path"].

Definition is_vlist (v : value) : bool :=
  match v with
  | VList _ => true
  | _ => false
  end.

(** every key holds a list exactly when it is not a scalar field *)
Definition typed (e : Info) : Prop :=
  map_Forall (fun k v => is_vlist v = negb (bool_decide (k ∈ SCALARS))) e.

(** a record as the [get_file_info] methods build it *)
Definition file_record (e : Info) : Prop :=
  typed e /\ Forall (fun k => is_Some (e !! k)) SCALARS.

(** the links a record holds for a protocol *)
Definition links (protocol : string) (e : Info) : list string :=
  match e !! protocol with
  | Some (VList l) => l
  | _ => []
  end.

(** the records of all the sources that answer, in order *)
Definition entries (indices : list Index) (dataset_ids : list string)
  : list Info :=
  flat_map (fun ind : Index => match ind dataset_ids with
                               | Ok infos => infos
                               | Raise _ => []
                               end) indices.

(** what merging does to one field that both sides have *)
Definition join_field (old new : value) : option value :=
  Some (match old, new with
        | VList a, VList b => VList (a ++ b)
        | _, _ => old
        end).

End Merger.

(** ** Data frames: the part of [pandas] that [combine_results] uses *)

Module Pandas.

Inductive cell :=
| CStr (s : string)
| CList (l : list string)
| CNaN.

#[global] Instance cell_eq_dec : EqDecision cell.
Proof. solve_decision. Defined.

(** a row: its index label and its cells, one per column *)
Definition row := (nat * list cell)%type.

Record DataFrame := mkDF { columns : list string; rows : list row }.

Definition labels (rs : list row) : list nat := rs.*1.

(** position of a column *)
Fixpoint col_pos (cols : list string) (name : string) : option nat :=
  match cols with
  | [] => None
  | c :: cols' => if String.eqb c name then Some 0 else S <$> col_pos cols' name
  end.

Definition cell_at (i : nat) (r : row) : cell := default CNaN (r.2 !! i).

(** [pd.DataFrame(records)] for a list of dictionaries: the columns are the
    keys in order of first appearance, the index is 0, 1, ... *)
Definition add_new (acc cols : list string) : list string :=
  foldl (fun acc c => if bool_decide (c ∈ acc) then acc else acc ++ [c]) acc cols.

Definition from_records (records : list (list (string * string))) : DataFrame :=
  let cols := foldl add_new [] ((fun rec : list (string * string) => rec.*1) <$> records) in
  mkDF cols
       (imap (fun i rec =>
                (i, (fun c => from_option CStr CNaN (Re.group c rec)) <$> cols))
             records).

(** [pd.concat(dfs)]: the union of the columns in order of first
    appearance, the rows of every frame in turn with their own labels,
    [NaN] where a frame lacks a column. *)
Definition reindex (old new : list string) (r : row) : row :=
  (r.1, (fun c => from_option (fun i => cell_at i r) CNaN (col_pos old c)) <$> new).

Definition concat (dfs : list DataFrame) : DataFrame :=
  let cols := foldl add_new [] (columns <$> dfs) in
  mkDF cols (dfs ≫= fun df => reindex (columns df) cols <$> rows df).

(** [df.drop_duplicates(subset=name)]: an empty frame is returned as it is;
    otherwise the first row of every value of the column stays.  A list in
    the column cannot be hashed. *)
Fixpoint keep_first (i : nat) (seen : list cell) (rs : list row) : list row :=
  match rs with
  | [] => []
  | r :: rs' =>
      if bool_decide (cell_at i r ∈ seen) then keep_first i seen rs'
      else r :: keep_first i (cell_at i r :: seen) rs'
  end.

Definition is_list (c : cell) : bool :=
  match c with CList _ => true | _ => false end.

Definition drop_duplicates (subset : string) (df : DataFrame) : result DataFrame :=
  match columns df, rows df with
  | [], _ | _, [] => Ok df
  | _, _ =>
      match col_pos (columns df) subset with
      | None => Raise (KeyError subset)
      | Some i =>
          if existsb (fun r => is_list (cell_at i r)) (rows df)
          then Raise TypeError
          else Ok (mkDF (columns df) (keep_first i [] (rows df)))
      end
  end.

(** [df.reset_index(drop=True)] *)
Definition reset_index (df : DataFrame) : DataFrame :=
  mkDF (columns df) (imap (fun i r => (i, r.2)) (rows df)).

(** [df.columns[:-3]] *)
Definition all_but_last (n : nat) {A} (l : list A) : list A :=
  take (length l - n) l.

(** *** Grouping *)

(** the order of Python tuples of strings *)
Fixpoint tuple_leb (a b : list string) : bool :=
  match a, b with
  | [], _ => true
  | _ :: _, [] => false
  | x :: a', y :: b' =>
      match String.compare x y with
      | Lt => true
      | Gt => false
      | Eq => tuple_leb a' b'
      end
  end.

Fixpoint insert_sorted (k : list string) (ks : list (list string))
  : list (list string) :=
  match ks with
  | [] => [k]
  | h :: ks' =>
      if tuple_leb k h then k :: h :: ks' else h :: insert_sorted k ks'
  end.

Definition sort_keys (ks : list (list string)) : list (list string) :=
  foldr insert_sorted [] ks.

(** The key of a row: the strings in the key columns; [None] when one of
    them is missing ([NaN]), in which case the row belongs to no group;
    a list cannot be hashed. *)
Fixpoint row_key (positions : list nat) (r : row)
  : result (option (list string)) :=
  match positions with
  | [] => Ok (Some [])
  | i :: positions' =>
      match cell_at i r with
      | CStr s =>
          k ← row_key positions' r; Ok (cons s <$> (k : option (list string)))
      | CNaN => row_key positions' r;; Ok None
      | CList _ => Raise TypeError
      end
  end.

Fixpoint positions_of (cols keys : list string) : result (list nat) :=
  match keys with
  | [] => Ok []
  | k :: keys' =>
      match col_pos cols k with
      | None => Raise (KeyError k)
      | Some i => ps ← positions_of cols keys'; Ok (i :: ps)
      end
  end.

(** a group: its key and its rows, which keep their labels and order *)
Definition group := (list string * list row)%type.

Definition rows_of_key (k : list string)
    (keyed : list (option (list string) * row)) : list row :=
  (filter (fun kr => kr.1 = Some k) keyed).*2.

(** [df.groupby(keys)], iterated: the groups in the order of their keys,
    every group with the rows of the frame that carry its key.  Without
    keys a frame that has rows is refused, and one without rows has no
    groups. *)
Definition groupby (df : DataFrame) (keys : list string) : result (list group) :=
  match keys with
  | [] =>
      match rows df with
      | [] => Ok []
      | _ => Raise (ValueError "No group keys passed!")
      end
  | _ =>
      positions ← positions_of (columns df) keys;
      ks ← mapM (row_key positions) (rows df);
      let keyed := zip ks (rows df) in
      Ok ((fun k => (k, rows_of_key k keyed))
            <$> sort_keys (remove_dups (omap id ks)))
  end.

(** [grp.name] as a list of strings, as [max] and [to_list] see it *)
Fixpoint column_strings (i : nat) (rs : list row) : result (list string) :=
  match rs with
  | [] => Ok []
  | r :: rs' =>
      match cell_at i r with
      | CStr s => l ← column_strings i rs'; Ok (s :: l)
      | _ => Raise TypeError
      end
  end.

(** [Series.max] on strings *)
Definition str_max (a b : string) : string :=
  if String.ltb a b then b else a.

Definition series_max (l : list string) : option string :=
  match l with
  | [] => None
  | x :: l' => Some (foldl str_max x l')
  end.

(** [df.drop(labels)]: every label has to be in the index *)
Definition drop_index (lbls : list nat) (df : DataFrame) : result DataFrame :=
  if forallb (fun l => bool_decide (l ∈ labels (rows df))) lbls
  then Ok (mkDF (columns df)
                (filter (fun r => r.1 ∉ lbls) (rows df)))
  else Raise (KeyError "not found in axis").

(** [df.loc[label, name] = v]: the cell is overwritten in every row that
    carries the label; a label the index does not have appends a row. *)
Definition loc_set (label : nat) (i : nat) (v : cell) (df : DataFrame) : DataFrame :=
  if bool_decide (label ∈ labels (rows df))
  then mkDF (columns df)
            ((fun r => if decide (r.1 = label) then (r.1, <[i := v]> r.2) else r)
               <$> rows df)
  else mkDF (columns df)
            (rows df ++ [(label, <[i := v]> (replicate (length (columns df)) CNaN))]).

(** [df.drop(columns=name)] *)
Definition drop_column (name : string) (df : DataFrame) : result DataFrame :=
  match col_pos (columns df) name with
  | None => Raise (KeyError name)
  | Some i =>
      Ok (mkDF (delete i (columns df))
               ((fun r => (r.1, delete i r.2)) <$> rows df))
  end.

(** attribute access to a column, [grp.version] *)
Definition getattr (df_columns : list string) (name : string) : result nat :=
  match col_pos df_columns name with
  | Some i => Ok i
  | None => Raise AttributeError
  end.

(** *** Frames as the [search] methods build them *)

Definition is_str (c : cell) : bool :=
  match c with
  | CStr _ => true
  | _ => false
  end.

(** the text of a string cell *)
Definition text (c : cell) : string :=
  match c with
  | CStr s => s
  | _ => ""
  end.

(** the twelve columns: the facets of the dataset pattern and the id *)
Definition SEARCH_COLUMNS : list string := Parser.COLUMNS ++ ["id"].

(** a row of twelve strings *)
Definition search_row (r : row) : Prop :=
  length r.2 = 12 /\ forallb is_str r.2 = true.

Definition search_frame (df : DataFrame) : Prop :=
  columns df = SEARCH_COLUMNS /\ Forall search_row (rows df).

(** the fields of such a row *)
Definition facets (cells : list cell) : list string := text <$> take 9 cells.
Definition version (cells : list cell) : string := text (default CNaN (cells !! 9)).
Definition data_node (cells : list cell) : string := text (default CNaN (cells !! 10)).
Definition id_of (cells : list cell) : string := text (default CNaN (cells !! 11)).

(** the records a list of frames holds, without their labels *)
Definition records (dfs : list DataFrame) : list (list cell) :=
  (dfs ≫= rows).*2.

End Pandas.

(** ** Result reconciler *)

Module Reconciler.
Import Pandas.

(** The body of the first loop:
    [df = df.drop(grp[grp.version != grp.version.max()].index)].
    The groups that [groupby] yields are never empty, so the maximum
    exists. *)
Definition drop_earlier (cols : list string) (df : DataFrame) (g : group)
  : result DataFrame :=
  i ← getattr cols "version";
  versions ← column_strings i g.2;
  match series_max versions with
  | None => Raise (ValueError "max of an empty group")
  | Some vmax =>
      drop_index
        (labels (filter (fun r => cell_at i r ≠ CStr vmax) g.2)) df
  end.

(** The body of the second loop:
    [df = df.drop(grp.iloc[1:].index)]
    [df.loc[grp.index[0], "id"] = grp.id.to_list()]. *)
Definition collect_ids (cols : list string) (df : DataFrame) (g : group)
  : result DataFrame :=
  df ← drop_index (labels (drop 1 g.2)) df;
  match labels g.2 with
  | [] => Raise IndexError
  | first :: _ =>
      i ← getattr cols "id";
      ids ← column_strings i g.2;
      Ok (loc_set first i (CList ids) df)
  end.

(** Return a combined dataframe where ids are now a list. *)
Definition combine_results (dfs : list DataFrame) : result DataFrame :=
  match dfs with
  | [] => Raise (ValueError "Search returned no results.")
  | _ =>
      (* combine and remove duplicate entries *)
      df ← reset_index <$> drop_duplicates "id" (concat dfs);
      (* remove earlier versions if present *)
      groups ← groupby df (all_but_last 3 (columns df));
      df ← foldM (drop_earlier (columns df)) df groups;
      (* now convert groups to list *)
      groups ← groupby df (all_but_last 3 (columns df));
      df ← foldM (collect_ids (columns df)) df groups;
      drop_column "data_node" df
  end.

(** *** The loops, row by row

    Both loops run over groups taken from the frame as it was before the
    loop, and a pass touches the rows of its own group only.  [passes]
    chains, for one row, what the passes of a list of groups do to it;
    [None] stands for a row that is dropped. *)

Fixpoint passes (pass : group -> row -> option row) (gs : list group) (r : row)
  : option row :=
  match gs with
  | [] => Some r
  | g :: gs' => pass g r ≫= passes pass gs'
  end.

(** no label in two groups *)
Fixpoint apart (gs : list group) : Prop :=
  match gs with
  | [] => True
  | g :: gs' =>
      Forall (fun g' : group => forall x, x ∈ g.2.*1 -> x ∉ g'.2.*1) gs'
      /\ apart gs'
  end.

(** [grp.version.max()] *)
Definition latest (rs : list row) : string :=
  default "" (series_max ((fun r : row => version r.2) <$> rs)).

(** a pass of the first loop: the rows of the group that are not at its
    latest version go *)
Definition pass_drop_earlier (g : group) (r : row) : option row :=
  if decide (r.1 ∈ (filter (fun r' => cell_at 9 r' ≠ CStr (latest g.2)) g.2).*1)
  then None else Some r.

(** a pass of the second loop: the rows of the group after the first go, and
    the first row gets the ids of the whole group *)
Definition pass_collect_ids (g : group) (r : row) : option row :=
  if decide (r.1 ∈ (drop 1 g.2).*1) then None
  else Some (if decide (Some r.1 = head g.2.*1)
             then (r.1, <[11 := CList ((fun r' : row => id_of r'.2) <$> g.2)]> r.2)
             else r).

(** the groups of a frame of search rows, as [groupby] on the nine leading
    columns yields them *)
Definition groups_of (rs : list row) : list group :=
  (fun k => (k, filter (fun r : row => facets r.2 = k) rs))
    <$> sort_keys (remove_dups ((fun r : row => facets r.2) <$> rs)).

(** the rows of the frame that share the facets of a row *)
Definition group_of (rs : list row) (r : row) : list row :=
  filter (fun r' : row => facets r'.2 = facets r.2) rs.

(** a group of search rows: not empty, no label twice *)
Definition search_group (g : group) : Prop :=
  g.2 <> [] /\ Forall search_row g.2 /\ NoDup g.2.*1.

(** *** What [combine_results] makes of frames of search rows *)

(** the rows once duplicates are gone and the labels are renewed *)
Definition deduplicated (dfs : list DataFrame) : list row :=
  rows (reset_index (mkDF SEARCH_COLUMNS (keep_first 11 [] (dfs ≫= rows)))).

(** the rows at the latest version of their group *)
Definition survivors (rs : list row) : list row :=
  filter (fun r : row => version r.2 = latest (group_of rs r)) rs.

(** the first row of every group, with the ids of the group *)
Definition collected (rs : list row) : list row :=
  omap (fun r : row =>
          if decide (head (group_of rs r) = Some r)
          then Some (r.1, <[11 := CList ((fun r' : row => id_of r'.2)
                                           <$> group_of rs r)]> r.2)
          else None) rs.

(** the frame returned: the collected rows without the data node *)
Definition reconciled (dfs : list DataFrame) : DataFrame :=
  mkDF (delete 10 SEARCH_COLUMNS)
       ((fun r : row => (r.1, delete 10 r.2))
          <$> collected (survivors (deduplicated dfs))).

(** a list of ids without its repetitions: every id where it comes first *)
Fixpoint first_occurrences (seen l : list string) : list string :=
  match l with
  | [] => []
  | x :: l' =>
      if bool_decide (x ∈ seen) then first_occurrences seen l'
      else x :: first_occurrences (x :: seen) l'
  end.

(** records are told apart by their id, as rows parsed from the id are *)
Definition ids_identify (recs : list (list cell)) : Prop :=
  Forall (fun c => Forall (fun c' => id_of c = id_of c' -> c = c') recs) recs.

End Reconciler.

(** ** Concrete mirrors, files and records used in the examples *)

Module Fixtures.

(** a stand-in hash object: it keeps what it absorbed, and its digest is
    the text itself *)
Definition echo : Hasher :=
  mkHasher bytes [] (fun sha chunk => sha ++ chunk) string_of_list_byte.

Definition hashlib : Hashlib :=
  mkHashlib ["echo"]
            (fun a => if String.eqb a "echo" then Some echo else None).

Definition good : bytes := [x6f; x6b]%byte.        (* b"ok" *)
Definition bad : bytes := [x6e; x6f]%byte.         (* b"no" *)

Definition net : Network := fun url =>
  if String.eqb url "https://a.example/tas.nc" then Response 200 [bad] Complete
  else if String.eqb url "https://b.example/tas.nc" then Response 200 [good] Complete
  else if String.eqb url "https://c.example/tas.nc" then Response 200 [[x6f]%byte] Broken
  else Refused.

Definition rel : Path := mkPath false ["CMIP6"; "tas.nc"].
Definition cache : Path := mkPath true ["cache"].
Definition dataroot : Path := mkPath true ["data"].

Definition task (urls : list string) : gmap string value :=
  list_to_map [ ("key", VStr "tas"); ("path", VPath rel);
                ("checksum", VStr "ok"); ("checksum_type", VStr "ECHO");
                ("size", VInt 2); ("HTTPServer", VList urls) ].

Definition empty_world : World := mkWorld ∅ [].

Definition on_dataroot : World :=
  mkWorld {[ dataroot // rel := File good ]} [].

Definition in_cache : World :=
  mkWorld {[ cache // rel := File bad ]} [].

(** two index sources that know the same file, one that knows another
    file, and two that fail *)
Definition record (path checksum : string) (links : list (string * list string))
  : gmap string value :=
  list_to_map ([ ("checksum_type", VStr "SHA256"); ("checksum", VStr checksum);
                 ("size", VInt 2); ("path", VPath (Pathlib.of_string path)) ]
               ++ map (fun kl => (kl.1, VList kl.2)) links).

Definition tas_at_a : gmap string value :=
  record "CMIP6/tas.nc" "ok"
         [("HTTPServer", ["https://a.example/tas.nc"]);
          ("OPENDAP", ["https://a.example/dods/tas.nc"])].

Definition tas_at_b : gmap string value :=
  record "CMIP6/tas.nc" "other"
         [("HTTPServer", ["https://b.example/tas.nc"; "https://c.example/tas.nc"]);
          ("Globus", ["globus:b/tas.nc"])].

Definition pr_at_b : gmap string value :=
  record "CMIP6/pr.nc" "ok" [("HTTPServer", ["https://b.example/pr.nc"])].

Definition index_a : Merger.Index := fun _ => Ok [tas_at_a].
Definition index_b : Merger.Index := fun _ => Ok [pr_at_b; tas_at_b].
Definition index_protocol_error : Merger.Index := fun _ => Raise EsgfSearchException.
Definition index_unreachable : Merger.Index := fun _ => Raise ConnectionError.

(** the two catalog entries of one dataset at one data node, an earlier and
    a later version, as two index sources return them *)
Definition id_2019 : string :=
  "CMIP6.CMIP.NCAR.CESM2.historical.r1i1p1f1.Amon.tas.gn.v20190726|esgf-data.ucar.edu".
Definition id_2020 : string :=
  "CMIP6.CMIP.NCAR.CESM2.historical.r1i1p1f1.Amon.tas.gn.v20200101|esgf-data.ucar.edu".

(** the cells of the row that [search] builds from an id *)
Definition cells_of (id : string) : list Pandas.cell :=
  Pandas.CStr
    <$> default [] ((fun g : list (string * string) => g.*2)
                      <$> Parser.parse_id id).

Definition two_versions : list Pandas.DataFrame :=
  [ Pandas.from_records (Parser.parse_ids [id_2019]);
    Pandas.from_records (Parser.parse_ids [id_2020]) ].

End Fixtures.

Module Effects.

(** the urls that were requested, in the order of the requests *)
Definition requests (l : list event) : list string :=
  omap (fun e => match e with EvRequest url => Some url | _ => None end) l.

(** every run of [m] takes a world to one related to it by [R] *)
Definition relates {A} (R : World -> World -> Prop) (m : M A) : Prop :=
  forall w r w', m w = (r, w') -> R w w'.

(** what a transfer to [dest] may do to the other paths: nothing, or create
    a missing directory of [chain] *)
Definition beside (dest : Path) (chain : list Path) (w w' : World) : Prop :=
  forall q, q <> dest ->
    fs w' !! q = fs w !! q
    \/ (q ∈ chain /\ fs w !! q = None /\ fs w' !! q = Some Dir).

(** Paths are compared by their components.  A path without a [..]
    component is the place its components spell out: two such paths, both
    anchored or both relative, are one place only when the components
    agree (links apart).  With [..] two texts may name one place. *)
Definition literal (p : Path) : Prop := ".." ∉ parts p.

(** no request is sent *)
Definition quiet (w w' : World) : Prop :=
  requests (log w') = requests (log w).

(** only the entry at [p] may differ, and nothing is logged *)
Definition touches (p : Path) (w w' : World) : Prop :=
  log w' = log w /\ forall q, q <> p -> fs w' !! q = fs w !! q.

(** a hash object for which feeding the data in pieces is feeding it whole *)
Definition streaming (h : Hasher) : Prop :=
  (forall sha, hupdate h sha [] = sha)
  /\ (forall sha a b, hupdate h sha (a ++ b) = hupdate h (hupdate h sha a) b).

(** the digest of a whole content *)
Definition digest_of (h : Hasher) (content : bytes) : string :=
  hexdigest h (hupdate h (hnew h) content).

End Effects.

Module Scenarios.
Import Fixtures.

(** a day on which one mirror answers 503 and the others are unreachable *)
Definition outage : Network := fun url =>
  if String.eqb url "https://a.example/tas.nc" then Response 503 [] Complete
  else Refused.

(** a cache that holds another file of the same directory, beside a data
    root that holds a third *)
Definition in_cache_elsewhere : World :=
  mkWorld {[ cache // mkPath false ["CMIP6"] := Dir;
             cache // mkPath false ["CMIP6"; "pr.nc"] := File bad;
             dataroot // mkPath false ["CMIP6"; "pr.nc"] := File good ]} [].

End Scenarios.

Module MergerOrder.
Import Merger.

(** the keys of a [dict] after [if p not in d: d[p] = ...] for every [p] of
    a list in turn: every value once, where it is first seen *)
Definition see (seen : list value) (p : value) : list value :=
  if decide (p ∈ seen) then seen else seen ++ [p].

Definition first_seen (ps : list value) : list value := foldl see [] ps.

(** the paths of a list of records, in order *)
Definition paths (es : list Info) : list value :=
  omap (fun e : Info => e !! "path") es.

End MergerOrder.

Module Captures.
Import Parser.

(** What [\S[^.|]+] captures: a first character that is not white space,
    then at least one character, none of them a dot or a pipe. *)
Definition facet_shape (s : string) : bool :=
  match list_ascii_of_string s with
  | c :: (_ :: _) as more =>
      negb (Re.is_space c) && forallb (fun x => negb (is_separator x)) more
  | _ => false
  end.

(** [m.groupdict()] once the groups of a list have been set in turn *)
Definition set_groups (l : list (string * string)) (g : Re.groupdict)
  : Re.groupdict :=
  foldl (fun g nv => Re.set_group nv.1 nv.2 g) g l.

(** the frames that the [search] methods build from the ids they get *)
Definition search_frames (idss : list (list string)) : list Pandas.DataFrame :=
  (fun ids => Pandas.from_records (parse_ids ids)) <$> idss.

End Captures.



(** ** File paths from directory templates *)

Module Py.

(** The values that the metadata of a file holds: strings, integers and
    lists of strings. *)
Inductive jvalue :=
| JStr (s : string)
| JInt (n : Z)
| JList (l : list string).

#[global] Instance jvalue_eq_dec : EqDecision jvalue.
Proof. solve_decision. Defined.

(** What a step gives: a value, an exception, or [None] where the text
    leaves the part of the format language that is covered here. *)
Definition outcome (A : Type) : Type := option (result A).

Definition done_ {A} (a : A) : outcome A := Some (Ok a).
Definition fail {A} (e : exn) : outcome A := Some (Raise e).
Definition unsupported {A} : outcome A := None.

Definition andthen {A B} (m : outcome A) (f : A -> outcome B) : outcome B :=
  match m with
  | Some (Ok a) => f a
  | Some (Raise e) => Some (Raise e)
  | None => None
  end.

(** [s.startswith(old)] *)
Fixpoint starts_with (old s : list ascii) : bool :=
  match old, s with
  | [], _ => true
  | _ :: _, [] => false
  | a :: old', c :: s' => Ascii.eqb a c && starts_with old' s'
  end.

(** [s.replace(old, new)] for a non-empty [old]: the occurrences are taken
    from the left and do not overlap.  [skip] counts the characters of the
    occurrence just replaced that are still to be passed over. *)
Fixpoint replace_aux (old new : list ascii) (skip : nat) (s : list ascii)
  : list ascii :=
  match s with
  | [] => []
  | c :: s' =>
      match skip with
      | S n => replace_aux old new n s'
      | O =>
          if starts_with old s
          then new ++ replace_aux old new (length old - 1) s'
          else c :: replace_aux old new 0 s'
      end
  end.

(** [s.replace(old, new)]; an empty [old] is found before every character
    and at the end. *)
Definition replace (old new s : string) : string :=
  match old with
  | EmptyString =>
      new +:+ string_of_list_ascii
                (list_ascii_of_string s
                   ≫= fun c => c :: list_ascii_of_string new)
  | _ =>
      string_of_list_ascii
        (replace_aux (list_ascii_of_string old) (list_ascii_of_string new) 0
                     (list_ascii_of_string s))
  end.

(** [v[i]] *)
Definition getitem (v : jvalue) (i : nat) : result string :=
  match v with
  | JList l => from_option Ok (Raise IndexError) (l !! i)
  | JStr s =>
      from_option (fun c => Ok (String c EmptyString)) (Raise IndexError)
                  (list_ascii_of_string s !! i)
  | JInt _ => Raise TypeError
  end.

(** *** [str.format] with keyword arguments

    Covered: plain text, and fields [{name}] and [{name[digits]}] whose
    name is not empty, is not a number and has none of the characters
    that end a name.  A field is looked up, indexed and converted when
    it is reached; what comes after a field that raises is not read. *)

Definition is_digit (c : ascii) : bool :=
  let n := N_of_ascii c in ((48 <=? n) && (n <=? 57))%N.

Definition digits_value (ds : list ascii) : nat :=
  foldl (fun n d => 10 * n + (N.to_nat (N_of_ascii d) - 48)) 0 ds.

Definition name_ok (name : list ascii) : bool :=
  negb (bool_decide (name = []))
  && forallb (fun c => negb (bool_decide (c ∈ list_ascii_of_string "{}[].!:")))
             name
  && negb (forallb is_digit name).

(** [format(v, "")] *)
Definition to_text (v : jvalue) : outcome string :=
  match v with
  | JStr s => done_ s
  | JInt n => done_ (pretty n)
  | JList _ => unsupported
  end.

(** the name of a field, and what follows it from the bracket on *)
Fixpoint name_part (f : list ascii) : list ascii * list ascii :=
  match f with
  | [] => ([], [])
  | c :: f' =>
      if Ascii.eqb c "[" then ([], f)
      else let '(name, rest) := name_part f' in (c :: name, rest)
  end.

(** the text of a field, between the braces *)
Definition field (kwargs : gmap string jvalue) (f : list ascii)
  : outcome string :=
  let '(name, rest) := name_part f in
  if negb (name_ok name) then unsupported
  else
    match rest with
    | [] =>
        match kwargs !! string_of_list_ascii name with
        | None => fail (KeyError (string_of_list_ascii name))
        | Some v => to_text v
        end
    | _ :: inner =>
        match reverse inner with
        | "]"%char :: rds =>
            let ds := reverse rds in
            if negb (bool_decide (ds = [])) && forallb is_digit ds then
              match kwargs !! string_of_list_ascii name with
              | None => fail (KeyError (string_of_list_ascii name))
              | Some v => Some (getitem v (digits_value ds))
              end
            else unsupported
        | _ => unsupported
        end
    end.

Inductive mode :=
| Text
| Field (acc : list ascii).   (* the field so far, last character first *)

Fixpoint format_aux (kwargs : gmap string jvalue) (m : mode) (s : list ascii)
  : outcome (list ascii) :=
  match s, m with
  | [], Text => done_ []
  | [], Field _ => unsupported
  | c :: s', Text =>
      if Ascii.eqb c "{" then
        match s' with
        | "{"%char :: _ => unsupported
        | _ => format_aux kwargs (Field []) s'
        end
      else if Ascii.eqb c "}" then unsupported
      else andthen (format_aux kwargs Text s') (fun out => done_ (c :: out))
  | c :: s', Field acc =>
      if Ascii.eqb c "}" then
        andthen (field kwargs (reverse acc)) (fun v =>
        andthen (format_aux kwargs Text s') (fun out =>
        done_ (list_ascii_of_string v ++ out)))
      else if Ascii.eqb c "{" then unsupported
      else format_aux kwargs (Field (c :: acc)) s'
  end.

(** [template.format] with the dictionary as keyword arguments *)
Definition format (template : string) (kwargs : gmap string jvalue)
  : outcome string :=
  andthen (format_aux kwargs Text (list_ascii_of_string template))
          (fun out => done_ (string_of_list_ascii out)).

End Py.

Module Esgf.
Import Py.

(** [dataset_id.split("|")[0].split(".")[-1]] *)
Definition dataset_version (dataset_id : string) : string :=
  default "" (last (Str.split "." (default "" (head (Str.split "|" dataset_id))))).

(** how often a character occurs in a text, [s.count(c)] *)
Definition count_char (c : ascii) (s : string) : nat :=
  length (filter (fun x => x = c) (list_ascii_of_string s)).

(** [Path(...)] of the template after its three [replace] calls and
    [format] with the content as keyword arguments *)
Definition render (file_path : string) (content : gmap string jvalue)
  : outcome Path :=
  andthen (format (replace ")s" "[0]}"
                     (replace "%(" "{" (replace "%(root)s/" "" file_path)))
                  content)
          (fun s => done_ (Pathlib.of_string s)).

(** [content["version"] = [content["dataset_id"].split("|")[0].split(".")[-1]]]:
    the dictionary with its new version, or the exception. *)
Definition set_version (content : gmap string jvalue)
  : result (gmap string jvalue) :=
  match content !! "dataset_id" with
  | None => Raise (KeyError "dataset_id")
  | Some (JStr id) => Ok (<["version" := JList [dataset_version id]]> content)
  | Some _ => Raise AttributeError
  end.

(** [content["directory_format_template_"][0]] *)
Definition template_of (content : gmap string jvalue) : result string :=
  match content !! "directory_format_template_" with
  | None => Raise (KeyError "directory_format_template_")
  | Some v => getitem v 0
  end.

(** the keys that [get_relative_esgf_path] asks for *)
Definition REQUIRED : list string :=
  ["version"; "dataset_id"; "directory_format_template_"].

(** an entry of a Globus search result *)
Record entry := mkEntry {
  entry_id : string;
  content : option (gmap string jvalue)
}.

(** Return the relative ESGF path from the Globus entry.  The entry comes
    back as the call leaves it. *)
Definition get_relative_esgf_path (e : entry) : outcome Path * entry :=
  match content e with
  | None => (fail (ValueError "'content' not part of the entry."), e)
  | Some c =>
      if negb (forallb (fun k => bool_decide (is_Some (c !! k))) REQUIRED)
      then (fail (ValueError "Entry content does not contain expected keys."), e)
      else
        match set_version c with
        | Raise ex => (fail ex, e)
        | Ok c' =>
            (andthen (Some (template_of c')) (fun file_path => render file_path c'),
             mkEntry (entry_id e) (Some c'))
        end
  end.

(** *** Templates of the usual form *)

(** an entry without content, or whose content lacks a required key *)
Definition incomplete (e : entry) : Prop :=
  match content e with
  | None => True
  | Some c => exists k, k ∈ REQUIRED /\ c !! k = None
  end.

(** the name of a facet: letters, digits and underscores, not a number *)
Definition is_word (c : ascii) : bool := Re.is_alnum c || Ascii.eqb c "_".

Definition plain (k : string) : bool :=
  match list_ascii_of_string k with
  | [] => false
  | cs => forallb is_word cs && negb (forallb is_digit cs)
  end.

(** a value that makes one component of a path *)
Definition segment (v : string) : bool :=
  match list_ascii_of_string v with
  | [] => false
  | cs => forallb (fun c => negb (Ascii.eqb c "/")) cs
          && negb (bool_decide (v = "."))
  end.

(** [%(root)s/%(k1)s/.../%(kn)s] *)
Definition template (keys : list string) : string :=
  "%(root)s/" +:+ Str.join "/" ((fun k => "%(" +:+ k +:+ ")s") <$> keys).

End Esgf.

Module PathScenarios.
Import Py Esgf.

Definition cesm2_id : string :=
  "CMIP6.CMIP.NCAR.CESM2.historical.r1i1p1f1.Amon.tas.gn.v20190308|esgf-data.ucar.edu".

(** the content of a file entry, with the integer version that the index
    gives *)
Definition cesm2_content : gmap string jvalue :=
  list_to_map
    [ ("dataset_id", JStr cesm2_id);
      ("version", JInt 1);
      ("directory_format_template_",
       JList ["%(root)s/%(mip_era)s/%(activity_drs)s/%(institution_id)s/%(version)s"]);
      ("mip_era", JList ["CMIP6"]);
      ("activity_drs", JList ["CMIP"]);
      ("institution_id", JList ["NCAR"]);
      ("title", JStr "tas.nc") ].

End PathScenarios.

(** * Properties *)

(** ** The monad *)

Lemma bind_ok {A B} (m : M A) (f : A -> M B) w a w' :
  m w = (Ok a, w') -> (m ≫= f) w = f a w'.
Proof. intros H. unfold mbind, M_bind. by rewrite H. Qed.

Lemma bind_raise {A B} (m : M A) (f : A -> M B) w e w' :
  m w = (Raise e, w') -> (m ≫= f) w = (Raise e, w').
Proof. intros H. unfold mbind, M_bind. by rewrite H. Qed.

Lemma getitem_ok (d : gmap string value) k v w :
  d !! k = Some v -> getitem d k w = (Ok v, w).
Proof. intros H. unfold getitem. by rewrite H. Qed.

Lemma lift_run {A} (r : result A) w : lift r w = (r, w).
Proof. reflexivity. Qed.

Lemma world_eta w : mkWorld (fs w) (log w) = w.
Proof. by destruct w. Qed.

(** ** Verified retrieval *)

Module RetrievalFacts.
Import Retrieval.

Lemma exists_run p w :
  exists_ p w = (Ok (bool_decide (is_Some (fs w !! p))), w).
Proof. reflexivity. Qed.

Lemma exists_present p w :
  is_Some (fs w !! p) -> exists_ p w = (Ok true, w).
Proof. intros H. rewrite exists_run. by rewrite bool_decide_eq_true_2. Qed.

Lemma exists_absent p w :
  fs w !! p = None -> exists_ p w = (Ok false, w).
Proof.
  intros H. rewrite exists_run. rewrite bool_decide_eq_false_2; [done|].
  rewrite H. by intros [? ?].
Qed.

Section WithEnvironment.
Variable hashlib : Hashlib.
Variable net : Network.

Lemma cache_hit (info : gmap string value) local_cache w path rel key :
  info !! "path" = Some path ->
  Pathlib.of_value path = Ok rel ->
  info !! "key" = Some key ->
  is_Some (fs w !! (local_cache // rel)) ->
  cache_or_download hashlib net info local_cache w
  = (Ok (key, local_cache // rel), w).
Proof.
  intros Hp Hrel Hk Hex. unfold cache_or_download.
  rewrite (bind_ok _ _ _ _ _ (getitem_ok _ _ _ w Hp)).
  rewrite Hrel. rewrite (bind_ok _ _ w rel w (lift_run _ _)).
  rewrite (bind_ok _ _ _ _ _ (exists_present _ _ Hex)).
  by rewrite (bind_ok _ _ _ _ _ (getitem_ok _ _ _ w Hk)).
Qed.

Lemma cache_miss_no_links (info : gmap string value) local_cache w path rel key :
  info !! "path" = Some path ->
  Pathlib.of_value path = Ok rel ->
  info !! "key" = Some key ->
  info !! "HTTPServer" = Some (VList []) ->
  fs w !! (local_cache // rel) = None ->
  cache_or_download hashlib net info local_cache w
  = (Ok (key, local_cache // rel), w).
Proof.
  intros Hp Hrel Hk Hl Hex. unfold cache_or_download.
  rewrite (bind_ok _ _ _ _ _ (getitem_ok _ _ _ w Hp)).
  rewrite Hrel. rewrite (bind_ok _ _ w rel w (lift_run _ _)).
  rewrite (bind_ok _ _ _ _ _ (exists_absent _ _ Hex)).
  rewrite (bind_ok _ _ _ _ _ (getitem_ok _ _ _ w Hl)).
  rewrite (bind_ok (iter (VList [])) _ w [] w eq_refl).
  rewrite (bind_ok (try_links _ _ _ _ []) _ w tt w eq_refl).
  by rewrite (bind_ok _ _ _ _ _ (getitem_ok _ _ _ w Hk)).
Qed.

Lemma dataroot_miss (info : gmap string value) local_cache root w path rel :
  info !! "path" = Some path ->
  Pathlib.of_value path = Ok rel ->
  fs w !! (root // rel) = None ->
  parallel_download hashlib net info local_cache (Some root) w
  = cache_or_download hashlib net info local_cache w.
Proof.
  intros Hp Hrel Hex. unfold parallel_download.
  rewrite (bind_ok _ _ _ _ _ (getitem_ok _ _ _ w Hp)).
  rewrite Hrel. rewrite (bind_ok _ _ w rel w (lift_run _ _)).
  by rewrite (bind_ok _ _ _ _ _ (exists_absent _ _ Hex)).
Qed.

(** C4. A task whose relative path exists under the configured read-only
    data root gets that path back, and otherwise, when the path exists
    under the local cache, the cached path; in both cases the world is
    left as it was: no request is sent, no digest is computed and no file
    is touched. *)
Theorem local_hit_short_circuit (info : gmap string value)
    local_cache esg_dataroot w path rel key :
  info !! "path" = Some path ->
  Pathlib.of_value path = Ok rel ->
  info !! "key" = Some key ->
  (forall root, esg_dataroot = Some root ->
     is_Some (fs w !! (root // rel)) ->
     parallel_download hashlib net info local_cache esg_dataroot w
     = (Ok (key, root // rel), w))
  /\ ((forall root, esg_dataroot = Some root -> fs w !! (root // rel) = None) ->
      is_Some (fs w !! (local_cache // rel)) ->
      parallel_download hashlib net info local_cache esg_dataroot w
      = (Ok (key, local_cache // rel), w)).
Proof.
  intros Hp Hrel Hk. split.
  - intros root -> Hex. unfold parallel_download.
    rewrite (bind_ok _ _ _ _ _ (getitem_ok _ _ _ w Hp)).
    rewrite Hrel. rewrite (bind_ok _ _ w rel w (lift_run _ _)).
    rewrite (bind_ok _ _ _ _ _ (exists_present _ _ Hex)).
    by rewrite (bind_ok _ _ _ _ _ (getitem_ok _ _ _ w Hk)).
  - intros Hroot Hex. destruct esg_dataroot as [root|].
    + rewrite (dataroot_miss _ _ _ _ _ _ Hp Hrel (Hroot root eq_refl)).
      by eapply cache_hit.
    + by eapply cache_hit.
Qed.

(** C10. A task whose file is neither under the data root nor in the
    cache and whose list of HTTPServer links is empty gets the key and
    the cache path back without an exception; nothing is requested or
    written, so the returned path names no file. *)
Theorem no_links_returns_missing_path (info : gmap string value)
    local_cache esg_dataroot w path rel key :
  info !! "path" = Some path ->
  Pathlib.of_value path = Ok rel ->
  info !! "key" = Some key ->
  info !! "HTTPServer" = Some (VList []) ->
  (forall root, esg_dataroot = Some root -> fs w !! (root // rel) = None) ->
  fs w !! (local_cache // rel) = None ->
  exists w',
    parallel_download hashlib net info local_cache esg_dataroot w
    = (Ok (key, local_cache // rel), w')
    /\ w' = w
    /\ fs w' !! (local_cache // rel) = None.
Proof.
  intros Hp Hrel Hk Hl Hroot Hex. exists w. split; [|done].
  destruct esg_dataroot as [root|].
  - rewrite (dataroot_miss _ _ _ _ _ _ Hp Hrel (Hroot root eq_refl)).
    by eapply cache_miss_no_links.
  - by eapply cache_miss_no_links.
Qed.

Lemma get_file_hash_reads filepath alg w digest w' :
  get_file_hash hashlib filepath alg w = (Ok digest, w') ->
  fs w' = fs w /\ exists content, fs w !! filepath = Some (File content).
Proof.
  unfold get_file_hash. destruct alg as [a| | |]; try discriminate.
  rewrite (bind_ok _ _ w (Str.lower a) w eq_refl).
  destruct (negb _); [discriminate|].
  destruct (hashlib_dict hashlib (Str.lower a)) as [h|]; [|discriminate].
  rewrite (bind_ok (emit _) _ w tt _ eq_refl).
  unfold read_bytes, mbind, M_bind, get_fs. cbn [fs log].
  destruct (fs w !! filepath) as [[content|]|] eqn:E; try discriminate.
  intros [= _ <-]. cbn [fs]. eauto.
Qed.

Lemma unlink_file p w content :
  fs w !! p = Some (File content) ->
  unlink p w = (Ok tt, mkWorld (delete p (fs w)) (log w)).
Proof. intros H. unfold unlink, mbind, M_bind, get_fs. by rewrite H. Qed.

(** C3. When the transfer has run to its end and the digest computed from
    the downloaded file differs from the declared checksum,
    [download_and_verify] raises the mismatch error, and at that point
    the file is gone from the destination. *)
Theorem mismatch_unlinks_before_raising url local_file hash alg
    content_length w w1 w2 digest :
  stream_to_file net url local_file w = (Ok tt, w1) ->
  get_file_hash hashlib local_file alg w1 = (Ok digest, w2) ->
  VStr digest <> hash ->
  exists w',
    download_and_verify hashlib net url local_file hash alg content_length w
    = (Raise (ValueError "Hash does not match"), w')
    /\ fs w' !! local_file = None.
Proof.
  intros Hst Hh Hne.
  destruct (get_file_hash_reads _ _ _ _ _ Hh) as [Hfs [content Hc]].
  exists (mkWorld (delete local_file (fs w2)) (log w2)). split.
  - unfold download_and_verify.
    rewrite (bind_ok _ _ _ _ _ Hst), (bind_ok _ _ _ _ _ Hh).
    rewrite bool_decide_eq_true_2 by done.
    assert (Hc2 : fs w2 !! local_file = Some (File content)) by by rewrite Hfs.
    by rewrite (bind_ok _ _ _ _ _ (unlink_file _ _ _ Hc2)).
  - cbn. apply lookup_delete_eq.
Qed.

(** An exception out of [download_and_verify] leaves the loop over the
    links at once: the remaining links are never tried. *)
Lemma try_links_raise (info : gmap string value) local_file url urls
    checksum checksum_type size w e w' :
  info !! "checksum" = Some checksum ->
  info !! "checksum_type" = Some checksum_type ->
  info !! "size" = Some size ->
  download_and_verify hashlib net url local_file checksum checksum_type size w
  = (Raise e, w') ->
  try_links hashlib net info local_file (url :: urls) w = (Raise e, w').
Proof.
  intros H1 H2 H3 Hd. cbn [try_links].
  rewrite (bind_ok _ _ _ _ _ (getitem_ok _ _ _ w H1)).
  rewrite (bind_ok _ _ _ _ _ (getitem_ok _ _ _ w H2)).
  rewrite (bind_ok _ _ _ _ _ (getitem_ok _ _ _ w H3)).
  by rewrite (bind_raise _ _ _ _ _ Hd).
Qed.

(** A stream that breaks off leaves what was written so far. *)
Lemma write_chunks_broken local_file body w content :
  fs w !! local_file = Some (File content) ->
  exists w',
    write_chunks local_file body Broken w = (Raise ConnectionError, w')
    /\ fs w' !! local_file = Some (File (content ++ mjoin body)).
Proof.
  revert w content. induction body as [|chunk body IH]; intros w content Hc.
  - exists w. cbn. by rewrite app_nil_r.
  - cbn [write_chunks]. destruct chunk as [|b chunk].
    + destruct (IH w content Hc) as (w' & Hw & Hf).
      exists w'. split; [|done]. by rewrite (bind_ok _ _ w tt w eq_refl).
    + set (w1 := mkWorld (<[local_file := File (content ++ b :: chunk)]> (fs w))
                         (log w)).
      assert (Hw1 : write local_file (b :: chunk) w = (Ok tt, w1)).
      { unfold write, mbind, M_bind, get_fs. by rewrite Hc. }
      destruct (IH w1 (content ++ b :: chunk)) as (w' & Hw & Hf).
      { cbn. apply lookup_insert_eq. }
      exists w'. split.
      * by rewrite (bind_ok _ _ _ _ _ Hw1).
      * rewrite Hf. cbn. by rewrite <- app_assoc.
Qed.

End WithEnvironment.

Import Fixtures.

Lemma local_hit_short_circuit_witness :
  parallel_download hashlib net (task ["https://a.example/tas.nc"]) cache
                    (Some dataroot) on_dataroot
  = (Ok (VStr "tas", dataroot // rel), on_dataroot)
  /\ parallel_download hashlib net (task ["https://a.example/tas.nc"]) cache
                       (Some dataroot) in_cache
     = (Ok (VStr "tas", cache // rel), in_cache).
Proof.
  split.
  - apply (proj1 (local_hit_short_circuit hashlib net
                    (task ["https://a.example/tas.nc"]) cache (Some dataroot)
                    on_dataroot (VPath rel) rel (VStr "tas")
                    eq_refl eq_refl eq_refl) dataroot eq_refl).
    vm_compute. eauto.
  - apply (proj2 (local_hit_short_circuit hashlib net
                    (task ["https://a.example/tas.nc"]) cache (Some dataroot)
                    in_cache (VPath rel) rel (VStr "tas")
                    eq_refl eq_refl eq_refl)).
    + intros root [= <-]. reflexivity.
    + vm_compute. eauto.
Defined.

Lemma no_links_returns_missing_path_witness :
  exists w',
    parallel_download hashlib net (task []) cache (Some dataroot) empty_world
    = (Ok (VStr "tas", cache // rel), w')
    /\ w' = empty_world
    /\ fs w' !! (cache // rel) = None.
Proof.
  apply (no_links_returns_missing_path hashlib net (task []) cache
           (Some dataroot) empty_world (VPath rel) rel (VStr "tas")
           eq_refl eq_refl eq_refl eq_refl).
  - intros root [= <-]. reflexivity.
  - reflexivity.
Defined.

Lemma mismatch_unlinks_before_raising_witness :
  exists w',
    download_and_verify hashlib net "https://a.example/tas.nc" (cache // rel)
                        (VStr "ok") (VStr "ECHO") (VInt 2) empty_world
    = (Raise (ValueError "Hash does not match"), w')
    /\ fs w' !! (cache // rel) = None.
Proof.
  eapply (mismatch_unlinks_before_raising hashlib net
            "https://a.example/tas.nc" (cache // rel) (VStr "ok") (VStr "ECHO")
            (VInt 2) empty_world _ _ "no").
  - vm_compute. reflexivity.
  - vm_compute. reflexivity.
  - discriminate.
Defined.

(** C1, on the code: two mirrors, the first serving bytes that fail the
    checksum and the second serving bytes that pass.  The mismatch on the
    first mirror ends the task with the exception; the only request in the
    log is the one to the first mirror, and nothing is left at the
    destination.  Asked alone, the second mirror verifies. *)
Theorem first_mismatch_ends_the_task :
  let dest := cache // rel in
  let first := "https://a.example/tas.nc" in
  let second := "https://b.example/tas.nc" in
  (let '(r, w') :=
     parallel_download hashlib net (task [first; second]) cache None empty_world in
   r = Raise (ValueError "Hash does not match")
   /\ log w' = [EvRequest first; EvDigest dest "echo"]
   /\ fs w' !! dest = None)
  /\ (let '(r, w') :=
        parallel_download hashlib net (task [second]) cache None empty_world in
      r = Ok (VStr "tas", dest)
      /\ fs w' !! dest = Some (File good)).
Proof. vm_compute. repeat split. Qed.

(** C2, on the code: a mirror answers with status 200, delivers one byte
    and then the connection breaks.  [download_and_verify] ends with the
    connection error, and the byte written so far stays at the
    destination. *)
Theorem broken_stream_leaves_partial_file :
  let dest := cache // rel in
  let '(r, w') :=
    download_and_verify hashlib net "https://c.example/tas.nc" dest
                        (VStr "ok") (VStr "ECHO") (VInt 2) empty_world in
  r = Raise ConnectionError
  /\ fs w' !! dest = Some (File [x6f]%byte).
Proof. vm_compute. repeat split. Qed.

End RetrievalFacts.

(** ** Identifier parser *)

Module ParserFacts.
Import Re Parser.

(** what [re.compile] makes of the pattern text *)
Lemma compile_dataset_pattern :
  compile get_dataset_pattern = Some (facets_regex (removelast COLUMNS)).
Proof. vm_compute. reflexivity. Qed.

Lemma list_ascii_of_string_app a b :
  list_ascii_of_string (a +:+ b)
  = list_ascii_of_string a ++ list_ascii_of_string b.
Proof. induction a as [|c a IH]; simpl; [done|]. by rewrite IH. Qed.

Lemma consumed_prefix (l rest : list ascii) :
  consumed (l ++ rest) rest = string_of_list_ascii l.
Proof.
  unfold consumed. rewrite length_app.
  replace (length l + length rest - length rest) with (length l) by lia.
  by rewrite take_app_length.
Qed.

Section Matching.
Context {R : Type}.

(** the greedy star takes a whole run when what follows the run lets the
    continuation succeed *)
Lemma star_run c (run rest : list ascii) (k : list ascii -> option R) res :
  forallb (accepts c) run = true ->
  match rest with [] => True | x :: _ => accepts c x = false end ->
  k rest = Some res ->
  star c (run ++ rest) k = Some res.
Proof.
  intros Hrun Hrest Hk. induction run as [|x run IH]; cbn [app forallb] in *.
  - destruct rest as [|y rest]; [done|]. cbn [star]. by rewrite Hrest.
  - apply andb_prop in Hrun as [Hx Hrun]. cbn [star]. by rewrite Hx, IH.
Qed.

Lemma exec_cat r1 r2 s g (k : list ascii -> groupdict -> option R) :
  exec (Cat r1 r2) s g k = exec r1 s g (fun s' g' => exec r2 s' g' k).
Proof. reflexivity. Qed.

Lemma exec_lit c r s g (k : list ascii -> groupdict -> option R) :
  exec (Cat (One (Lit c)) r) (c :: s) g k = exec r s g k.
Proof. cbn. by rewrite Ascii.eqb_refl. Qed.

Lemma exec_facet_group name f sep more g
    (k : list ascii -> groupdict -> option R) res :
  facet_ok f = true ->
  is_separator sep = true ->
  k (sep :: more) (set_group name f g) = Some res ->
  exec (facet_group name) (list_ascii_of_string f ++ sep :: more) g k
  = Some res.
Proof.
  unfold facet_ok, no_separator. intros Hf Hsep Hk.
  rewrite <- (string_of_list_ascii_of_string f) in Hk.
  destruct (list_ascii_of_string f) as [|c [|c' l]]; try discriminate.
  apply andb_prop in Hf as [Hc Hl]. cbn in Hl.
  apply andb_prop in Hl as [_ Hl].
  cbn [facet_group exec app].
  change (accepts NonSpace c) with (negb (is_space c)). rewrite Hc.
  apply andb_prop in Hl as [Hc' Hl].
  assert (Hacc : forall x, negb (is_separator x) = true ->
            accepts (NoneOf ["."%char; "|"%char]) x = true).
  { intros x Hx. unfold is_separator in Hx. cbn.
    apply negb_true_iff, orb_false_elim in Hx as [H1 H2].
    apply Ascii.eqb_neq in H1, H2.
    apply negb_true_iff, bool_decide_eq_false_2.
    rewrite !elem_of_cons. intros [?|[?|?%elem_of_nil]]; done. }
  rewrite (Hacc _ Hc').
  apply star_run.
  - apply forallb_forall. intros x Hx. apply Hacc.
    by eapply forallb_forall in Hl.
  - cbn. apply negb_false_iff, bool_decide_eq_true_2.
    unfold is_separator in Hsep. apply orb_prop in Hsep as [H|H];
      apply Ascii.eqb_eq in H; subst; set_solver.
  - pose proof (consumed_prefix (c :: c' :: l) (sep :: more)) as E.
    cbn [app] in E. by rewrite E.
Qed.

Lemma exec_node_group dn g (k : list ascii -> groupdict -> option R) res :
  node_ok dn = true ->
  k [] (set_group last_column dn g) = Some res ->
  exec node_group (list_ascii_of_string dn) g k = Some res.
Proof.
  unfold node_ok. intros Hn Hk.
  rewrite <- (string_of_list_ascii_of_string dn) in Hk.
  destruct (list_ascii_of_string dn) as [|c l]; [discriminate|].
  cbn in Hn. apply andb_prop in Hn as [Hc Hl].
  cbn [node_group exec].
  change (accepts NonSpace c) with (negb (is_space c)). rewrite Hc.
  rewrite <- (app_nil_r l). apply star_run; [done|done|].
  rewrite app_nil_r.
  by rewrite <- (consumed_prefix (c :: l) []), app_nil_r in Hk.
Qed.
End Matching.

Lemma scan_here r s g : match_here r s = Some g -> scan r s = Some g.
Proof. intros H. destruct s; cbn [scan]; by rewrite H. Qed.

(** C5, as it stands, fails on a facet value of one character: the
    identifier below is built from ten values without dot or pipe and a
    data node, and the pattern finds no match in it. *)
Lemma one_character_facet_does_not_parse :
  let facets := [ "CMIP6"; "CMIP"; "NCAR"; "CESM2"; "historical";
                  "r1i1p1f1"; "Amon"; "o"; "gn"; "v20190726" ] in
  length facets = 10
  /\ forallb no_separator facets = true
  /\ ~ round_trips (build_id facets "esgf-data.ucar.edu").
Proof.
  cbv zeta. split; [reflexivity|]. split; [reflexivity|].
  intros [g [H _]]. vm_compute in H. discriminate.
Qed.

(** C5, amended.  An identifier built from ten facet values, each without
    dot or pipe, of two characters or more and not starting with white
    space, joined by dots and followed by a pipe and a non-empty data node
    without white space, parses; the captured values are the ten facet
    values and the data node, and rejoining them gives the identifier
    back. *)
Theorem canonical_identifier_round_trips (facets : list string) (dn : string) :
  length facets = 10 ->
  forallb facet_ok facets = true ->
  node_ok dn = true ->
  Re.search get_dataset_pattern (build_id facets dn)
  = Some (zip COLUMNS (facets ++ [dn]))
  /\ round_trips (build_id facets dn).
Proof.
  intros Hlen Hf Hn.
  do 11 (destruct facets as [|? facets]; try discriminate). clear Hlen.
  cbn [forallb] in Hf.
  repeat (apply andb_prop in Hf as [? Hf]).
  assert (Hs : Re.search get_dataset_pattern
                 (build_id [s; s0; s1; s2; s3; s4; s5; s6; s7; s8] dn)
               = Some (zip COLUMNS ([s; s0; s1; s2; s3; s4; s5; s6; s7; s8] ++ [dn]))).
  { unfold Re.search. rewrite compile_dataset_pattern. cbn [mbind option_bind].
    apply scan_here. unfold match_here, build_id.
    cbn [Str.join]. rewrite !list_ascii_of_string_app.
    cbn [list_ascii_of_string]. rewrite <- !app_assoc. cbn [app].
    cbn [COLUMNS removelast facets_regex pipe_and_node].
    do 9 (rewrite exec_cat; apply exec_facet_group; [done|reflexivity|];
          rewrite exec_lit).
    rewrite exec_cat. apply exec_facet_group; [done|reflexivity|].
    unfold pipe_and_node. rewrite exec_lit, exec_cat.
    apply exec_node_group; [done|]. reflexivity. }
  split; [exact Hs|].
  exists (zip COLUMNS ([s; s0; s1; s2; s3; s4; s5; s6; s7; s8] ++ [dn])).
  split; [exact Hs|]. reflexivity.
Qed.

Lemma canonical_identifier_round_trips_witness :
  Re.search get_dataset_pattern
    "CMIP6.CMIP.NCAR.CESM2.historical.r1i1p1f1.Amon.tas.gn.v20190726|esgf-data.ucar.edu"
  = Some [ ("mip_era", "CMIP6"); ("activity_id", "CMIP");
           ("institution_id", "NCAR"); ("source_id", "CESM2");
           ("experiment_id", "historical"); ("member_id", "r1i1p1f1");
           ("table_id", "Amon"); ("variable_id", "tas");
           ("grid_label", "gn"); ("version", "v20190726");
           ("data_node", "esgf-data.ucar.edu") ]
  /\ round_trips
       "CMIP6.CMIP.NCAR.CESM2.historical.r1i1p1f1.Amon.tas.gn.v20190726|esgf-data.ucar.edu".
Proof.
  apply (canonical_identifier_round_trips
           [ "CMIP6"; "CMIP"; "NCAR"; "CESM2"; "historical"; "r1i1p1f1";
             "Amon"; "tas"; "gn"; "v20190726" ] "esgf-data.ucar.edu");
    reflexivity.
Defined.

End ParserFacts.

(** ** File metadata merger *)

Lemma foldM_app {A B} (f : A -> B -> result A) (l1 l2 : list B) (a : A) :
  foldM f a (l1 ++ l2) = foldM f a l1 ≫= fun a' => foldM f a' l2.
Proof.
  revert a. induction l1 as [|x l1 IH]; intros a; cbn; [done|].
  destruct (f a x) as [a'|e]; cbn; [apply IH|done].
Qed.

Module MergerFacts.
Import Merger.

Abbreviation merge_maps := (union_with join_field).

(** *** One record merged into another *)

Lemma merge_maps_empty_r (m : Info) : merge_maps m ∅ = m.
Proof.
  apply map_eq. intros i. rewrite lookup_union_with, lookup_empty.
  by destruct (m !! i).
Qed.

Lemma merge_maps_empty_l (m : Info) : merge_maps ∅ m = m.
Proof.
  apply map_eq. intros i. rewrite lookup_union_with, lookup_empty.
  by destruct (m !! i).
Qed.

Lemma typed_empty : typed ∅.
Proof. apply map_Forall_empty. Qed.

Lemma typed_merge (m e : Info) : typed m -> typed e -> typed (merge_maps m e).
Proof.
  intros Hm He k v. rewrite lookup_union_with.
  destruct (m !! k) as [old|] eqn:Em, (e !! k) as [new|] eqn:Ee; cbn;
    intros [= <-]; try (by eapply Hm); try (by eapply He).
  specialize (Hm k old Em). specialize (He k new Ee). cbn in Hm, He.
  destruct old, new; cbn in *; congruence.
Qed.

Lemma merge_item_spec (m : Info) k v :
  typed m ->
  is_vlist v = negb (bool_decide (k ∈ SCALARS)) ->
  merge_item m (k, v) = Ok (merge_maps m {[k := v]}).
Proof.
  intros Hm Hv.
  assert (E : forall x, union_with join_field (m !! k) (Some v) = Some x ->
              <[k := x]> m = merge_maps m {[k := v]}).
  { intros x Hx. apply map_eq. intros i. rewrite lookup_union_with.
    destruct (decide (k = i)) as [<-|Hne].
    - by rewrite lookup_insert_eq, lookup_singleton_eq.
    - rewrite lookup_insert_ne, lookup_singleton_ne by done.
      by destruct (m !! i). }
  unfold merge_item.
  destruct (m !! k) as [old|] eqn:Em.
  - specialize (Hm k old Em). cbn in Hm.
    destruct v, old; cbn in Hv, Hm; try congruence; f_equal;
      first [ by apply E
            | rewrite <- (E _ eq_refl); symmetry; by apply insert_id ].
  - destruct v; f_equal; by apply E.
Qed.

Lemma merge_items_spec (items : list (string * value)) : forall m : Info,
  NoDup items.*1 ->
  typed m ->
  Forall (fun kv => is_vlist kv.2 = negb (bool_decide (kv.1 ∈ SCALARS))) items ->
  foldM merge_item m items = Ok (merge_maps m (list_to_map items)).
Proof.
  induction items as [|[k v] items IH]; intros m Hnd Hm Hit.
  - cbn. by rewrite merge_maps_empty_r.
  - apply NoDup_cons in Hnd as [Hk Hnd]. apply Forall_cons in Hit as [Hv Hit].
    cbn [fst snd] in Hv. cbn [foldM]. rewrite (merge_item_spec m k v Hm Hv). cbn.
    rewrite IH; [|done| |done].
    + f_equal. apply map_eq. intros i. rewrite !lookup_union_with.
      destruct (decide (k = i)) as [<-|Hne].
      * rewrite lookup_singleton_eq, lookup_insert_eq.
        rewrite (not_elem_of_list_to_map_1 _ _ Hk).
        by destruct (m !! k).
      * rewrite lookup_singleton_ne, lookup_insert_ne by done.
        by destruct (m !! i), (list_to_map items !! i).
    + apply typed_merge; [done|]. intros i x.
      rewrite lookup_singleton_Some. by intros [<- <-].
Qed.

Lemma merge_record_spec (m e : Info) :
  typed m -> typed e ->
  foldM merge_item m (map_to_list e) = Ok (merge_maps m e).
Proof.
  intros Hm He. rewrite merge_items_spec; [|apply NoDup_fst_map_to_list|done|].
  - by rewrite list_to_map_to_list.
  - apply Forall_forall. intros [k v] Hin. apply elem_of_map_to_list in Hin.
    by apply He in Hin.
Qed.

(** *** The dictionary of merged records *)

Lemma lookup_path_app q (m1 m2 : Merged) :
  lookup_path q (m1 ++ m2)
  = match lookup_path q m1 with
    | Some m => Some m
    | None => lookup_path q m2
    end.
Proof.
  induction m1 as [|[p m] m1 IH]; cbn; [done|]. by destruct (decide (p = q)).
Qed.

Lemma lookup_path_None q (merged : Merged) :
  lookup_path q merged = None <-> q ∉ merged.*1.
Proof.
  induction merged as [|[p m] merged IH]; cbn.
  - split; [intros _; apply not_elem_of_nil|done].
  - rewrite not_elem_of_cons. destruct (decide (p = q)) as [->|Hne].
    + split; [done|]. by intros [? _].
    + rewrite IH. split; [by intros ?|by intros [_ ?]].
Qed.

Lemma lookup_store q p m (merged : Merged) :
  lookup_path q (store_path p m merged)
  = if decide (p = q) then Some m else lookup_path q merged.
Proof.
  induction merged as [|[p' m'] merged IH]; cbn.
  - done.
  - destruct (decide (p' = p)) as [->|Hne]; cbn.
    + by destruct (decide (p = q)).
    + rewrite IH. destruct (decide (p' = q)) as [->|?]; [|done].
      by rewrite decide_False.
Qed.

Lemma store_path_keys p m (merged : Merged) :
  p ∈ merged.*1 -> (store_path p m merged).*1 = merged.*1.
Proof.
  induction merged as [|[p' m'] merged IH]; cbn.
  - by intros ?%elem_of_nil.
  - intros Hin. destruct (decide (p' = p)) as [->|Hne]; [done|]. cbn.
    f_equal. apply IH. apply elem_of_cons in Hin as [?|?]; [congruence|done].
Qed.

Lemma lookup_ensure q p (merged : Merged) :
  lookup_path q (ensure_path p merged)
  = if decide (p = q) then Some (default ∅ (lookup_path p merged))
    else lookup_path q merged.
Proof.
  unfold ensure_path. destruct (lookup_path p merged) as [m|] eqn:E.
  - destruct (decide (p = q)) as [<-|?]; [by rewrite E|done].
  - rewrite lookup_path_app. cbn. destruct (decide (p = q)) as [<-|?].
    + by rewrite E.
    + by destruct (lookup_path q merged).
Qed.

Lemma ensure_path_keys p (merged : Merged) :
  NoDup merged.*1 ->
  NoDup (ensure_path p merged).*1 /\ p ∈ (ensure_path p merged).*1.
Proof.
  intros Hnd. unfold ensure_path.
  destruct (lookup_path p merged) as [m|] eqn:E.
  - split; [done|]. destruct (decide (p ∈ merged.*1)) as [?|Hn]; [done|].
    apply lookup_path_None in Hn. congruence.
  - apply lookup_path_None in E. rewrite fmap_app. cbn. split.
    + apply NoDup_app. split; [done|]. split; [|apply NoDup_singleton].
      intros x Hx ->%list_elem_of_singleton. done.
    + apply elem_of_app. right. apply list_elem_of_singleton. done.
Qed.

(** the record under a path, once one more record has been merged in *)
Definition merge_opt (o : option Info) (e : Info) : option Info :=
  Some (merge_maps (default ∅ o) e).

(** the dictionary is well formed: no path twice, and under every path a
    typed record that carries this path *)
Definition well_formed (merged : Merged) : Prop :=
  NoDup merged.*1
  /\ forall q m, lookup_path q merged = Some m -> typed m /\ m !! "path" = Some q.

Lemma path_is_scalar (e : Info) p :
  typed e -> e !! "path" = Some p -> is_vlist p = false.
Proof. intros He Hp. by apply He in Hp. Qed.

Lemma add_info_spec (merged : Merged) (e : Info) p :
  well_formed merged ->
  typed e ->
  e !! "path" = Some p ->
  exists merged',
    add_info merged e = Ok merged'
    /\ well_formed merged'
    /\ forall q, lookup_path q merged'
                 = if decide (p = q) then merge_opt (lookup_path p merged) e
                   else lookup_path q merged.
Proof.
  intros [Hnd Hwf] He Hp.
  pose proof (path_is_scalar _ _ He Hp) as Hsc.
  set (m0 := default ∅ (lookup_path p merged)).
  assert (Hm0 : typed m0).
  { unfold m0. destruct (lookup_path p merged) as [m|] eqn:E; cbn.
    - by apply (Hwf p m).
    - apply typed_empty. }
  exists (store_path p (merge_maps m0 e) (ensure_path p merged)).
  split; [|split].
  - unfold add_info. rewrite Hp. destruct p; try discriminate;
      rewrite lookup_ensure, decide_True by done; cbn [default];
      fold m0; unfold id; by rewrite (merge_record_spec m0 e Hm0 He).
  - destruct (ensure_path_keys p merged Hnd) as [Hnd' Hin]. split.
    + by rewrite store_path_keys.
    + intros q m. rewrite lookup_store. destruct (decide (p = q)) as [<-|Hne].
      * intros [= <-]. split; [by apply typed_merge|].
        rewrite lookup_union_with, Hp. unfold m0.
        destruct (lookup_path p merged) as [m|] eqn:E; cbn.
        -- destruct (Hwf p m E) as [_ ->]. cbn. by destruct p.
        -- by rewrite lookup_empty.
      * rewrite lookup_ensure, decide_False by done. apply Hwf.
  - intros q. rewrite lookup_store. destruct (decide (p = q)); [done|].
    by rewrite lookup_ensure, decide_False.
Qed.

Lemma add_infos_spec (es : list Info) : forall merged : Merged,
  well_formed merged ->
  Forall file_record es ->
  exists merged',
    foldM add_info merged es = Ok merged'
    /\ well_formed merged'
    /\ forall q, lookup_path q merged'
                 = foldl merge_opt (lookup_path q merged)
                         (filter (fun e : Info => e !! "path" = Some q) es).
Proof.
  induction es as [|e es IH]; intros merged Hwf Hes.
  - exists merged. split; [done|]. split; [done|]. by intros q.
  - apply Forall_cons in Hes as [[He Hsc] Hes].
    assert (Hp : is_Some (e !! "path")).
    { eapply Forall_forall in Hsc; [exact Hsc|]. unfold SCALARS. set_solver. }
    destruct Hp as [p Hp].
    destruct (add_info_spec merged e p Hwf He Hp) as (m1 & H1 & Hwf1 & Hl1).
    destruct (IH m1 Hwf1 Hes) as (m2 & H2 & Hwf2 & Hl2).
    exists m2. split; [|split; [done|]].
    + cbn [foldM]. rewrite H1. exact H2.
    + intros q. rewrite Hl2, Hl1, filter_cons.
      destruct (decide (p = q)) as [<-|Hne].
      * by rewrite decide_True.
      * rewrite decide_False; [done|]. rewrite Hp. by intros [= ?].
Qed.

Lemma add_indices_spec ids (indices : list Index) : forall merged : Merged,
  Forall (fun ind : Index => forall e, ind ids = Raise e -> e = EsgfSearchException)
         indices ->
  foldM (add_index ids) merged indices
  = foldM add_info merged (entries indices ids).
Proof.
  induction indices as [|ind indices IH]; intros merged Hok; [done|].
  apply Forall_cons in Hok as [Hind Hok].
  change (entries (ind :: indices) ids)
    with (match ind ids with Ok infos => infos | Raise _ => [] end
          ++ entries indices ids).
  rewrite foldM_app. cbn [foldM].
  assert (H : add_index ids merged ind
              = foldM add_info merged
                      match ind ids with Ok infos => infos | Raise _ => [] end).
  { unfold add_index. destruct (ind ids) as [infos|e]; [done|].
    by rewrite (Hind e eq_refl). }
  rewrite H. destruct (foldM add_info merged _); cbn; [by apply IH|done].
Qed.

(** *** What the merged record holds *)

Lemma foldl_merge_opt (es : list Info) : forall m0 : Info,
  foldl merge_opt (Some m0) es = Some (foldl merge_maps m0 es).
Proof. induction es as [|e es IH]; intros m0; cbn; [done|]. apply IH. Qed.

Lemma typed_foldl (es : list Info) : forall m0 : Info,
  typed m0 -> Forall typed es -> typed (foldl merge_maps m0 es).
Proof.
  induction es as [|e es IH]; intros m0 Hm Hes; cbn; [done|].
  apply Forall_cons in Hes as [He Hes]. apply IH; [|done]. by apply typed_merge.
Qed.

Lemma links_merge protocol (m e : Info) :
  typed m -> typed e -> protocol ∉ SCALARS ->
  links protocol (merge_maps m e) = links protocol m ++ links protocol e.
Proof.
  intros Hm He Hk. unfold links. rewrite lookup_union_with.
  assert (Hl : forall (x : Info) v, typed x -> x !! protocol = Some v ->
                 exists l, v = VList l).
  { intros x v Hx Hv. apply Hx in Hv. cbn in Hv.
    rewrite bool_decide_eq_false_2 in Hv by done. destruct v; try discriminate.
    eauto. }
  destruct (m !! protocol) as [a|] eqn:Em, (e !! protocol) as [b|] eqn:Ee; cbn.
  - destruct (Hl m a Hm Em) as [la ->], (Hl e b He Ee) as [lb ->]. done.
  - destruct (Hl m a Hm Em) as [la ->]. by rewrite app_nil_r.
  - destruct (Hl e b He Ee) as [lb ->]. done.
  - done.
Qed.

Lemma links_foldl protocol (es : list Info) : forall m0 : Info,
  typed m0 -> Forall typed es -> protocol ∉ SCALARS ->
  links protocol (foldl merge_maps m0 es)
  = links protocol m0 ++ concat (map (links protocol) es).
Proof.
  induction es as [|e es IH]; intros m0 Hm Hes Hk; cbn.
  - by rewrite app_nil_r.
  - apply Forall_cons in Hes as [He Hes].
    rewrite IH; [|by apply typed_merge|done|done].
    by rewrite links_merge, <- app_assoc.
Qed.

Lemma scalar_merge key (m e : Info) :
  typed m -> key ∈ SCALARS -> is_Some (m !! key) ->
  merge_maps m e !! key = m !! key.
Proof.
  intros Hm Hk [v Hv]. rewrite lookup_union_with, Hv.
  apply Hm in Hv. cbn in Hv. rewrite bool_decide_eq_true_2 in Hv by done.
  destruct (e !! key) as [new|]; cbn; [|done]. by destruct v.
Qed.

Lemma scalar_foldl key (es : list Info) : forall m0 : Info,
  typed m0 -> Forall typed es -> key ∈ SCALARS -> is_Some (m0 !! key) ->
  foldl merge_maps m0 es !! key = m0 !! key.
Proof.
  induction es as [|e es IH]; intros m0 Hm Hes Hk Hv; cbn; [done|].
  apply Forall_cons in Hes as [He Hes].
  rewrite IH; [by apply scalar_merge|by apply typed_merge|done|done|].
  by rewrite scalar_merge.
Qed.

Lemma length_concat_links protocol (es : list Info) :
  length (concat (map (links protocol) es))
  = sum_list (map (fun e => length (links protocol e)) es).
Proof.
  induction es as [|e es IH]; cbn; [done|]. by rewrite length_app, IH.
Qed.

(** *** One record per path *)

Lemma well_formed_cons p m (merged : Merged) :
  well_formed ((p, m) :: merged) ->
  well_formed merged /\ (p ∉ merged.*1) /\ m !! "path" = Some p.
Proof.
  intros [Hnd Hwf]. cbn in Hnd. apply NoDup_cons in Hnd as [Hp Hnd].
  split; [split; [done|]|split; [done|]].
  - intros q x Hq. apply Hwf. cbn. destruct (decide (p = q)) as [<-|?]; [|done].
    apply lookup_path_None in Hp. congruence.
  - apply (Hwf p m). cbn. by rewrite decide_True.
Qed.

Lemma no_record_for_absent_path p (merged : Merged) :
  well_formed merged -> p ∉ merged.*1 ->
  filter (fun m : Info => m !! "path" = Some p) (merged.*2) = [].
Proof.
  induction merged as [|[q m] merged IH]; intros Hwf Hp; [done|].
  apply well_formed_cons in Hwf as (Hwf & Hq & Hm).
  cbn in Hp. apply not_elem_of_cons in Hp as [Hne Hp]. rewrite fmap_cons.
  rewrite filter_cons_False; [by apply IH|]. cbn. rewrite Hm. by intros [= ->].
Qed.

Lemma one_record_per_path p mp (merged : Merged) :
  well_formed merged -> lookup_path p merged = Some mp ->
  filter (fun m : Info => m !! "path" = Some p) (merged.*2) = [mp].
Proof.
  induction merged as [|[q m] merged IH]; intros Hwf Hl; [done|].
  apply well_formed_cons in Hwf as (Hwf & Hq & Hm). cbn in Hl.
  rewrite fmap_cons. cbn [snd].
  destruct (decide (q = p)) as [->|Hne].
  - injection Hl as <-. rewrite filter_cons_True by done.
    by rewrite no_record_for_absent_path.
  - rewrite filter_cons_False; [by apply IH|]. rewrite Hm. by intros [= ->].
Qed.

(** C7. The records of the answering sources that carry one path merge into
    exactly one record of the output; for every protocol its list of links
    is the concatenation of the lists the records contribute, so its length
    is the sum of their lengths, and every scalar field (checksum, checksum
    type, size, path) is that of the first record. *)
Theorem same_path_records_merge_into_one (indices : list Index)
    (dataset_ids : list string) (path : value) (first : Info) (rest : list Info) :
  Forall (fun ind : Index =>
            forall e, ind dataset_ids = Raise e -> e = EsgfSearchException) indices ->
  Forall file_record (entries indices dataset_ids) ->
  filter (fun e : Info => e !! "path" = Some path) (entries indices dataset_ids)
  = first :: rest ->
  exists out merged,
    combine_file_info indices dataset_ids = Ok out
    /\ filter (fun m : Info => m !! "path" = Some path) out = [merged]
    /\ (forall protocol, protocol ∉ SCALARS ->
          links protocol merged = concat (map (links protocol) (first :: rest))
          /\ length (links protocol merged)
             = sum_list (map (fun e => length (links protocol e)) (first :: rest)))
    /\ (forall key, key ∈ SCALARS -> merged !! key = first !! key).
Proof.
  intros Hsrc Hrec Hsame.
  assert (Hwf0 : well_formed []).
  { split; [constructor|]. by intros q m [=]. }
  destruct (add_infos_spec _ [] Hwf0 Hrec) as (merged & Hrun & Hwf & Hl).
  assert (Hin : Forall file_record (first :: rest)).
  { rewrite <- Hsame. apply Forall_forall. intros e He.
    apply list_elem_of_filter in He as [_ He].
    by eapply Forall_forall in Hrec. }
  apply Forall_cons in Hin as [[Hf Hfs] Hrest].
  assert (Hrest' : Forall typed rest).
  { eapply Forall_impl; [exact Hrest|]. by intros e [He _]. }
  exists (merged.*2), (foldl merge_maps first rest).
  specialize (Hl path). rewrite Hsame in Hl. cbn in Hl.
  unfold merge_opt at 2 in Hl. cbn in Hl.
  rewrite merge_maps_empty_l, foldl_merge_opt in Hl.
  split; [|split; [|split]].
  - unfold combine_file_info. rewrite add_indices_spec by done. by rewrite Hrun.
  - by apply one_record_per_path.
  - intros protocol Hk.
    assert (E : links protocol (foldl merge_maps first rest)
                = concat (map (links protocol) (first :: rest))).
    { by rewrite links_foldl. }
    split; [exact E|]. by rewrite E, length_concat_links.
  - intros key Hk. apply scalar_foldl; [done..|].
    by eapply Forall_forall in Hfs.
Qed.

(** C8, as it stands, fails on a source that cannot be reached: the
    connection error aborts the merge although the other source answers. *)
Lemma unreachable_source_aborts_merge :
  combine_file_info [Fixtures.index_unreachable; Fixtures.index_a] []
  = Raise ConnectionError
  /\ combine_file_info [Fixtures.index_a] [] = Ok [Fixtures.tas_at_a].
Proof. split; vm_compute; reflexivity. Qed.

Lemma same_path_records_merge_into_one_witness :
  let indices := [ Fixtures.index_a; Fixtures.index_protocol_error;
                   Fixtures.index_b ] in
  let path := VPath (Pathlib.of_string "CMIP6/tas.nc") in
  let first := Fixtures.tas_at_a in
  let rest := [Fixtures.tas_at_b] in
  exists out merged,
    combine_file_info indices [] = Ok out
    /\ filter (fun m : Info => m !! "path" = Some path) out = [merged]
    /\ (forall protocol, protocol ∉ SCALARS ->
          links protocol merged = concat (map (links protocol) (first :: rest))
          /\ length (links protocol merged)
             = sum_list (map (fun e => length (links protocol e)) (first :: rest)))
    /\ (forall key, key ∈ SCALARS -> merged !! key = first !! key).
Proof.
  cbv zeta.
  apply (same_path_records_merge_into_one
           [ Fixtures.index_a; Fixtures.index_protocol_error; Fixtures.index_b ]
           [] (VPath (Pathlib.of_string "CMIP6/tas.nc"))
           Fixtures.tas_at_a [Fixtures.tas_at_b]).
  - repeat constructor; intros e [=]; done.
  - apply (bool_decide_unpack _). vm_compute. exact I.
  - vm_compute. reflexivity.
Defined.

(** C8, amended.  A source whose [get_file_info] raises the exception of
    the search protocol, [EsgfSearchException], is skipped: the outcome is
    that of the same call without the source, and that of the same call
    with a source that has no records in its place. *)
Theorem protocol_error_source_is_skipped (before after : list Index)
    (failing : Index) (dataset_ids : list string) :
  failing dataset_ids = Raise EsgfSearchException ->
  combine_file_info (before ++ failing :: after) dataset_ids
  = combine_file_info (before ++ after) dataset_ids
  /\ combine_file_info (before ++ failing :: after) dataset_ids
     = combine_file_info (before ++ (fun _ => Ok []) :: after) dataset_ids.
Proof.
  intros H. unfold combine_file_info. rewrite !foldM_app. cbn [foldM].
  assert (E : forall merged : Merged,
            add_index dataset_ids merged failing = Ok merged).
  { intros merged. unfold add_index. by rewrite H. }
  destruct (foldM (add_index dataset_ids) [] before) as [merged|e]; [|done].
  cbn. by rewrite E.
Qed.

Lemma protocol_error_source_is_skipped_witness :
  combine_file_info
    ([Fixtures.index_a] ++ Fixtures.index_protocol_error :: [Fixtures.index_b]) []
  = combine_file_info ([Fixtures.index_a] ++ [Fixtures.index_b]) []
  /\ combine_file_info
       ([Fixtures.index_a] ++ Fixtures.index_protocol_error :: [Fixtures.index_b]) []
     = combine_file_info
         ([Fixtures.index_a] ++ (fun _ => Ok []) :: [Fixtures.index_b]) [].
Proof.
  apply (protocol_error_source_is_skipped
           [Fixtures.index_a] [Fixtures.index_b] Fixtures.index_protocol_error []).
  reflexivity.
Defined.

End MergerFacts.

(** ** Result reconciler *)

Module ReconcilerFacts.
Import Pandas Reconciler.

(** *** Lists of labelled rows *)

Lemma omap_omap {A B C} (f : A -> option B) (g : B -> option C) (l : list A) :
  omap g (omap f l) = omap (fun x => f x ≫= g) l.
Proof.
  induction l as [|x l IH]; [done|]. cbn.
  destruct (f x) as [y|]; cbn; [|done]. destruct (g y); by rewrite IH.
Qed.

Lemma omap_Some_id {A} (l : list A) : omap Some l = l.
Proof. induction l as [|x l IH]; [done|]. cbn. by rewrite IH. Qed.

Lemma omap_ext_in {A B} (f g : A -> option B) (l : list A) :
  (forall x, x ∈ l -> f x = g x) -> omap f l = omap g l.
Proof.
  induction l as [|x l IH]; intros H; [done|]. cbn.
  rewrite (H x) by left. destruct (g x); rewrite IH; try done;
    intros y Hy; apply H; by right.
Qed.

Lemma omap_labels_in (f : row -> option row) (rs : list row) x :
  (forall r r', f r = Some r' -> r'.1 = r.1) ->
  x ∈ (omap f rs).*1 -> x ∈ rs.*1.
Proof.
  intros Hf Hx. apply list_elem_of_fmap in Hx as (r' & -> & Hr').
  apply list_elem_of_omap in Hr' as (r & Hr & E).
  rewrite (Hf r r' E). by apply list_elem_of_fmap_2.
Qed.

Lemma omap_labels_NoDup (f : row -> option row) (rs : list row) :
  (forall r r', f r = Some r' -> r'.1 = r.1) ->
  NoDup rs.*1 -> NoDup (omap f rs).*1.
Proof.
  intros Hf. induction rs as [|r rs IH]; intros Hnd; [done|].
  rewrite fmap_cons in Hnd. apply NoDup_cons in Hnd as [Hr Hnd]. cbn.
  destruct (f r) as [r'|] eqn:E; [|by apply IH].
  rewrite fmap_cons. apply NoDup_cons. split; [|by apply IH].
  rewrite (Hf r r' E). intros Hin. apply Hr. by eapply omap_labels_in.
Qed.

Lemma filter_labels_NoDup (P : row -> Prop) `{forall r, Decision (P r)}
    (rs : list row) :
  NoDup rs.*1 -> NoDup (filter P rs).*1.
Proof.
  induction rs as [|r rs IH]; intros Hnd; [done|].
  rewrite fmap_cons in Hnd. apply NoDup_cons in Hnd as [Hr Hnd].
  rewrite filter_cons. destruct (decide (P r)); [|by apply IH].
  rewrite fmap_cons. apply NoDup_cons. split; [|by apply IH].
  intros Hin. apply Hr. apply list_elem_of_fmap in Hin as (r' & -> & Hr').
  apply list_elem_of_filter in Hr' as [_ Hr']. by apply list_elem_of_fmap_2.
Qed.

Lemma same_label_same_row (rs : list row) (r r' : row) :
  NoDup rs.*1 -> r ∈ rs -> r' ∈ rs -> r.1 = r'.1 -> r = r'.
Proof.
  induction rs as [|x rs IH]; intros Hnd Hr Hr' E; [by apply elem_of_nil in Hr|].
  rewrite fmap_cons in Hnd. apply NoDup_cons in Hnd as [Hx Hnd].
  apply elem_of_cons in Hr as [->|Hr]; apply elem_of_cons in Hr' as [->|Hr'].
  - done.
  - exfalso. apply Hx. rewrite E. by apply list_elem_of_fmap_2.
  - exfalso. apply Hx. rewrite <- E. by apply list_elem_of_fmap_2.
  - by apply IH.
Qed.

Lemma filter_as_omap (P : row -> Prop) `{forall r, Decision (P r)}
    (f : row -> row) (rs : list row) :
  f <$> filter P rs
  = omap (fun r => if decide (P r) then Some (f r) else None) rs.
Proof.
  induction rs as [|r rs IH]; [done|]. rewrite filter_cons. cbn.
  destruct (decide (P r)); cbn; by rewrite IH.
Qed.

(** *** A loop over the groups of a frame

    Both loops of [combine_results] run over groups taken from the frame
    as it was before the loop, and every pass changes rows of its own group
    only.  A pass is described by what it does to one row; the loop then
    does to every row what the pass of the row's group does. *)

Section Loop.

Variable cols : list string.
Variable pass : group -> row -> option row.
Variable body : DataFrame -> group -> result DataFrame.
Variable good : group -> Prop.

Hypothesis pass_label : forall g r r', pass g r = Some r' -> r'.1 = r.1.
Hypothesis pass_other : forall g r, r.1 ∉ g.2.*1 -> pass g r = Some r.
Hypothesis body_pass : forall g rs,
  good g -> NoDup rs.*1 -> (forall x, x ∈ g.2.*1 -> x ∈ rs.*1) ->
  body (mkDF cols rs) g = Ok (mkDF cols (omap (pass g) rs)).

Lemma loop_passes (gs : list group) : forall rs,
  Forall good gs -> apart gs -> NoDup rs.*1 ->
  Forall (fun g => forall x, x ∈ g.2.*1 -> x ∈ rs.*1) gs ->
  foldM body (mkDF cols rs) gs = Ok (mkDF cols (omap (passes pass gs) rs)).
Proof.
  induction gs as [|g gs IH]; intros rs Hgood Hap Hnd Hin.
  - cbn. by rewrite omap_Some_id.
  - apply Forall_cons in Hgood as [Hg Hgood]. destruct Hap as [Hdis Hap].
    apply Forall_cons in Hin as [Hgin Hin].
    cbn [foldM]. rewrite (body_pass g rs Hg Hnd Hgin). cbn.
    rewrite IH; [|done|done|apply omap_labels_NoDup; [apply pass_label|done]|].
    + by rewrite omap_omap.
    + apply Forall_forall. intros g' Hg' x Hx.
      eapply Forall_forall in Hin; [|exact Hg'].
      eapply Forall_forall in Hdis; [|exact Hg'].
      specialize (Hin x Hx). apply list_elem_of_fmap in Hin as (r & -> & Hr).
      apply list_elem_of_fmap. exists r. split; [done|].
      apply list_elem_of_omap. exists r. split; [done|].
      apply pass_other. intros Hgx. by apply (Hdis _ Hgx).
Qed.

Lemma passes_outside (gs : list group) (r : row) :
  Forall (fun g => r.1 ∉ g.2.*1) gs -> passes pass gs r = Some r.
Proof.
  induction gs as [|g gs IH]; intros H; [done|].
  apply Forall_cons in H as [Hg H]. cbn. rewrite (pass_other g r Hg). cbn.
  by apply IH.
Qed.

Lemma passes_inside (gs : list group) (g : group) (r : row) :
  apart gs -> g ∈ gs -> r.1 ∈ g.2.*1 -> passes pass gs r = pass g r.
Proof.
  induction gs as [|h gs IH]; intros Hap Hg Hr; [by apply elem_of_nil in Hg|].
  destruct Hap as [Hdis Hap]. cbn.
  destruct (decide (r.1 ∈ h.2.*1)) as [Hh|Hh].
  - assert (Hrest : forall r', r'.1 = r.1 -> passes pass gs r' = Some r').
    { intros r' E. apply passes_outside. apply Forall_forall. intros g' Hg'.
      eapply Forall_forall in Hdis; [|exact Hg']. rewrite E. by apply Hdis. }
    apply elem_of_cons in Hg as [->|Hg].
    + destruct (pass h r) as [r'|] eqn:E; cbn; [|done].
      apply Hrest. by eapply pass_label.
    + exfalso. eapply Forall_forall in Hdis; [|exact Hg]. by apply (Hdis _ Hh).
  - rewrite (pass_other h r Hh). cbn.
    apply elem_of_cons in Hg as [->|Hg]; [done|]. by apply IH.
Qed.

End Loop.

(** *** The order of strings *)

Lemma compare_refl s : String.compare s s = Eq.
Proof.
  pose proof (String.compare_antisym s s) as H.
  destruct (String.compare s s); done.
Qed.

Lemma compare_lt_trans a : forall b c,
  String.compare a b = Lt -> String.compare b c = Lt -> String.compare a c = Lt.
Proof.
  induction a as [|x a IH]; intros [|y b] [|z c]; cbn; try done.
  unfold Ascii.compare.
  destruct (N.compare_spec (N_of_ascii x) (N_of_ascii y)) as [E1|E1|E1];
    destruct (N.compare_spec (N_of_ascii y) (N_of_ascii z)) as [E2|E2|E2];
    try done;
    destruct (N.compare_spec (N_of_ascii x) (N_of_ascii z)) as [E3|E3|E3];
    try done; try lia.
  apply IH.
Qed.

Lemma ltb_irrefl s : String.ltb s s = false.
Proof. unfold String.ltb. by rewrite compare_refl. Qed.

Lemma ltb_trans a b c :
  String.ltb a b = true -> String.ltb b c = true -> String.ltb a c = true.
Proof.
  unfold String.ltb. intros H1 H2.
  destruct (String.compare a b) eqn:E1; try discriminate.
  destruct (String.compare b c) eqn:E2; try discriminate.
  by rewrite (compare_lt_trans a b c E1 E2).
Qed.

(** what is not below [b] and not above it is [b] *)
Lemma ltb_total a b :
  String.ltb a b = false -> String.ltb b a = false -> a = b.
Proof.
  unfold String.ltb. rewrite (String.compare_antisym b a).
  destruct (String.compare a b) eqn:E; cbn; try done.
  intros _ _. by apply String.compare_eq_iff.
Qed.

Lemma foldl_str_max_in l : forall acc, foldl str_max acc l ∈ acc :: l.
Proof.
  induction l as [|z l IH]; intros acc; cbn; [by left|].
  specialize (IH (str_max acc z)). apply elem_of_cons in IH as [->|IH].
  - unfold str_max. destruct (String.ltb acc z); [right; left|left].
  - right. by right.
Qed.

Lemma foldl_str_max_upper l : forall acc y,
  y ∈ acc :: l -> String.ltb (foldl str_max acc l) y = false.
Proof.
  induction l as [|z l IH]; intros acc y Hy; cbn.
  - apply list_elem_of_singleton in Hy as ->. apply ltb_irrefl.
  - set (m := foldl str_max (str_max acc z) l).
    assert (Hm : String.ltb m (str_max acc z) = false) by (apply IH; left).
    assert (Hacc : String.ltb m acc = false).
    { unfold str_max in Hm. destruct (String.ltb acc z) eqn:E; [|done].
      destruct (String.ltb m acc) eqn:E'; [|done].
      by rewrite (ltb_trans m acc z E' E) in Hm. }
    assert (Hz : String.ltb m z = false).
    { unfold str_max in Hm. destruct (String.ltb acc z) eqn:E; [done|].
      destruct (String.ltb m z) eqn:E'; [|done].
      destruct (String.ltb z acc) eqn:E''.
      - by rewrite (ltb_trans m z acc E' E'') in Hacc.
      - rewrite (ltb_total acc z E E'') in Hacc. congruence. }
    apply elem_of_cons in Hy as [->|Hy]; [done|].
    apply elem_of_cons in Hy as [->|Hy]; [done|].
    apply IH. by right.
Qed.

Lemma series_max_in l m : series_max l = Some m -> m ∈ l.
Proof. destruct l as [|x l]; [done|]. intros [= <-]. apply foldl_str_max_in. Qed.

Lemma series_max_upper l m y :
  series_max l = Some m -> y ∈ l -> String.ltb m y = false.
Proof.
  destruct l as [|x l]; [done|]. intros [= <-]. apply foldl_str_max_upper.
Qed.

Lemma series_max_Some l : l <> [] -> is_Some (series_max l).
Proof. destruct l; [done|]. by eexists. Qed.

(** *** Rows of twelve strings *)

Ltac open_row r H :=
  destruct r as [? cells]; destruct H as [Hlen Hstr]; cbn [fst snd] in *;
  do 13 (destruct cells as [|? cells]; try discriminate Hlen);
  cbn [forallb] in Hstr;
  repeat (let Hc := fresh "Hc" in apply andb_prop in Hstr as [Hc Hstr]);
  repeat match goal with
         | Hc : is_str ?c = true |- _ =>
             destruct c; [clear Hc|discriminate Hc|discriminate Hc]
         end.

Lemma reindex_search_row (r : row) :
  length r.2 = 12 -> reindex SEARCH_COLUMNS SEARCH_COLUMNS r = r.
Proof.
  destruct r as [l cells]. cbn [snd]. intros Hlen.
  do 13 (destruct cells as [|? cells]; try discriminate Hlen). reflexivity.
Qed.

Lemma search_row_id (r : row) :
  search_row r -> cell_at 11 r = CStr (id_of r.2).
Proof. intros H. open_row r H. reflexivity. Qed.

Lemma search_row_version (r : row) :
  search_row r -> cell_at 9 r = CStr (version r.2).
Proof. intros H. open_row r H. reflexivity. Qed.

Lemma search_row_key (r : row) :
  search_row r ->
  row_key [0; 1; 2; 3; 4; 5; 6; 7; 8] r = Ok (Some (facets r.2)).
Proof. intros H. open_row r H. reflexivity. Qed.

Lemma search_row_label (r : row) i : search_row r -> search_row (i, r.2).
Proof. done. Qed.

Lemma column_strings_search i (f : row -> string) (rs : list row) :
  Forall (fun r => cell_at i r = CStr (f r)) rs ->
  column_strings i rs = Ok (f <$> rs).
Proof.
  induction rs as [|r rs IH]; intros H; [done|].
  apply Forall_cons in H as [Hr H]. cbn. rewrite Hr, (IH H). done.
Qed.

(** *** Concatenation, duplicates, labels *)

Lemma add_new_search_columns (dfs : list DataFrame) :
  Forall search_frame dfs ->
  foldl add_new SEARCH_COLUMNS (columns <$> dfs) = SEARCH_COLUMNS.
Proof.
  induction dfs as [|df dfs IH]; intros H; [done|].
  apply Forall_cons in H as [[Hc _] H]. cbn [fmap list_fmap foldl].
  rewrite Hc. change (add_new SEARCH_COLUMNS SEARCH_COLUMNS) with SEARCH_COLUMNS.
  by apply IH.
Qed.

Lemma concat_search (dfs : list DataFrame) :
  dfs <> [] -> Forall search_frame dfs ->
  concat dfs = mkDF SEARCH_COLUMNS (dfs ≫= rows).
Proof.
  intros Hne H. unfold concat.
  assert (Hc : foldl add_new [] (columns <$> dfs) = SEARCH_COLUMNS).
  { destruct dfs as [|df dfs]; [done|].
    pose proof H as H'. apply Forall_cons in H' as [[Hc _] H'].
    cbn [fmap list_fmap foldl]. rewrite Hc.
    change (add_new [] SEARCH_COLUMNS) with SEARCH_COLUMNS.
    by apply add_new_search_columns. }
  rewrite Hc. f_equal. clear Hne Hc.
  induction dfs as [|df dfs IH]; [done|].
  apply Forall_cons in H as [[Hc Hrows] H]. rewrite !bind_cons, (IH H). f_equal.
  rewrite Hc. clear -Hrows. induction (rows df) as [|r rs IHr]; [done|].
  apply Forall_cons in Hrows as [[Hlen _] Hrows]. rewrite fmap_cons.
  by rewrite reindex_search_row, IHr.
Qed.

Lemma keep_first_in i (rs : list row) : forall seen r,
  r ∈ keep_first i seen rs -> r ∈ rs /\ cell_at i r ∉ seen.
Proof.
  induction rs as [|x rs IH]; intros seen r Hr; [by apply elem_of_nil in Hr|].
  cbn in Hr. destruct (bool_decide (cell_at i x ∈ seen)) eqn:E.
  - destruct (IH _ _ Hr). split; [by right|done].
  - apply bool_decide_eq_false in E.
    apply elem_of_cons in Hr as [->|Hr]; [split; [by left|done]|].
    destruct (IH _ _ Hr) as [? Hn]. split; [by right|].
    intros ?. apply Hn. by right.
Qed.

Lemma keep_first_cover i (rs : list row) : forall seen r,
  r ∈ rs ->
  cell_at i r ∈ seen
  \/ exists r', r' ∈ keep_first i seen rs /\ cell_at i r' = cell_at i r.
Proof.
  induction rs as [|x rs IH]; intros seen r Hr; [by apply elem_of_nil in Hr|].
  cbn. destruct (bool_decide (cell_at i x ∈ seen)) eqn:E.
  - apply bool_decide_eq_true in E.
    apply elem_of_cons in Hr as [->|Hr]; [by left|]. by apply IH.
  - apply elem_of_cons in Hr as [->|Hr].
    + right. exists x. split; [by left|done].
    + destruct (IH (cell_at i x :: seen) r Hr) as [Hs|(r' & Hr' & E')].
      * apply elem_of_cons in Hs as [Hs|Hs]; [|by left].
        right. exists x. split; [by left|done].
      * right. exists r'. split; [by right|done].
Qed.

Lemma keep_first_NoDup i (rs : list row) : forall seen,
  NoDup (cell_at i <$> keep_first i seen rs).
Proof.
  induction rs as [|x rs IH]; intros seen; [constructor|].
  cbn. destruct (bool_decide (cell_at i x ∈ seen)); [apply IH|].
  rewrite fmap_cons. apply NoDup_cons. split; [|apply IH].
  intros Hin. apply list_elem_of_fmap in Hin as (r & E & Hr).
  apply keep_first_in in Hr as [_ Hn]. apply Hn. rewrite <- E. by left.
Qed.

Lemma drop_duplicates_search (rs : list row) :
  Forall search_row rs ->
  drop_duplicates "id" (mkDF SEARCH_COLUMNS rs)
  = Ok (mkDF SEARCH_COLUMNS (keep_first 11 [] rs)).
Proof.
  intros H. unfold drop_duplicates. cbn [columns rows SEARCH_COLUMNS app Parser.COLUMNS].
  destruct rs as [|r rs]; [done|].
  change (col_pos _ "id") with (Some 11). cbv beta iota.
  assert (E : existsb (fun r0 => is_list (cell_at 11 r0)) (r :: rs) = false).
  { apply not_true_is_false. intros Hex. apply existsb_exists in Hex as (x & Hx & Hl).
    apply list_elem_of_In in Hx. eapply Forall_forall in H; [|exact Hx].
    by rewrite (search_row_id x H) in Hl. }
  by rewrite E.
Qed.

Lemma imap_labels {A} (f : A -> list cell) (l : list A) : forall n,
  (imap (fun i x => (n + i, f x)) l).*1 = seq n (length l).
Proof.
  induction l as [|x l IH]; intros n; [done|].
  rewrite imap_cons, fmap_cons. cbn [fst length seq]. f_equal; [lia|].
  rewrite <- (IH (S n)). f_equal. apply imap_ext. intros i y _. cbn. f_equal. lia.
Qed.

Lemma imap_cells {A} (f : A -> list cell) (l : list A) : forall n,
  (imap (fun i x => (n + i, f x)) l).*2 = f <$> l.
Proof.
  induction l as [|x l IH]; intros n; [done|].
  rewrite imap_cons, !fmap_cons. cbn [snd]. f_equal.
  rewrite <- (IH (S n)). f_equal. apply imap_ext. intros i y _. cbn. f_equal. lia.
Qed.

Lemma reset_index_labels (df : DataFrame) :
  (rows (reset_index df)).*1 = seq 0 (length (rows df)).
Proof. exact (imap_labels (fun r : row => r.2) (rows df) 0). Qed.

Lemma reset_index_NoDup (df : DataFrame) : NoDup (rows (reset_index df)).*1.
Proof. rewrite reset_index_labels. apply NoDup_seq. Qed.

Lemma reset_index_cells (df : DataFrame) :
  (rows (reset_index df)).*2 = (rows df).*2.
Proof. exact (imap_cells (fun r : row => r.2) (rows df) 0). Qed.

Lemma search_rows_cells (rs rs' : list row) :
  rs.*2 = rs'.*2 -> Forall search_row rs' -> Forall search_row rs.
Proof.
  intros E H. apply Forall_forall. intros r Hr.
  assert (Hc : r.2 ∈ rs'.*2) by (rewrite <- E; by apply list_elem_of_fmap_2).
  apply list_elem_of_fmap in Hc as (r' & Hc & Hr').
  eapply Forall_forall in H; [|exact Hr']. unfold search_row. by rewrite Hc.
Qed.


(** *** Grouping *)

Lemma insert_sorted_perm k ks : insert_sorted k ks ≡ₚ k :: ks.
Proof.
  induction ks as [|h ks IH]; cbn; [done|].
  destruct (tuple_leb k h); [done|]. rewrite IH. apply Permutation_swap.
Qed.

Lemma sort_keys_perm ks : sort_keys ks ≡ₚ ks.
Proof.
  induction ks as [|k ks IH]; cbn; [done|].
  rewrite insert_sorted_perm. by rewrite IH.
Qed.

Lemma mapM_Ok {A B} (f : A -> result B) (g : A -> B) (l : list A) :
  Forall (fun x => f x = Ok (g x)) l -> mapM f l = Ok (g <$> l).
Proof.
  induction l as [|x l IH]; intros H; [done|].
  apply Forall_cons in H as [Hx H]. cbn. rewrite Hx. cbn. rewrite (IH H). done.
Qed.

Lemma rows_of_key_zip (key : row -> list string) k (rs : list row) :
  rows_of_key k (zip ((fun r => Some (key r)) <$> rs) rs)
  = filter (fun r => key r = k) rs.
Proof.
  unfold rows_of_key. induction rs as [|r rs IH]; [done|].
  rewrite fmap_cons. cbn [zip zip_with]. rewrite !filter_cons. cbn [fst].
  destruct (decide (key r = k)) as [E|E].
  - rewrite decide_True by congruence. rewrite fmap_cons. cbn [snd]. by rewrite IH.
  - rewrite decide_False; [done|]. by intros [= ?].
Qed.

Lemma omap_id_Some {A B} (f : A -> B) (l : list A) :
  omap id ((fun x => Some (f x)) <$> l) = f <$> l.
Proof. induction l as [|x l IH]; [done|]. cbn. by rewrite IH. Qed.

Lemma groupby_search (rs : list row) :
  Forall search_row rs ->
  groupby (mkDF SEARCH_COLUMNS rs) (all_but_last 3 SEARCH_COLUMNS)
  = Ok (groups_of rs).
Proof.
  intros H. unfold groupby.
  change (all_but_last 3 SEARCH_COLUMNS) with (take 9 SEARCH_COLUMNS).
  cbn [take SEARCH_COLUMNS Parser.COLUMNS app columns rows].
  change (positions_of _ _) with (Ok (A:=list nat) [0; 1; 2; 3; 4; 5; 6; 7; 8]).
  cbn [mbind result_bind].
  rewrite (mapM_Ok _ (fun r : row => Some (facets r.2))).
  - cbn [mbind result_bind]. unfold groups_of. f_equal.
    rewrite omap_id_Some. apply list_fmap_ext. intros _ k _. f_equal.
    apply (rows_of_key_zip (fun r : row => facets r.2)).
  - eapply Forall_impl; [exact H|]. intros r Hr. by apply search_row_key.
Qed.


Section Groups.

Variable rs : list row.
Hypothesis rs_rows : Forall search_row rs.
Hypothesis rs_labels : NoDup rs.*1.

Lemma groups_of_elem g :
  g ∈ groups_of rs <->
  (exists r, r ∈ rs /\ facets r.2 = g.1)
  /\ g.2 = filter (fun r : row => facets r.2 = g.1) rs.
Proof.
  unfold groups_of. rewrite list_elem_of_fmap. split.
  - intros (k & -> & Hk). rewrite sort_keys_perm in Hk.
    apply elem_of_remove_dups, list_elem_of_fmap in Hk as (r & -> & Hr).
    split; [by exists r|done].
  - intros [(r & Hr & E) Hg]. exists g.1. split.
    + destruct g as [k grp]. cbn in *. by rewrite Hg.
    + rewrite sort_keys_perm. apply elem_of_remove_dups.
      rewrite <- E. by apply (list_elem_of_fmap_2 (fun r : row => facets r.2)).
Qed.

Lemma group_of_elem r : r ∈ rs -> (facets r.2, group_of rs r) ∈ groups_of rs.
Proof. intros Hr. apply groups_of_elem. split; [by exists r|done]. Qed.

Lemma in_own_group r : r ∈ rs -> r ∈ group_of rs r.
Proof. intros Hr. by apply list_elem_of_filter. Qed.

Lemma groups_of_good : Forall search_group (groups_of rs).
Proof.
  apply Forall_forall. intros g Hg.
  apply groups_of_elem in Hg as [(r & Hr & E) Hg]. unfold search_group. rewrite Hg.
  repeat split.
  - intros Hnil. eapply (filter_nil_not_elem_of _ _ r); [exact Hnil|exact E|done].
  - apply Forall_forall. intros x Hx. apply list_elem_of_filter in Hx as [_ Hx].
    by eapply Forall_forall in rs_rows.
  - by apply filter_labels_NoDup.
Qed.

Lemma groups_of_labels :
  Forall (fun g : group => forall x, x ∈ g.2.*1 -> x ∈ rs.*1) (groups_of rs).
Proof.
  apply Forall_forall. intros g Hg x Hx.
  apply groups_of_elem in Hg as [_ Hg]. rewrite Hg in Hx.
  apply list_elem_of_fmap in Hx as (r & -> & Hr).
  apply list_elem_of_filter in Hr as [_ Hr]. by apply list_elem_of_fmap_2.
Qed.

Lemma apart_by_key (ks : list (list string)) :
  NoDup ks ->
  apart ((fun k => (k, filter (fun r : row => facets r.2 = k) rs)) <$> ks).
Proof.
  induction ks as [|k ks IH]; intros Hnd; [done|].
  apply NoDup_cons in Hnd as [Hk Hnd]. rewrite fmap_cons. split; [|by apply IH].
  apply Forall_forall. intros g Hg x Hx Hx'.
  apply list_elem_of_fmap in Hg as (k' & -> & Hk'). cbn [snd] in *.
  apply list_elem_of_fmap in Hx as (r & -> & Hr).
  apply list_elem_of_fmap in Hx' as (r' & E & Hr').
  apply list_elem_of_filter in Hr as [Er Hr].
  apply list_elem_of_filter in Hr' as [Er' Hr'].
  rewrite (same_label_same_row rs r r' rs_labels Hr Hr' E) in Er.
  congruence.
Qed.

Lemma groups_of_apart : apart (groups_of rs).
Proof.
  unfold groups_of. apply apart_by_key.
  rewrite sort_keys_perm. apply NoDup_remove_dups.
Qed.

End Groups.

(** *** The two passes *)

Lemma filter_not_as_omap (P : row -> Prop) `{forall r, Decision (P r)}
    (f : row -> row) (rs : list row) :
  f <$> filter (fun r => ~ P r) rs
  = omap (fun r => if decide (P r) then None else Some (f r)) rs.
Proof.
  induction rs as [|r rs IH]; [done|]. rewrite filter_cons. cbn.
  destruct (decide (P r)); [rewrite decide_False by tauto|rewrite decide_True by done];
    cbn; by rewrite IH.
Qed.

Lemma drop_index_present lbls (rs : list row) cols :
  (forall x, x ∈ lbls -> x ∈ rs.*1) ->
  drop_index lbls (mkDF cols rs)
  = Ok (mkDF cols (filter (fun r : row => r.1 ∉ lbls) rs)).
Proof.
  intros H. unfold drop_index. cbn [rows columns].
  rewrite (proj2 (forallb_forall _ _)); [done|].
  intros x Hx. apply bool_decide_eq_true. apply H. by apply list_elem_of_In.
Qed.

Lemma pass_drop_earlier_label g r r' :
  pass_drop_earlier g r = Some r' -> r'.1 = r.1.
Proof. unfold pass_drop_earlier. destruct (decide _); [done|]. by intros [= <-]. Qed.

Lemma pass_drop_earlier_other (g : group) (r : row) :
  r.1 ∉ g.2.*1 -> pass_drop_earlier g r = Some r.
Proof.
  intros Hr. unfold pass_drop_earlier. rewrite decide_False; [done|].
  intros Hin. apply Hr. apply list_elem_of_fmap in Hin as (x & -> & Hx).
  apply list_elem_of_filter in Hx as [_ Hx]. by apply list_elem_of_fmap_2.
Qed.

Lemma latest_max (rs : list row) :
  rs <> [] ->
  series_max ((fun r : row => version r.2) <$> rs) = Some (latest rs).
Proof.
  intros Hne. unfold latest.
  destruct (series_max_Some ((fun r : row => version r.2) <$> rs)) as [m ->];
    [|done].
  by destruct rs.
Qed.

Lemma drop_earlier_pass (g : group) (rs : list row) :
  search_group g -> NoDup rs.*1 -> (forall x, x ∈ g.2.*1 -> x ∈ rs.*1) ->
  drop_earlier SEARCH_COLUMNS (mkDF SEARCH_COLUMNS rs) g
  = Ok (mkDF SEARCH_COLUMNS (omap (pass_drop_earlier g) rs)).
Proof.
  intros (Hne & Hrows & Hnd) _ Hin. unfold drop_earlier.
  change (getattr SEARCH_COLUMNS "version") with (Ok (A:=nat) 9).
  cbn [mbind result_bind].
  rewrite (column_strings_search 9 (fun r : row => version r.2)).
  2:{ eapply Forall_impl; [exact Hrows|]. intros r Hr. by apply search_row_version. }
  cbn [mbind result_bind]. rewrite (latest_max _ Hne).
  rewrite drop_index_present.
  - f_equal. f_equal. unfold labels, pass_drop_earlier.
    rewrite <- (list_fmap_id (filter _ rs)).
    apply (filter_not_as_omap
             (fun r : row => r.1 ∈ (filter (fun r' => cell_at 9 r' ≠ CStr (latest g.2)) g.2).*1)
             id).
  - intros x Hx. apply Hin. unfold labels in Hx.
    apply list_elem_of_fmap in Hx as (r & -> & Hr).
    apply list_elem_of_filter in Hr as [_ Hr]. by apply list_elem_of_fmap_2.
Qed.

Lemma pass_collect_ids_label g r r' :
  pass_collect_ids g r = Some r' -> r'.1 = r.1.
Proof.
  unfold pass_collect_ids. destruct (decide _); [done|].
  intros [= <-]. by destruct (decide _).
Qed.

Lemma pass_collect_ids_other (g : group) (r : row) :
  r.1 ∉ g.2.*1 -> pass_collect_ids g r = Some r.
Proof.
  intros Hr. unfold pass_collect_ids. rewrite decide_False.
  - rewrite decide_False; [done|]. intros E. apply Hr.
    destruct g.2 as [|r0 rest]; [done|]. rewrite fmap_cons in *. cbn in E.
    injection E as ->. by left.
  - intros Hin. apply Hr. destruct g.2 as [|r0 rest]; [done|].
    rewrite fmap_cons. by right.
Qed.

Lemma collect_ids_pass (g : group) (rs : list row) :
  search_group g -> NoDup rs.*1 -> (forall x, x ∈ g.2.*1 -> x ∈ rs.*1) ->
  collect_ids SEARCH_COLUMNS (mkDF SEARCH_COLUMNS rs) g
  = Ok (mkDF SEARCH_COLUMNS (omap (pass_collect_ids g) rs)).
Proof.
  intros (Hne & Hrows & Hnd) Hrs Hin. unfold collect_ids.
  rewrite drop_index_present.
  2:{ intros x Hx. apply Hin. unfold labels in Hx.
      destruct g.2 as [|r0 rest]; [done|]. rewrite fmap_cons. by right. }
  cbn [mbind result_bind]. unfold pass_collect_ids.
  destruct g as [k grp]. cbn [snd] in *. destruct grp as [|r0 rest]; [done|].
  unfold labels at 2. rewrite fmap_cons.
  change (getattr SEARCH_COLUMNS "id") with (Ok (A:=nat) 11).
  cbn [mbind result_bind].
  rewrite (column_strings_search 11 (fun r : row => id_of r.2)).
  2:{ eapply Forall_impl; [exact Hrows|]. intros r Hr. by apply search_row_id. }
  cbn [mbind result_bind]. f_equal.
  rewrite fmap_cons in Hnd. apply NoDup_cons in Hnd as [Hr0 Hnd].
  unfold loc_set. cbn [rows columns]. rewrite bool_decide_eq_true_2.
  - f_equal. unfold labels. cbn [drop head fmap list_fmap].
    rewrite (filter_not_as_omap (fun r : row => r.1 ∈ rest.*1)).
    apply omap_ext_in. intros r _. change (drop 0 rest) with rest.
    destruct (decide (r.1 ∈ rest.*1)); [done|].
    f_equal. destruct (decide (r.1 = r0.1)) as [E|E].
    + by rewrite decide_True by congruence.
    + rewrite decide_False; [done|]. by intros [= ?].
  - unfold labels. assert (H0 : r0.1 ∈ rs.*1) by (apply Hin; left).
    apply list_elem_of_fmap in H0 as (r & E & Hr).
    apply list_elem_of_fmap. exists r. split; [done|].
    apply list_elem_of_filter. split; [|done]. cbn [drop]. by rewrite <- E.
Qed.

(** *** The two loops *)


Section Loops.

Variable rs : list row.
Hypothesis rs_rows : Forall search_row rs.
Hypothesis rs_labels : NoDup rs.*1.

Lemma group_of_labels r : NoDup (group_of rs r).*1.
Proof. by apply filter_labels_NoDup. Qed.

Lemma passes_in_own_group pass r :
  (forall g r r', pass g r = Some r' -> r'.1 = r.1) ->
  (forall (g : group) r, r.1 ∉ g.2.*1 -> pass g r = Some r) ->
  r ∈ rs ->
  passes pass (groups_of rs) r = pass (facets r.2, group_of rs r) r.
Proof.
  intros Hl Ho Hr. apply passes_inside; [done|done| | |].
  - by apply groups_of_apart.
  - by apply group_of_elem.
  - cbn [snd]. apply list_elem_of_fmap_2. by apply in_own_group.
Qed.

Lemma first_loop :
  foldM (drop_earlier SEARCH_COLUMNS) (mkDF SEARCH_COLUMNS rs) (groups_of rs)
  = Ok (mkDF SEARCH_COLUMNS (survivors rs)).
Proof.
  rewrite (loop_passes SEARCH_COLUMNS pass_drop_earlier
             (drop_earlier SEARCH_COLUMNS) search_group
             pass_drop_earlier_label pass_drop_earlier_other drop_earlier_pass);
    [|by apply groups_of_good|by apply groups_of_apart|done
     |by apply groups_of_labels].
  f_equal. f_equal. unfold survivors.
  rewrite <- (list_fmap_id (filter _ rs)).
  rewrite (filter_as_omap (fun r : row => version r.2 = latest (group_of rs r)) id).
  apply omap_ext_in. intros r Hr.
  rewrite (passes_in_own_group _ r pass_drop_earlier_label
             pass_drop_earlier_other Hr).
  unfold pass_drop_earlier. cbn [snd].
  assert (Hrow : search_row r) by by eapply Forall_forall in rs_rows.
  destruct (decide (version r.2 = latest (group_of rs r))) as [E|E].
  - rewrite decide_False; [done|]. intros Hin.
    apply list_elem_of_fmap in Hin as (r' & El & Hr').
    apply list_elem_of_filter in Hr' as [Hv Hr'].
    assert (r = r') as <-.
    { eapply (same_label_same_row (group_of rs r)); [apply group_of_labels| |done..].
      by apply in_own_group. }
    apply Hv. by rewrite (search_row_version r Hrow), E.
  - rewrite decide_True; [done|]. apply list_elem_of_fmap_2.
    apply list_elem_of_filter. split; [|by apply in_own_group].
    rewrite (search_row_version r Hrow). by intros [= ?].
Qed.

Lemma second_loop :
  foldM (collect_ids SEARCH_COLUMNS) (mkDF SEARCH_COLUMNS rs) (groups_of rs)
  = Ok (mkDF SEARCH_COLUMNS (collected rs)).
Proof.
  rewrite (loop_passes SEARCH_COLUMNS pass_collect_ids
             (collect_ids SEARCH_COLUMNS) search_group
             pass_collect_ids_label pass_collect_ids_other collect_ids_pass);
    [|by apply groups_of_good|by apply groups_of_apart|done
     |by apply groups_of_labels].
  f_equal. f_equal. unfold collected.
  apply omap_ext_in. intros r Hr.
  rewrite (passes_in_own_group _ r pass_collect_ids_label
             pass_collect_ids_other Hr).
  unfold pass_collect_ids. cbn [snd].
  pose proof (in_own_group rs r Hr) as Hown.
  pose proof (group_of_labels r) as Hnd.
  destruct (group_of rs r) as [|r0 rest]; [by apply elem_of_nil in Hown|].
  rewrite fmap_cons in Hnd. apply NoDup_cons in Hnd as [Hr0 Hnd].
  change (drop 1 (r0 :: rest)) with rest.
  rewrite fmap_cons. cbn [head].
  apply elem_of_cons in Hown as [->|Hin].
  - rewrite decide_False by done. by rewrite !decide_True.
  - rewrite decide_True by by apply list_elem_of_fmap_2.
    rewrite decide_False; [done|]. intros [= ->]. apply Hr0.
    by apply list_elem_of_fmap_2.
Qed.

End Loops.

Lemma search_rows_bind (dfs : list DataFrame) :
  Forall search_frame dfs -> Forall search_row (dfs ≫= rows).
Proof.
  intros H. apply Forall_forall. intros r Hr.
  apply list_elem_of_bind in Hr as (df & Hr & Hdf).
  eapply Forall_forall in H; [|exact Hdf]. destruct H as [_ H].
  by eapply Forall_forall in H.
Qed.

Lemma deduplicated_cells (dfs : list DataFrame) :
  (deduplicated dfs).*2 = (keep_first 11 [] (dfs ≫= rows)).*2.
Proof. unfold deduplicated. by rewrite reset_index_cells. Qed.

Lemma deduplicated_rows (dfs : list DataFrame) :
  Forall search_frame dfs -> Forall search_row (deduplicated dfs).
Proof.
  intros H. eapply search_rows_cells; [apply deduplicated_cells|].
  apply Forall_forall. intros r Hr. apply keep_first_in in Hr as [Hr _].
  pose proof (search_rows_bind dfs H) as Hall. by eapply Forall_forall in Hall.
Qed.

Lemma deduplicated_labels (dfs : list DataFrame) : NoDup (deduplicated dfs).*1.
Proof. apply reset_index_NoDup. Qed.

Lemma survivors_rows (rs : list row) :
  Forall search_row rs -> Forall search_row (survivors rs).
Proof.
  intros H. apply Forall_forall. intros r Hr.
  apply list_elem_of_filter in Hr as [_ Hr]. by eapply Forall_forall in H.
Qed.

(** On frames of search rows [combine_results] comes to this. *)
Lemma combine_results_search (dfs : list DataFrame) :
  dfs <> [] -> Forall search_frame dfs ->
  combine_results dfs = Ok (reconciled dfs).
Proof.
  intros Hne H. unfold combine_results. destruct dfs as [|df0 dfs0]; [done|].
  set (dfs := df0 :: dfs0) in *.
  rewrite (concat_search dfs Hne H).
  rewrite (drop_duplicates_search _ (search_rows_bind dfs H)).
  cbn [fmap result_fmap mbind result_bind].
  change (reset_index _) with (mkDF SEARCH_COLUMNS (deduplicated dfs)).
  cbn [columns].
  pose proof (deduplicated_rows dfs H) as Hrows.
  pose proof (deduplicated_labels dfs) as Hlab.
  rewrite (groupby_search _ Hrows). cbn [mbind result_bind].
  rewrite (first_loop _ Hrows Hlab). cbn [mbind result_bind columns].
  pose proof (survivors_rows _ Hrows) as Hrows'.
  assert (Hlab' : NoDup (survivors (deduplicated dfs)).*1)
    by by apply filter_labels_NoDup.
  rewrite (groupby_search _ Hrows'). cbn [mbind result_bind].
  rewrite (second_loop _ Hrows' Hlab'). cbn [mbind result_bind].
  reflexivity.
Qed.

(** *** What the reconciled frame holds *)

Lemma take_delete_ge {A} n : forall (l : list A) i,
  n <= i -> take n (delete i l) = take n l.
Proof.
  induction n as [|n IH]; intros [|x l] [|i] H; cbn; try done; try lia.
  f_equal. apply IH. lia.
Qed.

Lemma facets_insert (cells : list cell) v :
  facets (<[11 := v]> cells) = facets cells.
Proof. unfold facets. rewrite take_insert_ge by lia. done. Qed.

Lemma facets_delete (cells : list cell) :
  facets (delete 10 cells) = facets cells.
Proof. unfold facets. rewrite take_delete_ge by lia. done. Qed.

Lemma version_finished (cells : list cell) v :
  version (delete 10 (<[11 := v]> cells)) = version cells.
Proof.
  unfold version. rewrite list_lookup_delete_lt by lia.
  by rewrite list_lookup_insert_ne by lia.
Qed.

Lemma ids_finished (cells : list cell) v :
  length cells = 12 -> delete 10 (<[11 := v]> cells) !! 10 = Some v.
Proof.
  intros H. rewrite list_lookup_delete_ge by lia.
  apply list_lookup_insert_eq. lia.
Qed.

Lemma filter_omap_facets (f : row -> option row) k (l : list row) :
  (forall r x, f r = Some x -> facets x.2 = facets r.2) ->
  filter (fun x : row => facets x.2 = k) (omap f l)
  = omap f (filter (fun r : row => facets r.2 = k) l).
Proof.
  intros Hf. induction l as [|r l IH]; [done|].
  rewrite filter_cons. cbn [omap list_omap]. destruct (f r) as [x|] eqn:E.
  - rewrite filter_cons, (Hf r x E).
    destruct (decide (facets r.2 = k)); cbn [omap list_omap]; rewrite ?E; by rewrite IH.
  - destruct (decide (facets r.2 = k)); cbn [omap list_omap]; rewrite ?E; by rewrite IH.
Qed.

Lemma filter_fmap_facets (f : row -> row) k (l : list row) :
  (forall r, facets (f r).2 = facets r.2) ->
  filter (fun x : row => facets x.2 = k) (f <$> l)
  = f <$> filter (fun r : row => facets r.2 = k) l.
Proof.
  intros Hf. induction l as [|r l IH]; [done|].
  rewrite fmap_cons, !filter_cons, (Hf r).
  destruct (decide (facets r.2 = k)); [rewrite fmap_cons|]; by rewrite IH.
Qed.

Lemma omap_all_None {A B} (f : A -> option B) (l : list A) :
  (forall x, x ∈ l -> f x = None) -> omap f l = [].
Proof.
  induction l as [|x l IH]; intros H; [done|]. cbn.
  rewrite (H x) by left. apply IH. intros y Hy. apply H. by right.
Qed.

Section Frame.

Variable rs : list row.
Hypothesis rs_rows : Forall search_row rs.
Hypothesis rs_labels : NoDup rs.*1.

Lemma group_of_key r k :
  facets r.2 = k -> group_of rs r = filter (fun r' : row => facets r'.2 = k) rs.
Proof. by intros <-. Qed.

Lemma survivors_elem r :
  r ∈ survivors rs <-> r ∈ rs /\ version r.2 = latest (group_of rs r).
Proof. unfold survivors. rewrite list_elem_of_filter. tauto. Qed.

Lemma latest_upper (grp : list row) r :
  r ∈ grp -> String.ltb (latest grp) (version r.2) = false.
Proof.
  intros H. eapply series_max_upper.
  - apply latest_max. intros E. rewrite E in H. by apply elem_of_nil in H.
  - by apply (list_elem_of_fmap_2 (fun r : row => version r.2)).
Qed.

Lemma latest_attained (grp : list row) :
  grp <> [] -> exists r, r ∈ grp /\ version r.2 = latest grp.
Proof.
  intros Hne. pose proof (latest_max grp Hne) as Hm.
  apply series_max_in, list_elem_of_fmap in Hm as (r & E & Hr). by exists r.
Qed.

Lemma survivors_group k :
  filter (fun r : row => facets r.2 = k) (survivors rs)
  = filter (fun r : row =>
              version r.2 = latest (filter (fun r' : row => facets r'.2 = k) rs))
           (filter (fun r : row => facets r.2 = k) rs).
Proof.
  unfold survivors. rewrite !list_filter_filter. apply list_filter_iff.
  intros r. split.
  - intros [E Hv]. split; [|done]. by rewrite <- (group_of_key r k E).
  - intros [Hv E]. split; [done|]. by rewrite (group_of_key r k E).
Qed.

Lemma collected_elem x :
  x ∈ collected rs ->
  exists r0, r0 ∈ rs
    /\ x = (r0.1, <[11 := CList ((fun r' : row => id_of r'.2) <$> group_of rs r0)]> r0.2).
Proof.
  unfold collected. intros H. apply list_elem_of_omap in H as (r0 & Hr0 & E).
  destruct (decide _); [|done]. injection E as <-. eauto.
Qed.

Lemma collected_group k r0 rest :
  filter (fun r : row => facets r.2 = k) rs = r0 :: rest ->
  filter (fun x : row => facets x.2 = k) (collected rs)
  = [(r0.1, <[11 := CList ((fun r' : row => id_of r'.2) <$> (r0 :: rest))]> r0.2)].
Proof.
  intros Hk. unfold collected. rewrite filter_omap_facets.
  2:{ intros r x E. destruct (decide _); [|done]. injection E as <-.
      cbn [snd]. apply facets_insert. }
  rewrite Hk.
  assert (Hg : forall r, r ∈ r0 :: rest -> group_of rs r = r0 :: rest).
  { intros r Hr. rewrite <- Hk in Hr. apply list_elem_of_filter in Hr as [E _].
    by rewrite (group_of_key r k E). }
  assert (Hnd : NoDup (r0 :: rest).*1).
  { rewrite <- Hk. by apply filter_labels_NoDup. }
  rewrite fmap_cons in Hnd. apply NoDup_cons in Hnd as [Hr0 _].
  cbn [omap list_omap]. rewrite (Hg r0) by left. cbn [head]. rewrite decide_True by done.
  f_equal. apply omap_all_None. intros r Hr.
  rewrite (Hg r) by by right. cbn [head]. rewrite decide_False; [done|].
  intros [= ->]. apply Hr0. by apply list_elem_of_fmap_2.
Qed.

End Frame.

(** *** Records and rows *)


Lemma ids_identify_elem recs c c' :
  ids_identify recs -> c ∈ recs -> c' ∈ recs -> id_of c = id_of c' -> c = c'.
Proof.
  intros H Hc Hc'. eapply Forall_forall in H; [|exact Hc].
  eapply Forall_forall in H; [|exact Hc']. done.
Qed.

Lemma deduplicated_records (dfs : list DataFrame) c :
  ids_identify (records dfs) ->
  c ∈ (deduplicated dfs).*2 <-> c ∈ records dfs.
Proof.
  intros Hid. rewrite deduplicated_cells. unfold records. split.
  - intros Hc. apply list_elem_of_fmap in Hc as (r & -> & Hr).
    apply keep_first_in in Hr as [Hr _]. by apply list_elem_of_fmap_2.
  - intros Hc. pose proof Hc as Hc'.
    apply list_elem_of_fmap in Hc as (r & -> & Hr).
    destruct (keep_first_cover 11 _ [] r Hr) as [Hs|(r' & Hr' & E)];
      [by apply elem_of_nil in Hs|].
    assert (r'.2 = r.2) as <-.
    { apply (ids_identify_elem _ _ _ Hid).
      - apply list_elem_of_fmap_2. by apply keep_first_in in Hr' as [? _].
      - done.
      - unfold id_of. unfold cell_at in E. by rewrite E. }
    by apply list_elem_of_fmap_2.
Qed.

Lemma ids_of_group (rs : list row) k v :
  (fun r : row => id_of r.2)
    <$> filter (fun r : row => version r.2 = v)
               (filter (fun r : row => facets r.2 = k) rs)
  = id_of <$> filter (fun c => facets c = k /\ version c = v) rs.*2.
Proof.
  induction rs as [|r rs IH]; [done|].
  rewrite fmap_cons, !filter_cons.
  destruct (decide (facets r.2 = k)) as [Hk|Hk].
  - rewrite filter_cons. destruct (decide (version r.2 = v)) as [Hv|Hv].
    + rewrite decide_True by done. rewrite !fmap_cons. by rewrite IH.
    + rewrite decide_False by tauto. done.
  - rewrite decide_False by tauto. done.
Qed.

(** [drop_duplicates] on the id column, read on the ids of the records of
    one kind *)
Lemma keep_first_ids (P : list cell -> Prop) `{!forall c, Decision (P c)}
    (rs : list row) : forall seen seen',
  Forall search_row rs ->
  (forall r r', r ∈ rs -> r' ∈ rs -> id_of r.2 = id_of r'.2 -> P r.2 -> P r'.2) ->
  (forall r, r ∈ rs -> P r.2 -> cell_at 11 r ∈ seen <-> id_of r.2 ∈ seen') ->
  id_of <$> filter P (keep_first 11 seen rs).*2
  = first_occurrences seen' (id_of <$> filter P rs.*2).
Proof.
  induction rs as [|r rs IH]; intros seen seen' Hrows Hsame Hseen; [done|].
  apply Forall_cons in Hrows as [Hr Hrows].
  assert (Hsame' : forall a b, a ∈ rs -> b ∈ rs -> id_of a.2 = id_of b.2 ->
                               P a.2 -> P b.2).
  { intros a b Ha Hb. apply Hsame; by right. }
  cbn [keep_first]. rewrite fmap_cons, (filter_cons P r.2).
  destruct (bool_decide (cell_at 11 r ∈ seen)) eqn:E.
  - apply bool_decide_eq_true in E.
    assert (Hnext : forall a, a ∈ rs -> P a.2 ->
                      cell_at 11 a ∈ seen <-> id_of a.2 ∈ seen').
    { intros a Ha. apply Hseen. by right. }
    rewrite (IH seen seen' Hrows Hsame' Hnext).
    destruct (decide (P r.2)) as [HP|HP]; [|done].
    rewrite fmap_cons. cbn [first_occurrences].
    rewrite bool_decide_eq_true_2; [done|]. apply (Hseen r); [left|done|done].
  - apply bool_decide_eq_false in E. rewrite fmap_cons, (filter_cons P r.2).
    destruct (decide (P r.2)) as [HP|HP].
    + rewrite !fmap_cons. cbn [first_occurrences].
      rewrite bool_decide_eq_false_2.
      2:{ intros Hin. apply E. apply (Hseen r); [left|done|done]. }
      f_equal. apply IH; [done|done|].
      intros a Ha HPa. rewrite !elem_of_cons.
      assert (Ha' : search_row a) by by eapply Forall_forall in Hrows.
      rewrite (Hseen a) by (done || by right).
      rewrite (search_row_id a Ha'), (search_row_id r Hr).
      split; (intros [Ex|Ex]; [left|by right]); congruence.
    + apply IH; [done|done|].
      intros a Ha HPa. rewrite elem_of_cons.
      assert (Ha' : search_row a) by by eapply Forall_forall in Hrows.
      rewrite (Hseen a) by (done || by right). split; [|by right].
      intros [Ex|Ex]; [|done]. exfalso. apply HP.
      apply (Hsame a r); [by right|left| |done].
      rewrite (search_row_id a Ha'), (search_row_id r Hr) in Ex. congruence.
Qed.

Lemma first_occurrences_same x (l : list string) : forall seen,
  Forall (fun y => y = x) l ->
  first_occurrences seen l = if bool_decide (x ∈ seen) then []
                             else match l with [] => [] | _ => [x] end.
Proof.
  induction l as [|y l IH]; intros seen H; [by destruct (bool_decide _)|].
  apply Forall_cons in H as [-> H]. cbn [first_occurrences].
  destruct (bool_decide (x ∈ seen)) eqn:E.
  - rewrite (IH seen H), E. done.
  - rewrite (IH (x :: seen) H). rewrite bool_decide_eq_true_2 by left. done.
Qed.

(** C6. Let the frames be frames of search rows whose records are told
    apart by their id, and let them hold two records that agree in every
    facet but the version.  Then [combine_results] returns a frame with
    exactly one row for their facets; the row carries the greatest version
    seen for these facets, its id list consists of the ids of the records at
    that version and does not hold the id of the record with the lesser
    version; and no id list of the frame holds the id of a record that has
    a later version beside it.  The version of the row is the version of
    one of the records; the id list is the list of the ids of the records
    at that version, in the order of the frames and every id once; when
    no record of these facets is later than the greater of the two, the
    row has its version and its id; and when the two are the only records
    of these facets, the id list is the id of the greater alone. *)
Theorem later_version_replaces_earlier (dfs : list DataFrame)
    (older newer : list cell) :
  Forall search_frame dfs ->
  ids_identify (records dfs) ->
  older ∈ records dfs ->
  newer ∈ records dfs ->
  facets older = facets newer ->
  data_node older = data_node newer ->
  String.ltb (version older) (version newer) = true ->
  exists (out : DataFrame) (dataset : row) (ids : list string),
    combine_results dfs = Ok out
    /\ filter (fun r : row => facets r.2 = facets newer) (rows out) = [dataset]
    /\ dataset.2 !! 10 = Some (CList ids)
    /\ (forall c, c ∈ records dfs -> facets c = facets newer ->
         String.ltb (version dataset.2) (version c) = false)
    /\ (forall i, i ∈ ids <->
         exists c, c ∈ records dfs /\ facets c = facets newer
                   /\ version c = version dataset.2 /\ id_of c = i)
    /\ (id_of older ∉ ids)
    /\ (forall c, c ∈ records dfs ->
         (exists c', c' ∈ records dfs /\ facets c' = facets c
                     /\ String.ltb (version c) (version c') = true) ->
         forall (r : row) l,
           r ∈ rows out -> r.2 !! 10 = Some (CList l) -> id_of c ∉ l)
    /\ (exists c, c ∈ records dfs /\ facets c = facets newer
                  /\ version c = version dataset.2)
    /\ ids = first_occurrences []
               (id_of <$> filter (fun c => facets c = facets newer
                                           /\ version c = version dataset.2)
                                 (records dfs))
    /\ ((forall c, c ∈ records dfs -> facets c = facets newer ->
           String.ltb (version newer) (version c) = false) ->
        version dataset.2 = version newer /\ id_of newer ∈ ids)
    /\ ((forall c, c ∈ records dfs -> facets c = facets newer ->
           c = older \/ c = newer) ->
        version dataset.2 = version newer /\ ids = [id_of newer]).
Proof.
  intros Hfr Hid Hold Hnew Hfac _ Hlt.
  assert (Hne : dfs <> []).
  { intros ->. by apply elem_of_nil in Hnew. }
  set (k := facets newer) in *.
  set (D := deduplicated dfs).
  pose proof (deduplicated_rows dfs Hfr) as HD. fold D in HD.
  pose proof (deduplicated_labels dfs) as HDl. fold D in HDl.
  set (S := survivors D).
  pose proof (survivors_rows D HD) as HS. fold S in HS.
  assert (HSl : NoDup S.*1) by by apply filter_labels_NoDup.
  assert (Hrec : forall c, c ∈ records dfs <-> exists r, r ∈ D /\ r.2 = c).
  { intros c. rewrite <- (deduplicated_records dfs c Hid). fold D.
    rewrite list_elem_of_fmap.
    split; intros (r & H1 & H2); exists r; by split. }
  set (G := filter (fun r : row => facets r.2 = k) D).
  assert (HG : forall r, r ∈ G <-> r ∈ D /\ facets r.2 = k).
  { intros r. unfold G. rewrite list_elem_of_filter. tauto. }
  assert (HGne : G <> []).
  { apply Hrec in Hnew as (rn & Hrn & En). intros E.
    assert (Hin : rn ∈ G) by (apply HG; by rewrite En).
    rewrite E in Hin. by apply elem_of_nil in Hin. }
  destruct (latest_attained G HGne) as (rm & Hrm & Evm).
  pose proof (survivors_group D k) as HSk. fold S G in HSk.
  assert (HSin : forall r, r ∈ filter (fun r : row => facets r.2 = k) S
                           <-> r ∈ G /\ version r.2 = latest G).
  { intros r. rewrite HSk, list_elem_of_filter. tauto. }
  destruct (filter (fun r : row => facets r.2 = k) S) as [|r0 rest] eqn:ESk.
  { exfalso. assert (Hin : rm ∈ []) by by apply HSin. by apply elem_of_nil in Hin. }
  set (ids := (fun r' : row => id_of r'.2) <$> (r0 :: rest)).
  assert (Hr0 : r0 ∈ G /\ version r0.2 = latest G) by (apply HSin; left).
  assert (Hr0row : search_row r0).
  { destruct Hr0 as [Hr0 _]. apply HG in Hr0 as [Hr0 _].
    by eapply Forall_forall in HD. }
  assert (Hids : forall i, i ∈ ids <->
            exists c, c ∈ records dfs /\ facets c = k
                      /\ version c = latest G /\ id_of c = i).
  { intros i. unfold ids. rewrite list_elem_of_fmap. split.
    - intros (r & -> & Hr). apply HSin in Hr as [Hr Hv].
      apply HG in Hr as [Hr Hf]. exists r.2. repeat split; try done.
      apply Hrec. by exists r.
    - intros (c & Hc & Hf & Hv & <-). apply Hrec in Hc as (r & Hr & <-).
      exists r. split; [done|]. apply HSin. split; [|done]. by apply HG. }
  assert (Hup : forall c, c ∈ records dfs -> facets c = k ->
            String.ltb (latest G) (version c) = false).
  { intros c Hc Hf. apply Hrec in Hc as (r & Hr & <-).
    apply latest_upper. by apply HG. }
  assert (Hatt : exists c, c ∈ records dfs /\ facets c = k
                           /\ version c = latest G).
  { exists rm.2. apply HG in Hrm as [Hrm Hf]. split; [|done].
    apply Hrec. by exists rm. }
  set (P := fun c : list cell => facets c = k /\ version c = latest G).
  assert (Hlist : ids = first_occurrences [] (id_of <$> filter P (records dfs))).
  { unfold ids. rewrite HSk. unfold G, P. rewrite ids_of_group. unfold D.
    rewrite deduplicated_cells. unfold records.
    apply (keep_first_ids (fun c => facets c = k /\ version c = latest G)).
    - by apply search_rows_bind.
    - intros r r' Hr Hr' Ei HP.
      assert (r.2 = r'.2) as <-; [|done].
      apply (ids_identify_elem _ _ _ Hid); [by apply list_elem_of_fmap_2..|done].
    - intros r _ _. split; intros Hin; by apply elem_of_nil in Hin. }
  exists (reconciled dfs),
         (r0.1, delete 10 (<[11 := CList ids]> r0.2)), ids.
  assert (Hv0 : version (delete 10 (<[11 := CList ids]> r0.2)) = latest G).
  { rewrite version_finished. by destruct Hr0. }
  split; [by apply combine_results_search|].
  split.
  { unfold reconciled. cbn [rows]. fold D S.
    rewrite filter_fmap_facets by (intros r; apply facets_delete).
    by rewrite (collected_group S HSl k r0 rest ESk). }
  split; [apply ids_finished; by destruct Hr0row|].
  cbn [snd]. rewrite Hv0.
  split; [exact Hup|]. split; [exact Hids|]. split.
  { intros Hin. apply Hids in Hin as (c & Hc & Hf & Hv & Ei).
    assert (c = older) as -> by by apply (ids_identify_elem _ _ _ Hid).
    pose proof (Hup newer Hnew eq_refl) as Hn. rewrite <- Hv in Hn. congruence. }
  split.
  { intros c Hc (c' & Hc' & Hf' & Hlt') r l Hr Hl Hin.
    unfold reconciled in Hr. cbn [rows] in Hr. fold D S in Hr.
    apply list_elem_of_fmap in Hr as (x & -> & Hx).
    apply (collected_elem S) in Hx as (r1 & Hr1 & ->). cbn [snd fst] in Hl.
    assert (Hr1row : search_row r1) by by eapply Forall_forall in HS.
    rewrite ids_finished in Hl by by destruct Hr1row.
    injection Hl as <-.
    apply list_elem_of_fmap in Hin as (r2 & Ei & Hr2).
    apply list_elem_of_filter in Hr2 as [_ Hr2].
    apply survivors_elem in Hr2 as [Hr2 Hv2].
    assert (r2.2 = c) as E2.
    { apply (ids_identify_elem _ _ _ Hid); [|done|done]. apply Hrec. by exists r2. }
    apply Hrec in Hc' as (r' & Hr' & <-).
    assert (Hin' : r' ∈ group_of D r2).
    { apply list_elem_of_filter. split; [|done]. by rewrite E2. }
    pose proof (latest_upper (group_of D r2) r' Hin') as Hn.
    rewrite <- Hv2, E2 in Hn. congruence. }
  split; [exact Hatt|]. split; [exact Hlist|]. split.
  - intros Hmax. destruct Hatt as (c & Hc & Hf & Hv).
    assert (E : latest G = version newer).
    { apply ltb_total; [by apply Hup|]. rewrite <- Hv. by apply Hmax. }
    split; [done|]. apply Hids. by exists newer.
  - intros Htwo.
    assert (E : latest G = version newer).
    { destruct Hatt as (c & Hc & Hf & Hv).
      destruct (Htwo c Hc Hf) as [->| ->]; [|done].
      pose proof (Hup newer Hnew eq_refl) as Hn. rewrite <- Hv in Hn. congruence. }
    split; [done|]. rewrite Hlist.
    assert (Hall : Forall (fun y => y = id_of newer)
                          (id_of <$> filter P (records dfs))).
    { apply Forall_fmap, Forall_forall. intros c Hc.
      apply list_elem_of_filter in Hc as [[Hf Hv] Hc]. cbn.
      destruct (Htwo c Hc Hf) as [->| ->]; [|done].
      rewrite E in Hv. rewrite Hv, ltb_irrefl in Hlt. done. }
    rewrite (first_occurrences_same _ _ [] Hall).
    rewrite bool_decide_eq_false_2 by apply not_elem_of_nil.
    assert (Hin : id_of newer ∈ id_of <$> filter P (records dfs)).
    { apply list_elem_of_fmap_2, list_elem_of_filter. by split. }
    destruct (id_of <$> filter P (records dfs)); [by apply elem_of_nil in Hin|done].
Qed.

Lemma later_version_replaces_earlier_witness :
  exists (out : DataFrame) (dataset : row) (ids : list string),
    combine_results Fixtures.two_versions = Ok out
    /\ filter (fun r : row => facets r.2 = facets (Fixtures.cells_of Fixtures.id_2020)) (rows out)
       = [dataset]
    /\ dataset.2 !! 10 = Some (CList ids)
    /\ (forall c, c ∈ records Fixtures.two_versions -> facets c = facets (Fixtures.cells_of Fixtures.id_2020) ->
         String.ltb (version dataset.2) (version c) = false)
    /\ (forall i, i ∈ ids <->
         exists c, c ∈ records Fixtures.two_versions /\ facets c = facets (Fixtures.cells_of Fixtures.id_2020)
                   /\ version c = version dataset.2 /\ id_of c = i)
    /\ (id_of (Fixtures.cells_of Fixtures.id_2019) ∉ ids)
    /\ (forall c, c ∈ records Fixtures.two_versions ->
         (exists c', c' ∈ records Fixtures.two_versions /\ facets c' = facets c
                     /\ String.ltb (version c) (version c') = true) ->
         forall (r : row) l,
           r ∈ rows out -> r.2 !! 10 = Some (CList l) -> id_of c ∉ l)
    /\ (exists c, c ∈ records Fixtures.two_versions
                  /\ facets c = facets (Fixtures.cells_of Fixtures.id_2020)
                  /\ version c = version dataset.2)
    /\ ids = first_occurrences []
               (id_of <$> filter (fun c => facets c = facets (Fixtures.cells_of Fixtures.id_2020)
                                           /\ version c = version dataset.2)
                                 (records Fixtures.two_versions))
    /\ ((forall c, c ∈ records Fixtures.two_versions ->
           facets c = facets (Fixtures.cells_of Fixtures.id_2020) ->
           String.ltb (version (Fixtures.cells_of Fixtures.id_2020)) (version c) = false) ->
        version dataset.2 = version (Fixtures.cells_of Fixtures.id_2020)
        /\ id_of (Fixtures.cells_of Fixtures.id_2020) ∈ ids)
    /\ ((forall c, c ∈ records Fixtures.two_versions ->
           facets c = facets (Fixtures.cells_of Fixtures.id_2020) ->
           c = Fixtures.cells_of Fixtures.id_2019
           \/ c = Fixtures.cells_of Fixtures.id_2020) ->
        version dataset.2 = version (Fixtures.cells_of Fixtures.id_2020)
        /\ ids = [id_of (Fixtures.cells_of Fixtures.id_2020)]).
Proof.
  apply (later_version_replaces_earlier Fixtures.two_versions
           (Fixtures.cells_of Fixtures.id_2019) (Fixtures.cells_of Fixtures.id_2020)).
  - vm_compute. repeat constructor.
  - apply (bool_decide_unpack _). vm_compute. exact I.
  - apply (bool_decide_unpack _). vm_compute. exact I.
  - apply (bool_decide_unpack _). vm_compute. exact I.
  - reflexivity.
  - reflexivity.
  - reflexivity.
Defined.

(** the scenario end to end: one row, the later version, the later id *)
Example two_versions_reconciled :
  combine_results Fixtures.two_versions
  = Ok (mkDF [ "mip_era"; "activity_id"; "institution_id"; "source_id";
               "experiment_id"; "member_id"; "table_id"; "variable_id";
               "grid_label"; "version"; "id" ]
             [ (1, [ CStr "CMIP6"; CStr "CMIP"; CStr "NCAR"; CStr "CESM2";
                     CStr "historical"; CStr "r1i1p1f1"; CStr "Amon";
                     CStr "tas"; CStr "gn"; CStr "v20200101";
                     CList [Fixtures.id_2020] ]) ]).
Proof. vm_compute. reflexivity. Qed.

(** *** The empty result *)


Lemma fo_ok {A} (a : A) : fails_otherwise (Ok a).
Proof. by intros e. Qed.

Lemma fo_raise {A} e : other e -> fails_otherwise (@Raise A e).
Proof. intros H e' [= <-]. exact H. Qed.

Lemma fo_bind {A B} (m : result A) (f : A -> result B) :
  fails_otherwise m -> (forall a, fails_otherwise (f a)) ->
  fails_otherwise (m ≫= f).
Proof.
  intros Hm Hf e. destruct m as [a|e']; cbn.
  - apply Hf.
  - intros [= <-]. by apply Hm.
Qed.

Lemma fo_fmap {A B} (m : result A) (f : A -> B) :
  fails_otherwise m -> fails_otherwise (f <$> m).
Proof. intros Hm e. destruct m as [a|e']; cbn; [done|]. intros [= <-]. by apply Hm. Qed.

Lemma fo_foldM {A B} (f : A -> B -> result A) (l : list B) : forall a,
  (forall a x, fails_otherwise (f a x)) -> fails_otherwise (foldM f a l).
Proof.
  induction l as [|x l IH]; intros a Hf; cbn [foldM]; [apply fo_ok|].
  apply fo_bind; [apply Hf|]. intros a'. by apply IH.
Qed.

Lemma fo_mapM {A B} (f : A -> result B) (l : list A) :
  (forall x, fails_otherwise (f x)) -> fails_otherwise (mapM f l).
Proof.
  intros Hf. induction l as [|x l IH]; cbn; [apply fo_ok|].
  apply fo_bind; [apply Hf|]. intros y. apply fo_bind; [apply IH|].
  intros k. apply fo_ok.
Qed.

Ltac fo_leaf :=
  repeat first [ apply fo_ok | apply fo_raise; discriminate | case_match ].

Lemma fo_drop_duplicates subset df : fails_otherwise (drop_duplicates subset df).
Proof. unfold drop_duplicates. fo_leaf. Qed.

Lemma fo_positions_of cols keys : fails_otherwise (positions_of cols keys).
Proof.
  induction keys as [|k keys IH]; cbn; [apply fo_ok|].
  destruct (col_pos cols k); [|apply fo_raise; discriminate].
  apply fo_bind; [done|]. intros ps. apply fo_ok.
Qed.

Lemma fo_row_key positions r : fails_otherwise (row_key positions r).
Proof.
  induction positions as [|i positions IH]; cbn; [apply fo_ok|].
  destruct (cell_at i r); [| apply fo_raise; discriminate |];
    (apply fo_bind; [done|]; intros k; apply fo_ok).
Qed.

Lemma fo_groupby df keys : fails_otherwise (groupby df keys).
Proof.
  unfold groupby. destruct keys as [|k keys].
  { destruct (rows df); [apply fo_ok|apply fo_raise; discriminate]. }
  apply fo_bind; [apply fo_positions_of|]. intros ps.
  apply fo_bind; [apply fo_mapM; intros r; apply fo_row_key|].
  intros ks. apply fo_ok.
Qed.

Lemma fo_column_strings i rs : fails_otherwise (column_strings i rs).
Proof.
  induction rs as [|r rs IH]; cbn; [apply fo_ok|].
  destruct (cell_at i r); try (apply fo_raise; discriminate).
  apply fo_bind; [done|]. intros l. apply fo_ok.
Qed.

Lemma fo_getattr cols name : fails_otherwise (getattr cols name).
Proof. unfold getattr. fo_leaf. Qed.

Lemma fo_drop_index lbls df : fails_otherwise (drop_index lbls df).
Proof. unfold drop_index. fo_leaf. Qed.

Lemma fo_drop_column name df : fails_otherwise (drop_column name df).
Proof. unfold drop_column. fo_leaf. Qed.

Lemma fo_drop_earlier cols df g : fails_otherwise (drop_earlier cols df g).
Proof.
  unfold drop_earlier. apply fo_bind; [apply fo_getattr|]. intros i.
  apply fo_bind; [apply fo_column_strings|]. intros versions.
  destruct (series_max versions); [apply fo_drop_index|].
  apply fo_raise. discriminate.
Qed.

Lemma fo_collect_ids cols df g : fails_otherwise (collect_ids cols df g).
Proof.
  unfold collect_ids. apply fo_bind; [apply fo_drop_index|]. intros df'.
  destruct (labels g.2); [apply fo_raise; discriminate|].
  apply fo_bind; [apply fo_getattr|]. intros i.
  apply fo_bind; [apply fo_column_strings|]. intros ids. apply fo_ok.
Qed.

Lemma fo_combine_results df dfs : fails_otherwise (combine_results (df :: dfs)).
Proof.
  unfold combine_results.
  apply fo_bind; [apply fo_fmap, fo_drop_duplicates|]. intros d.
  apply fo_bind; [apply fo_groupby|]. intros gs.
  apply fo_bind; [apply fo_foldM; intros; apply fo_drop_earlier|]. intros d1.
  apply fo_bind; [apply fo_groupby|]. intros gs1.
  apply fo_bind; [apply fo_foldM; intros; apply fo_collect_ids|]. intros d2.
  apply fo_drop_column.
Qed.

(** C9, as it stands, fails on a frame without rows: there are no groups,
    and [combine_results] returns a frame without rows instead of failing. *)
Lemma frame_without_rows_is_no_error :
  let dfs := [mkDF SEARCH_COLUMNS []] in
  (df ← reset_index <$> drop_duplicates "id" (concat dfs);
   groupby df (all_but_last 3 (columns df))) = Ok []
  /\ combine_results dfs
     = Ok (mkDF [ "mip_era"; "activity_id"; "institution_id"; "source_id";
                  "experiment_id"; "member_id"; "table_id"; "variable_id";
                  "grid_label"; "version"; "id" ] []).
Proof. split; vm_compute; reflexivity. Qed.

(** C9, amended.  [combine_results] fails with the empty-result error
    exactly when the list of frames is empty; on a non-empty list of frames
    of search rows it returns a frame, whose columns are the search columns
    without the data node and which has no rows when the frames have
    none. *)
Theorem empty_result_exactly_for_no_frames (dfs : list DataFrame) :
  (combine_results dfs = Raise (ValueError "Search returned no results.")
   <-> dfs = [])
  /\ (dfs <> [] -> Forall search_frame dfs ->
      exists out, combine_results dfs = Ok out
                  /\ columns out = delete 10 SEARCH_COLUMNS
                  /\ (dfs ≫= rows = [] -> rows out = [])).
Proof.
  split.
  - split.
    + destruct dfs as [|df dfs]; [done|]. intros H.
      by destruct (fo_combine_results df dfs _ H).
    + by intros ->.
  - intros Hne H. exists (reconciled dfs).
    split; [by apply combine_results_search|]. split; [done|].
    intros E. unfold reconciled, deduplicated. by rewrite E.
Qed.

Lemma empty_result_exactly_for_no_frames_witness :
  exists out, combine_results Fixtures.two_versions = Ok out
              /\ columns out = delete 10 SEARCH_COLUMNS
              /\ (Fixtures.two_versions ≫= rows = [] -> rows out = []).
Proof.
  apply (proj2 (empty_result_exactly_for_no_frames Fixtures.two_versions)).
  - discriminate.
  - vm_compute. repeat constructor.
Defined.

End ReconcilerFacts.

Module EffectsFacts.
Import Retrieval RetrievalFacts Effects.

Lemma bind_cases {A B} (m : M A) (f : A -> M B) w r w' :
  (m ≫= f) w = (r, w') ->
  (exists e, m w = (Raise e, w') /\ r = Raise e)
  \/ (exists a w1, m w = (Ok a, w1) /\ f a w1 = (r, w')).
Proof.
  unfold mbind, M_bind. destruct (m w) as [[a|e] w1]; intros H.
  - right. eauto.
  - left. injection H as <- <-. eauto.
Qed.

Lemma run_eta {A} (x : result A * World) a : x.1 = Ok a -> x = (Ok a, x.2).
Proof. destruct x as [r w]. by intros [= ->]. Qed.

Lemma bind_inv {A B} (m : M A) (f : A -> M B) w b w' :
  (m ≫= f) w = (Ok b, w') ->
  exists a w1, m w = (Ok a, w1) /\ f a w1 = (Ok b, w').
Proof.
  intros H. apply bind_cases in H as [(e & _ & [=]) | H]. exact H.
Qed.

Section Relates.
Variable R : World -> World -> Prop.
Hypothesis R_refl : forall w, R w w.
Hypothesis R_trans : forall a b c, R a b -> R b c -> R a c.

Lemma relates_pure {A} (m : M A) :
  (forall w, (m w).2 = w) -> relates R m.
Proof.
  intros H w r w' E. specialize (H w). rewrite E in H. cbn in H. subst w'.
  apply R_refl.
Qed.

Lemma relates_ret {A} (a : A) : relates R (mret a).
Proof. by apply relates_pure. Qed.

Lemma relates_raise {A} e : relates R (@raise A e).
Proof. by apply relates_pure. Qed.

Lemma relates_lift {A} (r : result A) : relates R (lift r).
Proof. by apply relates_pure. Qed.

Lemma relates_getitem d k : relates R (getitem d k).
Proof. apply relates_pure. intros w. unfold getitem. by destruct (d !! k). Qed.

Lemma relates_exists p : relates R (exists_ p).
Proof. by apply relates_pure. Qed.

Lemma relates_bind {A B} (m : M A) (f : A -> M B) :
  relates R m -> (forall a, relates R (f a)) -> relates R (m ≫= f).
Proof.
  intros Hm Hf w r w' E.
  apply bind_cases in E as [(e & E & _) | (a & w1 & E1 & E2)].
  - by eapply Hm.
  - eapply R_trans; [by eapply Hm | by eapply Hf].
Qed.

Lemma relates_raise_for_status status : relates R (raise_for_status status).
Proof.
  apply relates_pure. intros w. unfold raise_for_status.
  by destruct (_ && _).
Qed.

Lemma relates_iter v : relates R (iter v).
Proof. apply relates_pure. intros w. by destruct v. Qed.

End Relates.

(** ** The two relations *)

Lemma beside_refl dest chain w : beside dest chain w w.
Proof. intros q _. by left. Qed.

Lemma beside_trans dest chain a b c :
  beside dest chain a b -> beside dest chain b c -> beside dest chain a c.
Proof.
  intros H1 H2 q Hq.
  destruct (H1 q Hq) as [E1 | (Hin & Hn & Hd)];
    destruct (H2 q Hq) as [E2 | (Hin' & Hn' & Hd')].
  - left. congruence.
  - right. repeat split; congruence.
  - right. repeat split; congruence.
  - congruence.
Qed.

Lemma beside_fs dest chain w w' :
  fs w' = fs w -> beside dest chain w w'.
Proof. intros E q _. left. by rewrite E. Qed.

Lemma quiet_refl w : quiet w w.
Proof. reflexivity. Qed.

Lemma quiet_trans a b c : quiet a b -> quiet b c -> quiet a c.
Proof. unfold quiet. congruence. Qed.

Lemma quiet_log w w' : log w' = log w -> quiet w w'.
Proof. unfold quiet. by intros ->. Qed.

(** ** Directories *)

Lemma mkdir_chain_run ps : forall w r w',
  mkdir_chain ps w = (r, w') ->
  log w' = log w
  /\ (forall q, fs w' !! q = fs w !! q
                \/ (q ∈ ps /\ fs w !! q = None /\ fs w' !! q = Some Dir))
  /\ (r = Ok tt -> forall d, d ∈ ps -> fs w' !! d = Some Dir).
Proof.
  induction ps as [|d ps IH]; intros w r w' E.
  - injection E as <- <-. repeat split; [by left|]. intros _ d Hd.
    by apply elem_of_nil in Hd.
  - cbn [mkdir_chain] in E. unfold mbind at 1, M_bind at 1, get_fs at 1 in E.
    destruct (fs w !! d) as [[c|]|] eqn:Ed.
    + injection E as <- <-. repeat split; [by left|done].
    + destruct (IH _ _ _ E) as (Hl & Hf & Hok). repeat split; [done| |].
      * intros q. destruct (Hf q) as [?|(? & ? & ?)]; [by left|].
        right. repeat split; [by right|done..].
      * intros Hr x Hx. apply elem_of_cons in Hx as [->|Hx]; [|by apply Hok].
        destruct (Hf d) as [->|(_ & ? & _)]; congruence.
    + unfold mbind, M_bind, put_fs in E. cbn [fs log] in E.
      destruct (IH _ _ _ E) as (Hl & Hf & Hok). cbn [fs log] in *.
      repeat split; [done| |].
      * intros q. destruct (decide (q = d)) as [->|Hne].
        -- right. split; [by left|]. split; [done|].
           destruct (Hf d) as [->|(_ & Hn & _)].
           ++ apply lookup_insert_eq.
           ++ by rewrite lookup_insert_eq in Hn.
        -- destruct (Hf q) as [->|(Hin & Hn & Hd)].
           ++ left. by rewrite lookup_insert_ne.
           ++ right. rewrite lookup_insert_ne in Hn by done.
              repeat split; [by right|done..].
      * intros Hr x Hx. apply elem_of_cons in Hx as [->|Hx]; [|by apply Hok].
        destruct (Hf d) as [->|(_ & Hn & _)].
        -- apply lookup_insert_eq.
        -- by rewrite lookup_insert_eq in Hn.
Qed.

Lemma mkdir_chain_present ps : forall w,
  (forall d, d ∈ ps -> fs w !! d = Some Dir) -> mkdir_chain ps w = (Ok tt, w).
Proof.
  induction ps as [|d ps IH]; intros w H; [done|].
  cbn [mkdir_chain]. unfold mbind at 1, M_bind at 1, get_fs at 1.
  rewrite (H d) by by left. apply IH. intros x Hx. apply H. by right.
Qed.

(** ** Steps on one file *)

Lemma touches_refl p w : touches p w w.
Proof. by split. Qed.

Lemma touches_trans p a b c : touches p a b -> touches p b c -> touches p a c.
Proof.
  intros [L1 F1] [L2 F2]. split; [congruence|].
  intros q Hq. rewrite F2, F1; done.
Qed.

Lemma touches_beside p chain w w' : touches p w w' -> beside p chain w w'.
Proof. intros [_ F] q Hq. left. by apply F. Qed.

Lemma touches_quiet p w w' : touches p w w' -> quiet w w'.
Proof. intros [L _]. by apply quiet_log. Qed.

Lemma relates_weaken {A} (R R' : World -> World -> Prop) (m : M A) :
  (forall w w', R w w' -> R' w w') -> relates R m -> relates R' m.
Proof. intros H Hm w r w' E. apply H. by eapply Hm. Qed.

Lemma open_wb_touches p : relates (touches p) (open_wb p).
Proof.
  intros w r w' E. unfold open_wb, mbind, M_bind, get_fs, put_fs in E.
  destruct (fs w !! p) as [[c|]|]; injection E as <- <-;
    try apply touches_refl; (split; [done|]); intros q Hq; cbn;
    by rewrite lookup_insert_ne.
Qed.

Lemma write_touches p chunk : relates (touches p) (write p chunk).
Proof.
  intros w r w' E. unfold write, mbind, M_bind, get_fs, put_fs in E.
  destruct (fs w !! p) as [[c|]|]; injection E as <- <-;
    try apply touches_refl. split; [done|]. intros q Hq. cbn.
  by rewrite lookup_insert_ne.
Qed.

Lemma unlink_touches p : relates (touches p) (unlink p).
Proof.
  intros w r w' E. unfold unlink, mbind, M_bind, get_fs, put_fs in E.
  destruct (fs w !! p) as [[c|]|]; injection E as <- <-;
    try apply touches_refl. split; [done|]. intros q Hq. cbn.
  by rewrite lookup_delete_ne.
Qed.

Lemma write_chunks_touches p body fin : relates (touches p) (write_chunks p body fin).
Proof.
  induction body as [|chunk body IH].
  - destruct fin; apply relates_pure; try apply touches_refl; done.
  - cbn [write_chunks].
    apply relates_bind; [apply touches_trans| |done].
    destruct chunk; [apply relates_ret; apply touches_refl|apply write_touches].
Qed.

Lemma open_wb_ok p w w' :
  open_wb p w = (Ok tt, w') -> fs w' !! p = Some (File []).
Proof.
  unfold open_wb, mbind, M_bind, get_fs, put_fs.
  destruct (fs w !! p) as [[c|]|]; intros [= <-]; cbn; apply lookup_insert_eq.
Qed.

(** the chunks arrive at the end of the file, the empty ones are skipped *)
Lemma write_chunks_run p body fin : forall w content,
  fs w !! p = Some (File content) ->
  exists w',
    write_chunks p body fin w
    = (match fin with Complete => Ok tt | Broken => Raise ConnectionError end, w')
    /\ fs w' !! p = Some (File (content ++ mjoin body)).
Proof.
  induction body as [|chunk body IH]; intros w content Hc.
  - exists w. cbn. rewrite app_nil_r. by destruct fin.
  - cbn [write_chunks]. destruct chunk as [|b chunk].
    + destruct (IH w content Hc) as (w' & Hw & Hf).
      exists w'. split; [|done]. by rewrite (bind_ok _ _ w tt w eq_refl).
    + set (w1 := mkWorld (<[p := File (content ++ b :: chunk)]> (fs w)) (log w)).
      assert (Hw1 : write p (b :: chunk) w = (Ok tt, w1)).
      { unfold write, mbind, M_bind, get_fs. by rewrite Hc. }
      destruct (IH w1 (content ++ b :: chunk)) as (w' & Hw & Hf).
      { cbn. apply lookup_insert_eq. }
      exists w'. split.
      * by rewrite (bind_ok _ _ _ _ _ Hw1).
      * rewrite Hf. cbn. by rewrite <- app_assoc.
Qed.

(** ** Paths *)

Lemma ancestors_shorter p q :
  q ∈ Pathlib.ancestors p -> length (parts q) <= length (parts p).
Proof.
  unfold Pathlib.ancestors. intros H.
  apply list_elem_of_fmap in H as (n & -> & Hn). cbn.
  rewrite length_take. lia.
Qed.

Lemma not_own_ancestor p : p ∉ Pathlib.ancestors (Pathlib.parent p).
Proof.
  intros H. unfold Pathlib.ancestors in H.
  apply list_elem_of_fmap in H as (n & E & Hn).
  apply elem_of_seq in Hn. cbn in Hn.
  apply (f_equal (fun x => length (parts x))) in E. cbn in E.
  rewrite length_take in E.
  destruct (parts p) as [|x l] using rev_ind; [cbn in Hn; lia|].
  rewrite removelast_last in *. rewrite length_app in E. cbn in E. lia.
Qed.

Section WithEnvironment.
Variable hashlib : Hashlib.
Variable net : Network.

(** ** The digest *)

Lemma get_file_hash_run p alg w r w' :
  get_file_hash hashlib p alg w = (r, w') ->
  fs w' = fs w /\ quiet w w'.
Proof.
  unfold get_file_hash. destruct alg as [a| | |];
    try (intros [= <- <-]; by split).
  rewrite (bind_ok _ _ w (Str.lower a) w eq_refl).
  destruct (negb _); [intros [= <- <-]; by split|].
  destruct (hashlib_dict hashlib (Str.lower a)) as [h|];
    [|intros [= <- <-]; by split].
  rewrite (bind_ok (emit _) _ w tt _ eq_refl).
  unfold read_bytes, mbind, M_bind, get_fs. cbn [fs log].
  destruct (fs w !! p) as [[content|]|]; intros [= <- <-]; cbn;
    (split; [done|]); unfold quiet, requests; cbn;
    by rewrite omap_app, app_nil_r.
Qed.

Lemma get_file_hash_ok p alg w digest w' :
  get_file_hash hashlib p alg w = (Ok digest, w') ->
  exists a h content,
    alg = VStr a
    /\ Str.lower a ∈ algorithms_available hashlib
    /\ hashlib_dict hashlib (Str.lower a) = Some h
    /\ fs w !! p = Some (File content)
    /\ digest = hexdigest h (hash_loop h (S (length content)) content (hnew h))
    /\ w' = mkWorld (fs w) (log w ++ [EvDigest p (Str.lower a)]).
Proof.
  unfold get_file_hash. destruct alg as [a| | |]; try discriminate.
  rewrite (bind_ok _ _ w (Str.lower a) w eq_refl).
  destruct (bool_decide _) eqn:Hin; [|discriminate]. cbn [negb].
  apply bool_decide_eq_true in Hin.
  destruct (hashlib_dict hashlib (Str.lower a)) as [h|] eqn:Hh; [|discriminate].
  rewrite (bind_ok (emit _) _ w tt _ eq_refl).
  unfold read_bytes, mbind, M_bind, get_fs. cbn [fs log].
  destruct (fs w !! p) as [[content|]|] eqn:E; try discriminate.
  intros [= <- <-]. by exists a, h, content.
Qed.

Lemma get_file_hash_file p a h content w :
  Str.lower a ∈ algorithms_available hashlib ->
  hashlib_dict hashlib (Str.lower a) = Some h ->
  fs w !! p = Some (File content) ->
  get_file_hash hashlib p (VStr a) w
  = (Ok (hexdigest h (hash_loop h (S (length content)) content (hnew h))),
     mkWorld (fs w) (log w ++ [EvDigest p (Str.lower a)])).
Proof.
  intros Hin Hh Hc. unfold get_file_hash.
  rewrite (bind_ok _ _ w (Str.lower a) w eq_refl).
  rewrite bool_decide_eq_true_2 by done. cbn [negb]. rewrite Hh.
  rewrite (bind_ok (emit _) _ w tt _ eq_refl).
  unfold read_bytes, mbind, M_bind, get_fs. cbn [fs log]. by rewrite Hc.
Qed.

(** ** The transfer *)

Lemma requests_get_run url w r w' :
  requests_get net url w = (r, w') ->
  fs w' = fs w /\ log w' = log w ++ [EvRequest url]
  /\ (forall x, r = Ok x -> net url = Response x.1.1 x.1.2 x.2).
Proof.
  unfold requests_get. rewrite (bind_ok (emit _) _ w tt _ eq_refl).
  destruct (net url) as [|status body fin]; intros [= <- <-]; cbn;
    repeat split; try done. by intros x [= <-].
Qed.

Lemma raise_for_status_ok status w w' :
  raise_for_status status w = (Ok tt, w') ->
  w' = w /\ ((status < 400)%Z \/ (600 <= status)%Z).
Proof.
  unfold raise_for_status. destruct (_ && _) eqn:E; [discriminate|].
  intros [= <-]. split; [done|]. apply andb_false_iff in E. lia.
Qed.

Lemma mkdir_parents_run p w r w' :
  mkdir_parents p w = (r, w') ->
  log w' = log w
  /\ (forall q, fs w' !! q = fs w !! q
        \/ (q ∈ Pathlib.ancestors p /\ fs w !! q = None /\ fs w' !! q = Some Dir)).
Proof.
  intros E. destruct (mkdir_chain_run _ _ _ _ E) as (? & ? & _). by split.
Qed.

(** a transfer that ran to its end: the mirror answered, not with an error
    status, the stream was complete, and the file holds what was sent *)
Lemma stream_to_file_ok url local_file w w' :
  stream_to_file net url local_file w = (Ok tt, w') ->
  exists status body,
    net url = Response status body Complete
    /\ ((status < 400)%Z \/ (600 <= status)%Z)
    /\ fs w' !! local_file = Some (File (mjoin body))
    /\ requests (log w') = requests (log w) ++ [url].
Proof.
  unfold stream_to_file. intros E.
  apply bind_inv in E as ([] & w1 & E1 & E).
  apply bind_inv in E as ([[status body] fin] & w2 & E2 & E).
  apply bind_inv in E as ([] & w3 & E3 & E).
  apply bind_inv in E as ([] & w4 & E4 & E).
  apply mkdir_parents_run in E1 as [L1 _].
  apply requests_get_run in E2 as (_ & L2 & N). specialize (N _ eq_refl).
  cbn in N. apply raise_for_status_ok in E3 as [-> Hs].
  apply open_wb_ok in E4 as F4. apply open_wb_touches in E4 as [L4 _].
  destruct (write_chunks_run local_file body fin w4 [] F4) as (w5 & E5 & F5).
  rewrite E in E5. destruct fin; [|discriminate]. injection E5 as <-.
  exists status, body. repeat split; try done.
  apply write_chunks_touches in E as [L5 _].
  rewrite L5, L4, L2, L1. unfold requests. by rewrite omap_app.
Qed.

(** ** Verification *)

Lemma download_and_verify_ok url local_file hash alg len w w' :
  download_and_verify hashlib net url local_file hash alg len w = (Ok tt, w') ->
  exists status body digest w'',
    net url = Response status body Complete
    /\ fs w' !! local_file = Some (File (mjoin body))
    /\ get_file_hash hashlib local_file alg w' = (Ok digest, w'')
    /\ hash = VStr digest.
Proof.
  unfold download_and_verify. intros E.
  apply bind_inv in E as ([] & w1 & E1 & E).
  apply bind_inv in E as (digest & w2 & E2 & E).
  destruct (bool_decide (VStr digest <> hash)) eqn:Hd.
  { apply bind_inv in E as (? & ? & _ & [=]). }
  injection E as <-. apply bool_decide_eq_false in Hd.
  assert (Hh : hash = VStr digest).
  { destruct (decide (VStr digest = hash)); [done|]. by destruct Hd. }
  apply stream_to_file_ok in E1 as (status & body & Hn & _ & Hf & _).
  apply get_file_hash_ok in E2 as (a & h & content & -> & Hin & Hh' & Hc & -> & ->).
  rewrite Hf in Hc. injection Hc as <-.
  exists status, body. do 2 eexists. split; [done|]. split; [done|]. split; [|done].
  by apply get_file_hash_file.
Qed.

(** X1. A normal return of [download_and_verify] means a verified file:
    the mirror answered and the stream ran to its end, the destination
    holds exactly the bytes that were sent, and the digest that
    [get_file_hash] computes from the destination is the declared
    checksum. *)
Theorem normal_return_means_verified url local_file hash alg len w w' :
  download_and_verify hashlib net url local_file hash alg len w = (Ok tt, w') ->
  exists status body digest w'',
    net url = Response status body Complete
    /\ fs w' !! local_file = Some (File (mjoin body))
    /\ get_file_hash hashlib local_file alg w' = (Ok digest, w'')
    /\ hash = VStr digest.
Proof. apply download_and_verify_ok. Qed.

Lemma download_and_verify_requests url local_file hash alg len w r w' :
  download_and_verify hashlib net url local_file hash alg len w = (r, w') ->
  quiet w w' \/ requests (log w') = requests (log w) ++ [url].
Proof.
  unfold download_and_verify, stream_to_file. intros E.
  apply bind_cases in E as [(e & E & _) | ([] & w1 & E1 & E)].
  - apply bind_cases in E as [(e' & E & _) | ([] & w0 & E0 & E)].
    + left. apply mkdir_parents_run in E as [L _]. by apply quiet_log.
    + right. apply mkdir_parents_run in E0 as [L0 _].
      apply bind_cases in E as [(e' & E & _) | ([[status body] fin] & w2 & E2 & E)].
      * apply requests_get_run in E as (_ & L & _). rewrite L, L0.
        unfold requests. by rewrite omap_app.
      * apply requests_get_run in E2 as (_ & L2 & _).
        assert (Q : quiet w2 w').
        { revert E. apply (relates_bind quiet quiet_trans).
          - apply relates_raise_for_status. apply quiet_refl.
          - intros _. apply (relates_bind quiet quiet_trans).
            + eapply relates_weaken; [apply touches_quiet|apply open_wb_touches].
            + intros _. eapply relates_weaken;
                [apply touches_quiet|apply write_chunks_touches]. }
        unfold quiet in Q. rewrite Q, L2, L0. unfold requests. by rewrite omap_app.
  - right. apply stream_to_file_ok in E1 as (_ & _ & _ & _ & _ & L1).
    assert (Q : quiet w1 w').
    { apply bind_cases in E as [(e & E & _) | (digest & w2 & E2 & E)].
      - by apply get_file_hash_run in E as [_ Q].
      - apply get_file_hash_run in E2 as [_ Q2]. eapply quiet_trans; [exact Q2|].
        destruct (bool_decide _).
        + revert E. apply (relates_bind quiet quiet_trans).
          * eapply relates_weaken; [apply touches_quiet|apply unlink_touches].
          * intros _. apply relates_raise. apply quiet_refl.
        + injection E as _ <-. apply quiet_refl. }
    unfold quiet in Q. by rewrite Q, L1.
Qed.

Lemma stream_to_file_beside url local_file :
  relates (beside local_file (Pathlib.ancestors (Pathlib.parent local_file)))
          (stream_to_file net url local_file).
Proof.
  set (R := beside local_file (Pathlib.ancestors (Pathlib.parent local_file))).
  assert (Rt : forall a b c, R a b -> R b c -> R a c) by apply beside_trans.
  assert (Rr : forall a, R a a) by apply beside_refl.
  unfold stream_to_file. apply (relates_bind R Rt).
  { intros w r w' E. apply mkdir_parents_run in E as [_ F]. intros q _. apply F. }
  intros _. apply (relates_bind R Rt).
  { intros w r w' E. apply requests_get_run in E as (F & _). by apply beside_fs. }
  intros [[status body] fin]. apply (relates_bind R Rt).
  { by apply relates_raise_for_status. }
  intros _. apply (relates_bind R Rt).
  { eapply relates_weaken; [apply touches_beside|apply open_wb_touches]. }
  intros _. eapply relates_weaken; [apply touches_beside|apply write_chunks_touches].
Qed.

Lemma download_and_verify_beside url local_file hash alg len :
  relates (beside local_file (Pathlib.ancestors (Pathlib.parent local_file)))
          (download_and_verify hashlib net url local_file hash alg len).
Proof.
  set (R := beside local_file (Pathlib.ancestors (Pathlib.parent local_file))).
  assert (Rt : forall a b c, R a b -> R b c -> R a c) by apply beside_trans.
  assert (Rr : forall a, R a a) by apply beside_refl.
  unfold download_and_verify. apply (relates_bind R Rt).
  { apply stream_to_file_beside. }
  intros _. apply (relates_bind R Rt).
  { intros w r w' E. apply get_file_hash_run in E as [F _]. by apply beside_fs. }
  intros digest. destruct (bool_decide _); [|by apply relates_ret].
  apply (relates_bind R Rt).
  { eapply relates_weaken; [apply touches_beside|apply unlink_touches]. }
  intros _. by apply relates_raise.
Qed.

Lemma getitem_inv (d : gmap string value) k w v w' :
  getitem d k w = (Ok v, w') -> d !! k = Some v /\ w' = w.
Proof. unfold getitem. destruct (d !! k); [|discriminate]. by intros [= -> ->]. Qed.

Lemma getitem_same (d : gmap string value) k w r w' :
  getitem d k w = (r, w') -> w' = w.
Proof. unfold getitem. destruct (d !! k); by intros [= _ ->]. Qed.

(** the loop over the links, when it returns: there was no link, or the
    first link was downloaded and verified *)
Lemma try_links_ok (info : gmap string value) local_file urls w w' :
  try_links hashlib net info local_file urls w = (Ok tt, w') ->
  (urls = [] /\ w' = w)
  \/ exists url rest checksum checksum_type size,
       urls = url :: rest
       /\ info !! "checksum" = Some checksum
       /\ info !! "checksum_type" = Some checksum_type
       /\ info !! "size" = Some size
       /\ download_and_verify hashlib net url local_file checksum checksum_type
                              size w = (Ok tt, w').
Proof.
  destruct urls as [|url rest]; [intros [= <-]; by left|].
  cbn [try_links]. intros E. right.
  apply bind_inv in E as (c & w1 & E1 & E). apply getitem_inv in E1 as [H1 ->].
  apply bind_inv in E as (ct & w1 & E2 & E). apply getitem_inv in E2 as [H2 ->].
  apply bind_inv in E as (sz & w1 & E3 & E). apply getitem_inv in E3 as [H3 ->].
  apply bind_inv in E as ([] & w1 & E4 & E).
  destruct (download_and_verify_ok _ _ _ _ _ _ _ E4)
    as (status & body & digest & w2 & _ & Hf & _).
  rewrite (bind_ok _ _ _ _ _ (exists_present local_file w1 (mk_is_Some _ _ Hf))) in E.
  injection E as <-. by exists url, rest, c, ct, sz.
Qed.

Lemma try_links_requests (info : gmap string value) local_file urls w r w' :
  try_links hashlib net info local_file urls w = (r, w') ->
  quiet w w'
  \/ exists url, head urls = Some url
                 /\ requests (log w') = requests (log w) ++ [url].
Proof.
  destruct urls as [|url rest]; [intros [= _ <-]; by left|].
  cbn [try_links]. intros E.
  apply bind_cases in E as [(e & E & _) | (c & w1 & E1 & E)].
  { apply getitem_same in E as ->. by left. }
  apply getitem_same in E1 as ->.
  apply bind_cases in E as [(e & E & _) | (ct & w1 & E1 & E)].
  { apply getitem_same in E as ->. by left. }
  apply getitem_same in E1 as ->.
  apply bind_cases in E as [(e & E & _) | (sz & w1 & E1 & E)].
  { apply getitem_same in E as ->. by left. }
  apply getitem_same in E1 as ->.
  apply bind_cases in E as [(e & E & _) | ([] & w1 & E1 & E)].
  - apply download_and_verify_requests in E as [Q|Q]; [by left|right].
    by exists url.
  - destruct (download_and_verify_ok _ _ _ _ _ _ _ E1)
      as (status & body & digest & w2 & _ & Hf & _).
    rewrite (bind_ok _ _ _ _ _ (exists_present local_file w1 (mk_is_Some _ _ Hf))) in E.
    injection E as _ <-.
    apply download_and_verify_requests in E1 as [Q|Q]; [by left|right].
    by exists url.
Qed.

Lemma try_links_beside (info : gmap string value) local_file urls :
  relates (beside local_file (Pathlib.ancestors (Pathlib.parent local_file)))
          (try_links hashlib net info local_file urls).
Proof.
  set (R := beside local_file (Pathlib.ancestors (Pathlib.parent local_file))).
  assert (Rt : forall a b c, R a b -> R b c -> R a c) by apply beside_trans.
  assert (Rr : forall a, R a a) by apply beside_refl.
  induction urls as [|url urls IH]; [by apply relates_ret|].
  cbn [try_links].
  apply (relates_bind R Rt); [by apply relates_getitem|]. intros c.
  apply (relates_bind R Rt); [by apply relates_getitem|]. intros ct.
  apply (relates_bind R Rt); [by apply relates_getitem|]. intros sz.
  apply (relates_bind R Rt); [apply download_and_verify_beside|]. intros _.
  apply (relates_bind R Rt); [by apply relates_exists|]. intros found.
  destruct found; [by apply relates_ret|exact IH].
Qed.

(** X3. A request that fails before any byte arrives, because the
    connection is refused or the status is in 400..599, raises
    [ConnectionError] or the [HTTPError] of the status, and the entry at
    the destination is as it was: no file is created or truncated. *)
Theorem failed_request_leaves_destination url local_file hash alg len w w1 :
  mkdir_parents (Pathlib.parent local_file) w = (Ok tt, w1) ->
  (net url = Refused ->
   exists w',
     download_and_verify hashlib net url local_file hash alg len w
     = (Raise ConnectionError, w')
     /\ fs w' !! local_file = fs w !! local_file)
  /\ (forall status body fin,
        net url = Response status body fin ->
        (400 <= status < 600)%Z ->
        exists w',
          download_and_verify hashlib net url local_file hash alg len w
          = (Raise (HTTPError status), w')
          /\ fs w' !! local_file = fs w !! local_file).
Proof.
  intros Hm.
  assert (Hf : fs w1 !! local_file = fs w !! local_file).
  { apply mkdir_parents_run in Hm as [_ F].
    destruct (F local_file) as [?|(Hin & _)]; [done|].
    by destruct (not_own_ancestor local_file). }
  set (w2 := mkWorld (fs w1) (log w1 ++ [EvRequest url])).
  split.
  - intros Hn. exists w2. split; [|exact Hf].
    assert (Hg : requests_get net url w1 = (Raise ConnectionError, w2)).
    { unfold requests_get. rewrite (bind_ok (emit _) _ w1 tt _ eq_refl).
      by rewrite Hn. }
    unfold download_and_verify, stream_to_file.
    apply bind_raise. rewrite (bind_ok _ _ _ _ _ Hm). by apply bind_raise.
  - intros status body fin Hn Hs. exists w2. split; [|exact Hf].
    assert (Hg : requests_get net url w1 = (Ok (status, body, fin), w2)).
    { unfold requests_get. rewrite (bind_ok (emit _) _ w1 tt _ eq_refl).
      by rewrite Hn. }
    assert (Hr : raise_for_status status w2 = (Raise (HTTPError status), w2)).
    { unfold raise_for_status.
      replace ((400 <=? status)%Z && (status <? 600)%Z) with true; [done|].
      symmetry. apply andb_true_iff. lia. }
    unfold download_and_verify, stream_to_file.
    apply bind_raise. rewrite (bind_ok _ _ _ _ _ Hm).
    rewrite (bind_ok _ _ _ _ _ Hg). by apply bind_raise.
Qed.

(** X4. The checksum type is looked at only after the transfer.  When it is
    not a string, or names an algorithm that is not available,
    [download_and_verify] raises [AttributeError] or [AssertionError] and
    the downloaded, unverified file stays at the destination. *)
Theorem unusable_algorithm_keeps_unverified_file url local_file hash alg len
    w w1 :
  stream_to_file net url local_file w = (Ok tt, w1) ->
  (forall a, alg = VStr a -> Str.lower a ∉ algorithms_available hashlib) ->
  download_and_verify hashlib net url local_file hash alg len w
  = (Raise (match alg with VStr _ => AssertionError | _ => AttributeError end),
     w1)
  /\ exists status body,
       net url = Response status body Complete
       /\ fs w1 !! local_file = Some (File (mjoin body)).
Proof.
  intros Hs Ha. split.
  - unfold download_and_verify. rewrite (bind_ok _ _ _ _ _ Hs).
    erewrite bind_raise; [reflexivity|].
    unfold get_file_hash. destruct alg as [a| | |]; try reflexivity.
    rewrite (bind_ok _ _ w1 (Str.lower a) w1 eq_refl).
    rewrite bool_decide_eq_false_2; [done|]. by apply Ha.
  - apply stream_to_file_ok in Hs as (status & body & Hn & _ & Hf & _). eauto.
Qed.

(** ** One task *)

Lemma pure_same {A} (m : M A) w r w' :
  (forall w, (m w).2 = w) -> m w = (r, w') -> w' = w.
Proof. intros H E. specialize (H w). by rewrite E in H. Qed.

Lemma getitem_pure (d : gmap string value) k w : (getitem d k w).2 = w.
Proof. unfold getitem. by destruct (d !! k). Qed.

Lemma iter_pure v w : (iter v w).2 = w.
Proof. by destruct v. Qed.

Lemma lift_pure {A} (r : result A) w : (lift r w).2 = w.
Proof. done. Qed.

Lemma exists_pure p w : (exists_ p w).2 = w.
Proof. done. Qed.

Lemma cache_or_download_beside (info : gmap string value) local_cache path rel :
  info !! "path" = Some path ->
  Pathlib.of_value path = Ok rel ->
  relates (beside (local_cache // rel)
                  (Pathlib.ancestors (Pathlib.parent (local_cache // rel))))
          (cache_or_download hashlib net info local_cache).
Proof.
  intros Hp Hrel.
  set (R := beside _ _).
  assert (Rt : forall a b c, R a b -> R b c -> R a c) by apply beside_trans.
  assert (Rr : forall a, R a a) by apply beside_refl.
  intros w r w'. unfold cache_or_download.
  rewrite (bind_ok _ _ _ _ _ (getitem_ok _ _ _ w Hp)).
  rewrite Hrel. rewrite (bind_ok _ _ w rel w (lift_run _ _)).
  apply (relates_bind R Rt); [by apply relates_exists|]. intros found.
  destruct found.
  - apply (relates_bind R Rt); [by apply relates_getitem|]. intros k.
    by apply relates_ret.
  - apply (relates_bind R Rt); [by apply relates_getitem|]. intros links.
    apply (relates_bind R Rt); [by apply relates_iter|]. intros urls.
    apply (relates_bind R Rt); [apply try_links_beside|]. intros _.
    apply (relates_bind R Rt); [by apply relates_getitem|]. intros k.
    by apply relates_ret.
Qed.

(** X5. Whatever [parallel_download] does and however it ends, every path
    other than the destination in the cache is left as it was, except that
    missing parent directories of the destination may have been created.
    Paths are told apart by their components, so the destination and the
    other path are taken without [..] components and of the same
    anchoring. *)
Theorem only_the_destination_changes (info : gmap string value) local_cache
    esg_dataroot w r w' path rel :
  info !! "path" = Some path ->
  Pathlib.of_value path = Ok rel ->
  literal (local_cache // rel) ->
  parallel_download hashlib net info local_cache esg_dataroot w = (r, w') ->
  forall q,
    literal q ->
    is_absolute q = is_absolute (local_cache // rel) ->
    q <> local_cache // rel ->
    fs w' !! q = fs w !! q
    \/ (q ∈ Pathlib.ancestors (Pathlib.parent (local_cache // rel))
        /\ fs w !! q = None /\ fs w' !! q = Some Dir).
Proof.
  intros Hp Hrel _ E q _ _. revert q.
  change (beside (local_cache // rel)
    (Pathlib.ancestors (Pathlib.parent (local_cache // rel))) w w').
  destruct esg_dataroot as [root|]; cbn [parallel_download] in E.
  - rewrite (bind_ok _ _ _ _ _ (getitem_ok _ _ _ w Hp)) in E.
    rewrite Hrel in E. rewrite (bind_ok _ _ w rel w (lift_run _ _)) in E.
    rewrite (bind_ok _ _ _ _ _ (exists_run _ w)) in E.
    destruct (bool_decide _).
    + apply bind_cases in E as [(e & E & _) | (k & w1 & E1 & E)].
      * apply getitem_same in E as ->. apply beside_refl.
      * apply getitem_same in E1 as ->. injection E as _ <-. apply beside_refl.
    + by eapply cache_or_download_beside.
  - by eapply cache_or_download_beside.
Qed.

Lemma cache_or_download_requests (info : gmap string value) local_cache urls
    w r w' :
  info !! "HTTPServer" = Some (VList urls) ->
  cache_or_download hashlib net info local_cache w = (r, w') ->
  quiet w w'
  \/ exists url, head urls = Some url
                 /\ requests (log w') = requests (log w) ++ [url].
Proof.
  intros Hl E. unfold cache_or_download in E.
  apply bind_cases in E as [(e & E & _) | (path & w1 & E1 & E)].
  { apply getitem_same in E as ->. by left. }
  apply getitem_same in E1 as ->.
  apply bind_cases in E as [(e & E & _) | (rel & w1 & E1 & E)].
  { injection E as _ <-. by left. }
  injection E1 as _ <-.
  rewrite (bind_ok _ _ _ _ _ (exists_run _ w)) in E.
  destruct (bool_decide _).
  - apply bind_cases in E as [(e & E & _) | (k & w1 & E1 & E)].
    + apply getitem_same in E as ->. by left.
    + apply getitem_same in E1 as ->. injection E as _ <-. by left.
  - rewrite (bind_ok _ _ _ _ _ (getitem_ok _ _ _ w Hl)) in E.
    rewrite (bind_ok _ _ w urls w eq_refl) in E.
    apply bind_cases in E as [(e & E & _) | ([] & w1 & E1 & E)].
    + by apply try_links_requests in E.
    + apply try_links_requests in E1.
      apply bind_cases in E as [(e & E & _) | (k & w2 & E2 & E)].
      * by apply getitem_same in E as ->.
      * apply getitem_same in E2 as ->. by injection E as _ <-.
Qed.

(** X6. One call of [parallel_download] sends at most one request, and
    only to the first link of the list: no run of the loop over the links
    reaches its second iteration. *)
Theorem at_most_the_first_link_is_requested (info : gmap string value)
    local_cache esg_dataroot urls w r w' :
  info !! "HTTPServer" = Some (VList urls) ->
  parallel_download hashlib net info local_cache esg_dataroot w = (r, w') ->
  requests (log w') = requests (log w)
  \/ exists url, head urls = Some url
                 /\ requests (log w') = requests (log w) ++ [url].
Proof.
  intros Hl E. destruct esg_dataroot as [root|]; cbn [parallel_download] in E;
    [|by eapply cache_or_download_requests].
  apply bind_cases in E as [(e & E & _) | (path & w1 & E1 & E)].
  { apply getitem_same in E as ->. by left. }
  apply getitem_same in E1 as ->.
  apply bind_cases in E as [(e & E & _) | (rel & w1 & E1 & E)].
  { injection E as _ <-. by left. }
  injection E1 as _ <-.
  rewrite (bind_ok _ _ _ _ _ (exists_run _ w)) in E.
  destruct (bool_decide _); [|by eapply cache_or_download_requests].
  apply bind_cases in E as [(e & E & _) | (k & w1 & E1 & E)].
  - apply getitem_same in E as ->. by left.
  - apply getitem_same in E1 as ->. injection E as _ <-. by left.
Qed.

Lemma cache_or_download_new (info : gmap string value) local_cache w k p w' :
  cache_or_download hashlib net info local_cache w = (Ok (k, p), w') ->
  fs w !! p = None ->
  w' = w
  \/ exists links url checksum checksum_type size,
       info !! "HTTPServer" = Some links
       /\ head (default [] (match links with
                            | VList l => Some l
                            | VStr s => Some (Str.chars s)
                            | _ => None
                            end)) = Some url
       /\ info !! "checksum" = Some checksum
       /\ info !! "checksum_type" = Some checksum_type
       /\ info !! "size" = Some size
       /\ download_and_verify hashlib net url p checksum checksum_type size w
          = (Ok tt, w').
Proof.
  unfold cache_or_download. intros E Hp.
  apply bind_inv in E as (path & w1 & E1 & E). apply getitem_inv in E1 as [_ ->].
  apply bind_inv in E as (rel & w1 & E1 & E). injection E1 as _ <-.
  rewrite (bind_ok _ _ _ _ _ (exists_run _ w)) in E.
  destruct (bool_decide _) eqn:Hex.
  - apply bind_inv in E as (k' & w1 & E1 & E). apply getitem_inv in E1 as [_ ->].
    injection E as _ _ <-. by left.
  - apply bind_inv in E as (links & w1 & E1 & E). apply getitem_inv in E1 as [Hl ->].
    apply bind_inv in E as (urls & w1 & E1 & E).
    apply bind_inv in E as ([] & w2 & E2 & E).
    apply bind_inv in E as (k' & w3 & E3 & E). apply getitem_inv in E3 as [_ ->].
    injection E as _ <- <-.
    assert (w1 = w) as -> by (eapply pure_same; [apply iter_pure|exact E1]).
    apply try_links_ok in E2 as [[_ ->] | (url & rest & c & ct & sz & -> & ? & ? & ? & ?)];
      [by left|right].
    exists links, url, c, ct, sz. repeat split; try done.
    destruct links; try discriminate; by injection E1 as ->.
Qed.

(** X7. When [parallel_download] returns a path at which there was nothing
    before the call, then either nothing happened at all (the list of links
    was empty), or the path now holds a file whose digest, computed by
    [get_file_hash] with the declared checksum type, is the declared
    checksum. *)
Theorem new_file_is_verified (info : gmap string value) local_cache
    esg_dataroot w key p w' :
  parallel_download hashlib net info local_cache esg_dataroot w
  = (Ok (key, p), w') ->
  fs w !! p = None ->
  w' = w
  \/ exists checksum checksum_type content digest w'',
       info !! "checksum" = Some checksum
       /\ info !! "checksum_type" = Some checksum_type
       /\ fs w' !! p = Some (File content)
       /\ get_file_hash hashlib p checksum_type w' = (Ok digest, w'')
       /\ checksum = VStr digest.
Proof.
  intros E Hp.
  assert (C : cache_or_download hashlib net info local_cache w = (Ok (key, p), w')).
  { destruct esg_dataroot as [root|]; cbn [parallel_download] in E; [|done].
    apply bind_inv in E as (path & w1 & E1 & E). apply getitem_inv in E1 as [_ ->].
    apply bind_inv in E as (rel & w1 & E1 & E). injection E1 as _ <-.
    rewrite (bind_ok _ _ _ _ _ (exists_run _ w)) in E.
    destruct (bool_decide _) eqn:Hex; [|done].
    apply bind_inv in E as (k' & w1 & E1 & E). injection E as _ <- _.
    apply bool_decide_eq_true in Hex. rewrite Hp in Hex. by destruct Hex. }
  destruct (cache_or_download_new _ _ _ _ _ _ C Hp)
    as [->|(links & url & c & ct & sz & _ & _ & Hc & Hct & _ & D)]; [by left|].
  right.
  apply download_and_verify_ok in D
    as (status & body & digest & w'' & _ & Hf & Hh & ->).
  by exists (VStr digest), ct, (mjoin body), digest, w''.
Qed.

(** ** The digest of a file *)

Lemma CHUNK_pos : 0 < CHUNK.
Proof. with_strategy transparent [CHUNK] (unfold CHUNK). lia. Qed.

Lemma hash_loop_whole h : streaming h ->
  forall fuel data sha,
    length data < fuel -> hash_loop h fuel data sha = hupdate h sha data.
Proof.
  intros [Hnil Happ]. induction fuel as [|fuel IH]; intros data sha Hlen; [lia|].
  cbn [hash_loop]. pose proof CHUNK_pos as Hpos.
  destruct (take CHUNK data) as [|b chunk] eqn:Et.
  - destruct data as [|x data]; [by rewrite Hnil|].
    destruct CHUNK; [lia|discriminate].
  - rewrite IH.
    + rewrite <- Happ, <- Et. by rewrite take_drop.
    + rewrite length_drop. destruct data; [by rewrite take_nil in Et|].
      cbn [length] in *. lia.
Qed.


Lemma lower_char_idemp c : Str.lower_char (Str.lower_char c) = Str.lower_char c.
Proof. destruct c as [[] [] [] [] [] [] [] []]; reflexivity. Qed.

Lemma lower_idemp s : Str.lower (Str.lower s) = Str.lower s.
Proof.
  induction s as [|c s IH]; [done|]. cbn. by rewrite lower_char_idemp, IH.
Qed.

(** X9. The name of the algorithm is taken without regard to case: a name
    and its lower-case form give the same result, in the same world. *)
Theorem algorithm_name_ignores_case p a w :
  get_file_hash hashlib p (VStr (Str.lower a)) w
  = get_file_hash hashlib p (VStr a) w.
Proof. unfold get_file_hash. by rewrite lower_idemp. Qed.

(** X2. A mirror that answers without an error status and sends, to the
    end, the bytes whose digest is the declared checksum is accepted:
    [download_and_verify] returns normally and the destination holds these
    bytes, whatever file was there before. *)
Theorem matching_mirror_is_accepted url local_file a h status body len w w1 :
  mkdir_parents (Pathlib.parent local_file) w = (Ok tt, w1) ->
  fs w1 !! local_file <> Some Dir ->
  net url = Response status body Complete ->
  ((status < 400)%Z \/ (600 <= status)%Z) ->
  Str.lower a ∈ algorithms_available hashlib ->
  hashlib_dict hashlib (Str.lower a) = Some h ->
  streaming h ->
  exists w',
    download_and_verify hashlib net url local_file
                        (VStr (digest_of h (mjoin body))) (VStr a) len w
    = (Ok tt, w')
    /\ fs w' !! local_file = Some (File (mjoin body)).
Proof.
  intros Hm Hd Hn Hs Hin Hh Hst.
  set (w2 := mkWorld (fs w1) (log w1 ++ [EvRequest url])).
  set (w3 := mkWorld (<[local_file := File []]> (fs w2)) (log w2)).
  assert (Hg : requests_get net url w1 = (Ok (status, body, Complete), w2)).
  { unfold requests_get. rewrite (bind_ok (emit _) _ w1 tt _ eq_refl).
    by rewrite Hn. }
  assert (Hr : raise_for_status status w2 = (Ok tt, w2)).
  { unfold raise_for_status.
    replace ((400 <=? status)%Z && (status <? 600)%Z) with false; [done|].
    symmetry. apply andb_false_iff. lia. }
  assert (Ho : open_wb local_file w2 = (Ok tt, w3)).
  { unfold open_wb, mbind, M_bind, get_fs, put_fs. cbn [fs w2].
    by destruct (fs w1 !! local_file) as [[c|]|]. }
  destruct (write_chunks_run local_file body Complete w3 [])
    as (w4 & Hw & Hf); [apply lookup_insert_eq|]. cbn [app] in Hf.
  assert (Hst' : stream_to_file net url local_file w = (Ok tt, w4)).
  { unfold stream_to_file. rewrite (bind_ok _ _ _ _ _ Hm).
    rewrite (bind_ok _ _ _ _ _ Hg). rewrite (bind_ok _ _ _ _ _ Hr).
    by rewrite (bind_ok _ _ _ _ _ Ho). }
  eexists. split.
  - unfold download_and_verify. rewrite (bind_ok _ _ _ _ _ Hst').
    rewrite (bind_ok _ _ _ _ _ (get_file_hash_file local_file a h _ w4 Hin Hh Hf)).
    rewrite hash_loop_whole by (done || lia).
    rewrite bool_decide_eq_false_2; [reflexivity|]. intros Hne. by apply Hne.
  - exact Hf.
Qed.

End WithEnvironment.

Import Fixtures Scenarios.

Lemma normal_return_means_verified_witness :
  let w' := (download_and_verify hashlib net "https://b.example/tas.nc"
               (cache // rel) (VStr "ok") (VStr "ECHO") (VInt 2) empty_world).2 in
  exists status body digest w'',
    net "https://b.example/tas.nc" = Response status body Complete
    /\ fs w' !! (cache // rel) = Some (File (mjoin body))
    /\ get_file_hash hashlib (cache // rel) (VStr "ECHO") w' = (Ok digest, w'')
    /\ VStr "ok" = VStr digest.
Proof.
  apply (normal_return_means_verified hashlib net "https://b.example/tas.nc"
           (cache // rel) (VStr "ok") (VStr "ECHO") (VInt 2) empty_world).
  apply run_eta. vm_compute. reflexivity.
Defined.

Lemma failed_request_leaves_destination_witness :
  (exists w',
     download_and_verify hashlib outage "https://b.example/tas.nc"
       (cache // rel) (VStr "ok") (VStr "ECHO") (VInt 2) in_cache
     = (Raise ConnectionError, w')
     /\ fs w' !! (cache // rel) = fs in_cache !! (cache // rel))
  /\ (exists w',
        download_and_verify hashlib outage "https://a.example/tas.nc"
          (cache // rel) (VStr "ok") (VStr "ECHO") (VInt 2) in_cache
        = (Raise (HTTPError 503), w')
        /\ fs w' !! (cache // rel) = fs in_cache !! (cache // rel)).
Proof.
  split.
  - apply (proj1 (failed_request_leaves_destination hashlib outage
                    "https://b.example/tas.nc" (cache // rel) (VStr "ok")
                    (VStr "ECHO") (VInt 2) in_cache
                    (mkdir_parents (Pathlib.parent (cache // rel)) in_cache).2
                    ltac:(apply run_eta; vm_compute; reflexivity))).
    reflexivity.
  - apply (proj2 (failed_request_leaves_destination hashlib outage
                    "https://a.example/tas.nc" (cache // rel) (VStr "ok")
                    (VStr "ECHO") (VInt 2) in_cache
                    (mkdir_parents (Pathlib.parent (cache // rel)) in_cache).2
                    ltac:(apply run_eta; vm_compute; reflexivity)) 503%Z [] Complete).
    + reflexivity.
    + lia.
Defined.

Lemma unusable_algorithm_keeps_unverified_file_witness :
  let w1 := (stream_to_file net "https://b.example/tas.nc" (cache // rel)
               empty_world).2 in
  download_and_verify hashlib net "https://b.example/tas.nc" (cache // rel)
                      (VStr "ok") (VStr "md5") (VInt 2) empty_world
  = (Raise AssertionError, w1)
  /\ exists status body,
       net "https://b.example/tas.nc" = Response status body Complete
       /\ fs w1 !! (cache // rel) = Some (File (mjoin body)).
Proof.
  apply (unusable_algorithm_keeps_unverified_file hashlib net
           "https://b.example/tas.nc" (cache // rel) (VStr "ok") (VStr "md5")
           (VInt 2) empty_world).
  - apply run_eta. vm_compute. reflexivity.
  - intros a [= <-]. apply (bool_decide_unpack _). vm_compute. exact I.
Defined.

Lemma only_the_destination_changes_witness :
  let w' := (parallel_download hashlib net (task ["https://b.example/tas.nc"])
               cache (Some dataroot) in_cache_elsewhere).2 in
  let q := dataroot // mkPath false ["CMIP6"; "pr.nc"] in
  fs w' !! q = fs in_cache_elsewhere !! q
  \/ (q ∈ Pathlib.ancestors (Pathlib.parent (cache // rel))
      /\ fs in_cache_elsewhere !! q = None /\ fs w' !! q = Some Dir).
Proof.
  apply (only_the_destination_changes hashlib net
           (task ["https://b.example/tas.nc"]) cache (Some dataroot)
           in_cache_elsewhere
           (parallel_download hashlib net (task ["https://b.example/tas.nc"])
              cache (Some dataroot) in_cache_elsewhere).1
           _ (VPath rel) rel eq_refl eq_refl).
  - apply (bool_decide_unpack _). vm_compute. exact I.
  - apply surjective_pairing.
  - apply (bool_decide_unpack _). vm_compute. exact I.
  - reflexivity.
  - discriminate.
Defined.

Lemma at_most_the_first_link_is_requested_witness :
  let urls := ["https://c.example/tas.nc"; "https://b.example/tas.nc"] in
  let w' := (parallel_download hashlib net (task urls) cache None empty_world).2 in
  requests (log w') = requests (log empty_world)
  \/ exists url, head urls = Some url
                 /\ requests (log w') = requests (log empty_world) ++ [url].
Proof.
  apply (at_most_the_first_link_is_requested hashlib net
           (task ["https://c.example/tas.nc"; "https://b.example/tas.nc"])
           cache None
           ["https://c.example/tas.nc"; "https://b.example/tas.nc"] empty_world
           (parallel_download hashlib net
              (task ["https://c.example/tas.nc"; "https://b.example/tas.nc"])
              cache None empty_world).1).
  - reflexivity.
  - apply surjective_pairing.
Defined.

Lemma new_file_is_verified_witness :
  let w' := (parallel_download hashlib net (task ["https://b.example/tas.nc"])
               cache None empty_world).2 in
  w' = empty_world
  \/ exists checksum checksum_type content digest w'',
       task ["https://b.example/tas.nc"] !! "checksum" = Some checksum
       /\ task ["https://b.example/tas.nc"] !! "checksum_type" = Some checksum_type
       /\ fs w' !! (cache // rel) = Some (File content)
       /\ get_file_hash hashlib (cache // rel) checksum_type w' = (Ok digest, w'')
       /\ checksum = VStr digest.
Proof.
  apply (new_file_is_verified hashlib net (task ["https://b.example/tas.nc"])
           cache None empty_world (VStr "tas") (cache // rel)).
  - apply run_eta. vm_compute. reflexivity.
  - reflexivity.
Defined.

Lemma echo_streaming : streaming echo.
Proof.
  split; intros; cbn; [apply app_nil_r|apply app_assoc].
Qed.


Lemma matching_mirror_is_accepted_witness :
  exists w',
    download_and_verify hashlib net "https://b.example/tas.nc" (cache // rel)
                        (VStr (digest_of echo (mjoin [good]))) (VStr "ECHO")
                        (VInt 2) in_cache
    = (Ok tt, w')
    /\ fs w' !! (cache // rel) = Some (File (mjoin [good])).
Proof.
  apply (matching_mirror_is_accepted hashlib net "https://b.example/tas.nc"
           (cache // rel) "ECHO" echo 200%Z [good] (VInt 2) in_cache
           (mkdir_parents (Pathlib.parent (cache // rel)) in_cache).2).
  - apply run_eta. vm_compute. reflexivity.
  - vm_compute. discriminate.
  - reflexivity.
  - lia.
  - apply (bool_decide_unpack _). vm_compute. exact I.
  - reflexivity.
  - apply echo_streaming.
Defined.

End EffectsFacts.

Module MergerOrderFacts.
Import Merger MergerFacts MergerOrder.

Lemma foldl_see_NoDup (ps : list value) : forall seen,
  NoDup seen -> NoDup (foldl see seen ps).
Proof.
  induction ps as [|p ps IH]; intros seen Hnd; [done|]. cbn [foldl].
  apply IH. unfold see. destruct (decide (p ∈ seen)); [done|].
  apply NoDup_app. split; [done|]. split; [|apply NoDup_singleton].
  intros x Hx Hx'. apply list_elem_of_singleton in Hx' as ->. done.
Qed.

Lemma foldl_see_elem (ps : list value) : forall seen x,
  x ∈ foldl see seen ps <-> x ∈ seen \/ x ∈ ps.
Proof.
  induction ps as [|p ps IH]; intros seen x; cbn [foldl].
  - split; [by left|]. intros [?|H]; [done|]. by apply elem_of_nil in H.
  - rewrite IH, elem_of_cons. unfold see.
    destruct (decide (p ∈ seen)) as [Hin|Hnin].
    + split; [intros [?|?]; auto|]. intros [?|[->|?]]; auto.
    + rewrite elem_of_app, list_elem_of_singleton.
      split; [intros [[?|?]|?]; auto|]. intros [?|[?|?]]; auto.
Qed.

Lemma add_info_run (merged : Merged) (e : Info) p :
  well_formed merged ->
  typed e ->
  e !! "path" = Some p ->
  add_info merged e
  = Ok (store_path p (merge_maps (default ∅ (lookup_path p merged)) e)
                   (ensure_path p merged)).
Proof.
  intros [Hnd Hwf] He Hp.
  pose proof (path_is_scalar _ _ He Hp) as Hsc.
  set (m0 := default ∅ (lookup_path p merged)).
  assert (Hm0 : typed m0).
  { unfold m0. destruct (lookup_path p merged) as [m|] eqn:E; cbn.
    - by apply (Hwf p m).
    - apply typed_empty. }
  unfold add_info. rewrite Hp. destruct p; try discriminate;
    rewrite lookup_ensure, decide_True by done; cbn [default];
    fold m0; unfold id; by rewrite (merge_record_spec m0 e Hm0 He).
Qed.

Lemma add_info_keys (merged : Merged) (e : Info) p :
  well_formed merged ->
  typed e ->
  e !! "path" = Some p ->
  exists merged',
    add_info merged e = Ok merged'
    /\ well_formed merged'
    /\ merged'.*1 = see merged.*1 p.
Proof.
  intros Hwf He Hp.
  destruct (add_info_spec merged e p Hwf He Hp) as (m1 & H1 & Hwf1 & _).
  exists m1. split; [done|]. split; [done|].
  rewrite (add_info_run merged e p Hwf He Hp) in H1. injection H1 as <-.
  destruct Hwf as [Hnd _].
  destruct (ensure_path_keys p merged Hnd) as [_ Hin].
  rewrite store_path_keys by done.
  unfold ensure_path, see.
  destruct (lookup_path p merged) as [m|] eqn:E.
  - rewrite decide_True; [done|].
    destruct (decide (p ∈ merged.*1)) as [?|Hn]; [done|].
    apply lookup_path_None in Hn. congruence.
  - apply lookup_path_None in E. rewrite decide_False by done.
    by rewrite fmap_app.
Qed.

Lemma add_infos_keys (es : list Info) : forall merged : Merged,
  well_formed merged ->
  Forall file_record es ->
  exists merged',
    foldM add_info merged es = Ok merged'
    /\ well_formed merged'
    /\ merged'.*1 = foldl see merged.*1 (paths es).
Proof.
  induction es as [|e es IH]; intros merged Hwf Hes.
  - by exists merged.
  - apply Forall_cons in Hes as [[He Hsc] Hes].
    assert (Hp : is_Some (e !! "path")).
    { eapply Forall_forall in Hsc; [exact Hsc|]. unfold SCALARS. set_solver. }
    destruct Hp as [p Hp].
    destruct (add_info_keys merged e p Hwf He Hp) as (m1 & H1 & Hwf1 & K1).
    destruct (IH m1 Hwf1 Hes) as (m2 & H2 & Hwf2 & K2).
    exists m2. split; [|split; [done|]].
    + cbn [foldM]. rewrite H1. exact H2.
    + rewrite K2, K1. unfold paths. cbn [omap list_omap]. by rewrite Hp.
Qed.

Lemma well_formed_paths (merged : Merged) :
  well_formed merged ->
  (fun m : Info => m !! "path") <$> merged.*2 = Some <$> merged.*1.
Proof.
  induction merged as [|[p m] merged IH]; intros Hwf; [done|].
  apply well_formed_cons in Hwf as (Hwf & _ & Hp). cbn.
  rewrite Hp. f_equal. by apply IH.
Qed.

Lemma well_formed_nil : well_formed [].
Proof. split; [constructor|]. by intros q m [=]. Qed.

(** X10. When every source answers or fails with the protocol error, and
    the records are file records, the output holds exactly one record for
    every path that occurs among the records, and these records stand in
    the order in which their paths are first seen. *)
Theorem one_record_per_path_in_order_of_first_appearance
    (indices : list Index) (dataset_ids : list string) :
  Forall (fun ind : Index =>
            forall e, ind dataset_ids = Raise e -> e = EsgfSearchException) indices ->
  Forall file_record (entries indices dataset_ids) ->
  let seen := first_seen (paths (entries indices dataset_ids)) in
  exists out,
    combine_file_info indices dataset_ids = Ok out
    /\ (fun m : Info => m !! "path") <$> out = Some <$> seen
    /\ NoDup seen
    /\ (forall p, p ∈ seen <-> p ∈ paths (entries indices dataset_ids)).
Proof.
  intros Hsrc Hrec seen.
  destruct (add_infos_keys _ [] well_formed_nil Hrec) as (merged & Hrun & Hwf & K).
  exists (merged.*2). split; [|split; [|split]].
  - unfold combine_file_info. rewrite add_indices_spec by done. by rewrite Hrun.
  - rewrite well_formed_paths by done. by rewrite K.
  - apply foldl_see_NoDup. constructor.
  - intros p. unfold seen, first_seen. rewrite foldl_see_elem.
    split; [intros [H|?]; [by apply elem_of_nil in H|done]|by right].
Qed.

Lemma store_path_fresh p m m0 (merged : Merged) :
  p ∉ merged.*1 ->
  store_path p m (merged ++ [(p, m0)]) = merged ++ [(p, m)].
Proof.
  induction merged as [|[p' m'] merged IH]; cbn.
  - intros _. by rewrite decide_True.
  - intros Hn. apply not_elem_of_cons in Hn as [Hne Hn].
    rewrite decide_False by done. f_equal. by apply IH.
Qed.

Lemma add_info_fresh (merged : Merged) (e : Info) p :
  well_formed merged ->
  typed e ->
  e !! "path" = Some p ->
  p ∉ merged.*1 ->
  add_info merged e = Ok (merged ++ [(p, e)]).
Proof.
  intros Hwf He Hp Hn. rewrite (add_info_run merged e p Hwf He Hp).
  apply lookup_path_None in Hn as E. unfold ensure_path. rewrite E.
  cbn [default]. rewrite merge_maps_empty_l. by rewrite store_path_fresh.
Qed.

Lemma add_infos_fresh (es : list Info) : forall merged : Merged,
  well_formed merged ->
  Forall file_record es ->
  NoDup (merged.*1 ++ paths es) ->
  foldM add_info merged es = Ok (merged ++ zip (paths es) es).
Proof.
  induction es as [|e es IH]; intros merged Hwf Hes Hnd.
  - cbn. by rewrite app_nil_r.
  - apply Forall_cons in Hes as [[He Hsc] Hes].
    assert (Hp : is_Some (e !! "path")).
    { eapply Forall_forall in Hsc; [exact Hsc|]. unfold SCALARS. set_solver. }
    destruct Hp as [p Hp].
    assert (E : paths (e :: es) = p :: paths es).
    { unfold paths. cbn [omap list_omap]. by rewrite Hp. }
    rewrite E in *. cbn [zip zip_with].
    assert (Hn : p ∉ merged.*1).
    { apply NoDup_app in Hnd as (_ & H & _). intros Hin.
      apply (H p Hin). by left. }
    pose proof (add_info_fresh merged e p Hwf He Hp Hn) as H1.
    destruct (add_info_spec merged e p Hwf He Hp) as (m1 & H1' & Hwf1 & _).
    rewrite H1 in H1'. injection H1' as <-.
    cbn [foldM]. rewrite H1. cbn.
    rewrite (IH (merged ++ [(p, e)]) Hwf1 Hes).
    + by rewrite <- app_assoc.
    + rewrite fmap_app. cbn. by rewrite <- app_assoc.
Qed.

Lemma zip_paths (es : list Info) :
  Forall file_record es -> (zip (paths es) es).*2 = es.
Proof.
  induction es as [|e es IH]; intros Hes; [done|].
  apply Forall_cons in Hes as [[He Hsc] Hes].
  assert (Hp : is_Some (e !! "path")).
  { eapply Forall_forall in Hsc; [exact Hsc|]. unfold SCALARS. set_solver. }
  destruct Hp as [p Hp]. unfold paths. cbn [omap list_omap]. rewrite Hp.
  cbn. f_equal. by apply IH.
Qed.

(** X11. Records whose paths are all distinct are not touched by the
    merge: the output is the list of the records of the answering sources,
    as they are and in their order. *)
Theorem records_with_distinct_paths_pass_unchanged
    (indices : list Index) (dataset_ids : list string) :
  Forall (fun ind : Index =>
            forall e, ind dataset_ids = Raise e -> e = EsgfSearchException) indices ->
  Forall file_record (entries indices dataset_ids) ->
  NoDup (paths (entries indices dataset_ids)) ->
  combine_file_info indices dataset_ids = Ok (entries indices dataset_ids).
Proof.
  intros Hsrc Hrec Hnd. unfold combine_file_info.
  rewrite add_indices_spec by done.
  rewrite (add_infos_fresh _ [] well_formed_nil Hrec Hnd). cbn.
  by rewrite zip_paths.
Qed.

(** X12. When every source fails with the protocol error, among them when
    there is no source at all, the merge is not an error: it returns the
    empty list. *)
Theorem failing_sources_alone_give_an_empty_list
    (indices : list Index) (dataset_ids : list string) :
  Forall (fun ind : Index => ind dataset_ids = Raise EsgfSearchException)
         indices ->
  combine_file_info indices dataset_ids = Ok [].
Proof.
  intros H. unfold combine_file_info.
  assert (E : foldM (add_index dataset_ids) [] indices = Ok []).
  { induction indices as [|ind indices IH]; [done|].
    apply Forall_cons in H as [Hi H]. cbn beta in Hi. cbn [foldM].
    assert (add_index dataset_ids [] ind = Ok []) as ->
      by (unfold add_index; by rewrite Hi).
    cbn. by apply IH. }
  by rewrite E.
Qed.

Import Fixtures.

Lemma one_record_per_path_in_order_of_first_appearance_witness :
  let indices := [index_a; index_protocol_error; index_b] in
  let seen := first_seen (paths (entries indices [])) in
  exists out,
    combine_file_info indices [] = Ok out
    /\ (fun m : Info => m !! "path") <$> out = Some <$> seen
    /\ NoDup seen
    /\ (forall p, p ∈ seen <-> p ∈ paths (entries indices [])).
Proof.
  apply (one_record_per_path_in_order_of_first_appearance
           [index_a; index_protocol_error; index_b] []).
  - repeat constructor; intros e [=]; done.
  - apply (bool_decide_unpack _). vm_compute. exact I.
Defined.

Lemma records_with_distinct_paths_pass_unchanged_witness :
  combine_file_info [index_protocol_error; index_b] []
  = Ok (entries [index_protocol_error; index_b] []).
Proof.
  apply (records_with_distinct_paths_pass_unchanged
           [index_protocol_error; index_b] []).
  - repeat constructor; intros e [=]; done.
  - apply (bool_decide_unpack _). vm_compute. exact I.
  - apply (bool_decide_unpack _). vm_compute. exact I.
Defined.

Lemma failing_sources_alone_give_an_empty_list_witness :
  combine_file_info [index_protocol_error; index_protocol_error] [] = Ok [].
Proof.
  apply (failing_sources_alone_give_an_empty_list
           [index_protocol_error; index_protocol_error] []).
  repeat constructor.
Defined.

End MergerOrderFacts.

Module CapturesFacts.
Import Re Parser ParserFacts Captures.

Section Inversion.
Context {R : Type}.

Lemma star_inv c s (k : list ascii -> option R) res :
  star c s k = Some res ->
  exists run rest,
    s = run ++ rest /\ forallb (accepts c) run = true /\ k rest = Some res.
Proof.
  induction s as [|x s IH]; cbn [star]; intros H.
  - by exists [], [].
  - destruct (accepts c x) eqn:Hx; [|by exists [], (x :: s)].
    destruct (star c s k) as [r|] eqn:E.
    + injection H as ->. destruct (IH eq_refl) as (run & rest & -> & Hr & Hk).
      exists (x :: run), rest. cbn. by rewrite Hx, Hr.
    + by exists [], (x :: s).
Qed.

Lemma exec_lit_inv c r s g (k : list ascii -> groupdict -> option R) res :
  exec (Cat (One (Lit c)) r) s g k = Some res ->
  exists s', s = c :: s' /\ exec r s' g k = Some res.
Proof.
  cbn [exec]. destruct s as [|x s']; [done|]. cbn [accepts].
  destruct (Ascii.eqb x c) eqn:E; [|done].
  apply Ascii.eqb_eq in E as ->. intros H. by exists s'.
Qed.

Lemma exec_facet_group_inv name s g
    (k : list ascii -> groupdict -> option R) res :
  exec (facet_group name) s g k = Some res ->
  exists f rest,
    s = list_ascii_of_string f ++ rest
    /\ facet_shape f = true
    /\ k rest (set_group name f g) = Some res.
Proof.
  unfold facet_group. cbn [exec].
  destruct s as [|x [|y s2]]; [done| |].
  - by destruct (accepts NonSpace x).
  - destruct (accepts NonSpace x) eqn:Hx; [|done].
    destruct (accepts (NoneOf ["."%char; "|"%char]) y) eqn:Hy; [|done].
    intros H. apply star_inv in H as (run & rest & -> & Hrun & Hk).
    exists (string_of_list_ascii (x :: y :: run)), rest.
    rewrite list_ascii_of_string_of_list_ascii. split; [done|]. split.
    + unfold facet_shape. rewrite list_ascii_of_string_of_list_ascii.
      cbn [accepts] in Hx. rewrite Hx. cbn [andb forallb].
      assert (Hsep : forall z, accepts (NoneOf ["."%char; "|"%char]) z = true ->
                               negb (is_separator z) = true).
      { intros z Hz. cbn [accepts] in Hz. apply negb_true_iff in Hz.
        apply bool_decide_eq_false in Hz. apply negb_true_iff.
        unfold is_separator. apply orb_false_iff.
        split; apply Ascii.eqb_neq; intros ->; apply Hz; set_solver. }
      rewrite (Hsep y Hy). cbn [andb].
      apply forallb_forall. intros z Hz. apply Hsep.
      rewrite forallb_forall in Hrun. by apply Hrun.
    + change (x :: y :: run ++ rest) with ((x :: y :: run) ++ rest) in Hk.
      by rewrite consumed_prefix in Hk.
Qed.

Lemma exec_node_group_inv s g (k : list ascii -> groupdict -> option R) res :
  exec node_group s g k = Some res ->
  exists dn rest,
    s = list_ascii_of_string dn ++ rest
    /\ node_ok dn = true
    /\ k rest (set_group last_column dn g) = Some res.
Proof.
  unfold node_group. cbn [exec]. destruct s as [|x s1]; [done|].
  destruct (accepts NonSpace x) eqn:Hx; [|done].
  intros H. apply star_inv in H as (run & rest & -> & Hrun & Hk).
  exists (string_of_list_ascii (x :: run)), rest.
  rewrite list_ascii_of_string_of_list_ascii. split; [done|]. split.
  - unfold node_ok. rewrite list_ascii_of_string_of_list_ascii.
    cbn [forallb]. cbn [accepts] in Hx. rewrite Hx. cbn [andb].
    apply forallb_forall. intros z Hz. rewrite forallb_forall in Hrun.
    by apply Hrun in Hz.
  - change (x :: run ++ rest) with ((x :: run) ++ rest) in Hk.
    by rewrite consumed_prefix in Hk.
Qed.

Lemma exec_pipe_and_node_inv s g (k : list ascii -> groupdict -> option R) res :
  exec pipe_and_node s g k = Some res ->
  exists dn rest,
    s = list_ascii_of_string ("|" +:+ dn) ++ rest
    /\ node_ok dn = true
    /\ k rest (set_group last_column dn g) = Some res.
Proof.
  unfold pipe_and_node. intros H.
  apply exec_lit_inv in H as (s' & -> & H). rewrite exec_cat in H.
  apply exec_node_group_inv in H as (dn & rest & -> & Hdn & Hk).
  exists dn, rest. by split.
Qed.

Lemma exec_facets_regex_inv (names : list string) :
  forall s g (k : list ascii -> groupdict -> option R) res,
  exec (facets_regex names) s g k = Some res ->
  exists vs dn rest,
    length vs = length names
    /\ s = list_ascii_of_string (build_id vs dn) ++ rest
    /\ forallb facet_shape vs = true
    /\ node_ok dn = true
    /\ k rest (set_groups (zip names vs ++ [(last_column, dn)]) g) = Some res.
Proof.
  induction names as [|n names IH]; intros s g k res H.
  - cbn [facets_regex] in H.
    apply exec_pipe_and_node_inv in H as (dn & rest & -> & Hdn & Hk).
    by exists [], dn, rest.
  - destruct names as [|n' names].
    + cbn [facets_regex] in H. rewrite exec_cat in H.
      apply exec_facet_group_inv in H as (f & rest1 & -> & Hf & H).
      apply exec_pipe_and_node_inv in H as (dn & rest & -> & Hdn & Hk).
      exists [f], dn, rest. split; [done|]. split.
      { unfold build_id. cbn [Str.join].
        rewrite !list_ascii_of_string_app, <- !app_assoc. done. }
      split; [by cbn; rewrite Hf|]. by split.
    + change (facets_regex (n :: n' :: names))
        with (Cat (facet_group n)
                  (Cat (One (Lit ".")) (facets_regex (n' :: names)))) in H.
      rewrite exec_cat in H.
      apply exec_facet_group_inv in H as (f & rest1 & -> & Hf & H).
      apply exec_lit_inv in H as (s' & -> & H).
      apply IH in H as (vs & dn & rest & Hlen & -> & Hvs & Hdn & Hk).
      exists (f :: vs), dn, rest. split; [by cbn; rewrite Hlen|]. split.
      { unfold build_id. destruct vs as [|v vs]; [done|].
        change (Str.join "." (f :: v :: vs))
          with (f +:+ "." +:+ Str.join "." (v :: vs)).
        rewrite !list_ascii_of_string_app, <- !app_assoc. done. }
      split; [by cbn; rewrite Hf, Hvs|]. by split.
Qed.

End Inversion.

Lemma scan_inv r : forall s g,
  scan r s = Some g ->
  exists pre rest, s = pre ++ rest /\ match_here r rest = Some g.
Proof.
  induction s as [|x s IH]; intros g; cbn [scan].
  - destruct (match_here r []) eqn:E; [|done]. intros [= <-]. by exists [], [].
  - destruct (match_here r (x :: s)) eqn:E.
    + intros [= <-]. by exists [], (x :: s).
    + intros H. apply IH in H as (pre & rest & -> & H).
      by exists (x :: pre), rest.
Qed.

Lemma string_of_chars_app (a b : list ascii) :
  string_of_list_ascii (a ++ b)
  = string_of_list_ascii a +:+ string_of_list_ascii b.
Proof. induction a as [|x a IH]; cbn; [done|]. by rewrite IH. Qed.

(** What a match of the dataset pattern says about the text. *)
Lemma search_inv (id : string) g :
  Re.search get_dataset_pattern id = Some g ->
  exists pre vs dn post,
    id = pre +:+ build_id vs dn +:+ post
    /\ length vs = 10
    /\ forallb facet_shape vs = true
    /\ node_ok dn = true
    /\ g = zip COLUMNS (vs ++ [dn]).
Proof.
  unfold Re.search. rewrite compile_dataset_pattern. cbn [mbind option_bind].
  intros H. apply scan_inv in H as (pre & rest & Hs & H).
  unfold match_here in H.
  apply exec_facets_regex_inv in H as (vs & dn & post & Hlen & -> & Hvs & Hdn & Hk).
  injection Hk as <-.
  exists (string_of_list_ascii pre), vs, dn, (string_of_list_ascii post).
  split; [|split; [done|split; [done|split; [done|]]]].
  - rewrite <- (string_of_list_ascii_of_string id), Hs.
    rewrite !string_of_chars_app. by rewrite string_of_list_ascii_of_string.
  - cbn in Hlen.
    do 10 (destruct vs as [|? vs]; [discriminate Hlen|]).
    destruct vs; [|discriminate Hlen]. reflexivity.
Qed.

Lemma parsed_record_reads_the_id_aux (id : string) (g : list (string * string)) :
  parse_id id = Some g ->
  exists vs dn, length vs = 10 /\ g = zip COLUMNS (vs ++ [dn]) ++ [("id", id)].
Proof.
  unfold parse_id. destruct (Re.search get_dataset_pattern id) as [m|] eqn:E;
    [|done]. cbn [mbind option_bind]. intros [= <-].
  apply search_inv in E as (pre & vs & dn & post & Hid & Hlen & Hvs & Hdn & ->).
  exists vs, dn. split; [done|].
  do 10 (destruct vs as [|? vs]; [discriminate Hlen|]).
  destruct vs; [|discriminate Hlen]. reflexivity.
Qed.

(** X13. What [parse_id] returns is read off the id: the id contains,
    somewhere, ten values joined by dots, a pipe and a data node; every
    value has the shape that [\S[^.|]+] asks for and the data node is a run
    of characters that are not white space; the record holds these eleven
    values under the eleven columns, in order, and the whole id under
    ["id"]. *)
Theorem parsed_record_reads_the_id (id : string) (g : list (string * string)) :
  parse_id id = Some g ->
  exists pre vs dn post,
    id = pre +:+ build_id vs dn +:+ post
    /\ length vs = 10
    /\ forallb facet_shape vs = true
    /\ node_ok dn = true
    /\ g = zip COLUMNS (vs ++ [dn]) ++ [("id", id)].
Proof.
  unfold parse_id. destruct (Re.search get_dataset_pattern id) as [m|] eqn:E;
    [|done]. cbn [mbind option_bind]. intros [= <-].
  apply search_inv in E as (pre & vs & dn & post & Hid & Hlen & Hvs & Hdn & ->).
  exists pre, vs, dn, post. repeat (split; [done|]).
  do 10 (destruct vs as [|? vs]; [discriminate Hlen|]).
  destruct vs; [|discriminate Hlen]. reflexivity.
Qed.

(** the cells of the row of a record *)
Lemma parsed_cells (vs : list string) (dn id : string) :
  length vs = 10 ->
  (fun c => from_option Pandas.CStr Pandas.CNaN
              (Re.group c (zip COLUMNS (vs ++ [dn]) ++ [("id", id)])))
    <$> Pandas.SEARCH_COLUMNS
  = Pandas.CStr <$> (vs ++ [dn; id]).
Proof.
  intros Hlen.
  do 10 (destruct vs as [|? vs]; [discriminate Hlen|]).
  destruct vs; [|discriminate Hlen]. reflexivity.
Qed.

Lemma parsed_keys (vs : list string) (dn id : string) :
  length vs = 10 ->
  (zip COLUMNS (vs ++ [dn]) ++ [("id", id)]).*1 = Pandas.SEARCH_COLUMNS.
Proof.
  intros Hlen.
  do 10 (destruct vs as [|? vs]; [discriminate Hlen|]).
  destruct vs; [|discriminate Hlen]. reflexivity.
Qed.

Lemma parse_ids_elem ids g :
  g ∈ parse_ids ids ->
  exists id vs dn,
    id ∈ ids /\ parse_id id = Some g /\ length vs = 10
    /\ g = zip COLUMNS (vs ++ [dn]) ++ [("id", id)].
Proof.
  unfold parse_ids. intros H. apply list_elem_of_omap in H as (id & Hin & Hp).
  destruct (parsed_record_reads_the_id_aux id g Hp) as (vs & dn & Hlen & ->).
  exists id, vs, dn. split; [exact Hin|]. split; [exact Hp|].
  split; [exact Hlen|reflexivity].
Qed.

Lemma add_new_same : Pandas.add_new Pandas.SEARCH_COLUMNS Pandas.SEARCH_COLUMNS
                     = Pandas.SEARCH_COLUMNS.
Proof. reflexivity. Qed.

Lemma columns_of_parsed (recs : list (list (string * string))) :
  recs <> [] ->
  Forall (fun g : list (string * string) => g.*1 = Pandas.SEARCH_COLUMNS) recs ->
  foldl Pandas.add_new [] ((fun rec : list (string * string) => rec.*1) <$> recs)
  = Pandas.SEARCH_COLUMNS.
Proof.
  intros Hne H. destruct recs as [|g recs]; [done|].
  apply Forall_cons in H as [Hg H]. cbn [fmap list_fmap foldl]. rewrite Hg.
  change (Pandas.add_new [] Pandas.SEARCH_COLUMNS) with Pandas.SEARCH_COLUMNS.
  induction recs as [|g' recs IH]; [done|].
  apply Forall_cons in H as [Hg' H]. cbn [fmap list_fmap foldl].
  rewrite Hg', add_new_same. by apply IH.
Qed.

Lemma from_records_parse_ids ids :
  parse_ids ids <> [] ->
  Pandas.from_records (parse_ids ids)
  = Pandas.mkDF Pandas.SEARCH_COLUMNS
      (imap (fun i (g : list (string * string)) =>
               (i, (fun c => from_option Pandas.CStr Pandas.CNaN (Re.group c g))
                     <$> Pandas.SEARCH_COLUMNS))
            (parse_ids ids)).
Proof.
  intros Hne. unfold Pandas.from_records.
  rewrite columns_of_parsed; [done..|].
  apply Forall_forall. intros g Hg.
  apply parse_ids_elem in Hg as (id & vs & dn & _ & _ & Hlen & ->).
  by apply parsed_keys.
Qed.

Lemma search_frame_rows ids (r : Pandas.row) :
  parse_ids ids <> [] ->
  r ∈ Pandas.rows (Pandas.from_records (parse_ids ids)) ->
  exists id vs dn,
    parse_id id = Some (zip COLUMNS (vs ++ [dn]) ++ [("id", id)])
    /\ length vs = 10
    /\ r.2 = Pandas.CStr <$> (vs ++ [dn; id]).
Proof.
  intros Hne Hr. rewrite from_records_parse_ids in Hr by done. cbn in Hr.
  apply elem_of_lookup_imap in Hr as (i & g & -> & Hg).
  apply list_elem_of_lookup_2 in Hg.
  apply parse_ids_elem in Hg as (id & vs & dn & _ & Hp & Hlen & ->).
  exists id, vs, dn. split; [done|]. split; [done|]. cbn [snd].
  by apply parsed_cells.
Qed.

Lemma id_of_parsed (vs : list string) dn id :
  length vs = 10 -> Pandas.id_of (Pandas.CStr <$> (vs ++ [dn; id])) = id.
Proof.
  intros Hlen.
  do 10 (destruct vs as [|? vs]; [discriminate Hlen|]).
  destruct vs; [|discriminate Hlen]. reflexivity.
Qed.

Lemma search_row_parsed (vs : list string) dn id i :
  length vs = 10 -> Pandas.search_row (i, Pandas.CStr <$> (vs ++ [dn; id])).
Proof.
  intros Hlen. split; cbn [snd].
  - rewrite length_fmap, length_app, Hlen. done.
  - apply forallb_forall. intros c Hc. apply list_elem_of_In in Hc.
    apply list_elem_of_fmap in Hc as (x & -> & _). done.
Qed.

(** X14. The frames that the [search] methods build are what
    [combine_results] expects.  When at least one id of every search
    parses, every frame has the twelve search columns and rows of twelve
    strings, equal ids mean equal records, and [combine_results] returns
    the reconciled frame. *)
Theorem search_frames_meet_combine_results (idss : list (list string)) :
  Forall (fun ids => parse_ids ids <> []) idss ->
  Forall Pandas.search_frame (search_frames idss)
  /\ Reconciler.ids_identify (Pandas.records (search_frames idss))
  /\ (idss <> [] ->
      Reconciler.combine_results (search_frames idss)
      = Ok (Reconciler.reconciled (search_frames idss))).
Proof.
  intros Hne.
  assert (Hf : Forall Pandas.search_frame (search_frames idss)).
  { unfold search_frames. apply Forall_fmap. eapply Forall_impl; [exact Hne|].
    intros ids Hi. split.
    - by rewrite from_records_parse_ids.
    - apply Forall_forall. intros [i cells] Hr.
      apply (search_frame_rows ids _ Hi) in Hr as (id & vs & dn & _ & Hlen & Hc).
      cbn [snd] in Hc. rewrite Hc. by apply search_row_parsed. }
  assert (Hrec : forall c, c ∈ Pandas.records (search_frames idss) ->
            exists id vs dn,
              parse_id id = Some (zip COLUMNS (vs ++ [dn]) ++ [("id", id)])
              /\ length vs = 10
              /\ c = Pandas.CStr <$> (vs ++ [dn; id])).
  { intros c Hc. unfold Pandas.records in Hc.
    apply list_elem_of_fmap in Hc as ([i c'] & -> & Hr).
    apply list_elem_of_bind in Hr as (df & Hr & Hdf).
    unfold search_frames in Hdf.
    apply list_elem_of_fmap in Hdf as (ids & -> & Hids).
    eapply Forall_forall in Hne; [|exact Hids].
    by apply (search_frame_rows ids _ Hne) in Hr. }
  split; [done|]. split.
  - apply Forall_forall. intros c Hc. apply Forall_forall. intros c' Hc' Hid.
    apply Hrec in Hc as (id & vs & dn & Hp & Hlen & ->).
    apply Hrec in Hc' as (id' & vs' & dn' & Hp' & Hlen' & ->).
    rewrite !id_of_parsed in Hid by done. subst id'.
    assert (Hz : zip COLUMNS (vs ++ [dn]) ++ [("id", id)]
                 = zip COLUMNS (vs' ++ [dn']) ++ [("id", id)]) by congruence.
    destruct (app_inj_2 _ _ _ _ eq_refl Hz) as [Hz' _].
    assert (E : vs ++ [dn] = vs' ++ [dn']).
    { apply (f_equal (fun l : list (string * string) => l.*2)) in Hz'.
      cbn beta in Hz'.
      rewrite !snd_zip in Hz'; [done|cbn; rewrite length_app; cbn; lia..]. }
    destruct (app_inj_2 vs vs' [dn] [dn'] eq_refl E) as [-> [= ->]]. done.
  - intros Hi. apply ReconcilerFacts.combine_results_search; [|done].
    unfold search_frames. by destruct idss.
Qed.

(** X15. Searches in which no id matches the pattern give frames without
    columns, and [combine_results] then fails when it drops the data node:
    the error is a [KeyError], not the empty-result error. *)
Theorem no_parsed_id_ends_in_key_error (idss : list (list string)) :
  idss <> [] ->
  Forall (fun ids => parse_ids ids = []) idss ->
  Reconciler.combine_results (search_frames idss) = Raise (KeyError "data_node").
Proof.
  intros Hne H.
  assert (E : search_frames idss = replicate (length idss) (Pandas.mkDF [] [])).
  { unfold search_frames. induction H as [|ids idss Hi H IH]; [done|].
    cbn. rewrite Hi. f_equal. destruct idss; [done|]. by apply IH. }
  rewrite E. destruct idss as [|ids idss]; [done|]. cbn [length replicate].
  unfold Reconciler.combine_results.
  assert (C : Pandas.concat (Pandas.mkDF [] [] :: replicate (length idss) (Pandas.mkDF [] []))
              = Pandas.mkDF [] []).
  { unfold Pandas.concat. f_equal.
    - cbn [fmap list_fmap foldl]. clear. induction (length idss); [done|].
      cbn. done.
    - cbn. clear. induction (length idss); [done|]. cbn. done. }
  rewrite C. reflexivity.
Qed.

Import Fixtures.

Lemma parsed_record_reads_the_id_witness :
  exists pre vs dn post,
    id_2020 = pre +:+ build_id vs dn +:+ post
    /\ length vs = 10
    /\ forallb facet_shape vs = true
    /\ node_ok dn = true
    /\ default [] (parse_id id_2020) = zip COLUMNS (vs ++ [dn]) ++ [("id", id_2020)].
Proof.
  apply (parsed_record_reads_the_id id_2020 (default [] (parse_id id_2020))).
  vm_compute. reflexivity.
Defined.

Lemma search_frames_meet_combine_results_witness :
  Forall Pandas.search_frame (search_frames [[id_2019]; [id_2020]])
  /\ Reconciler.ids_identify (Pandas.records (search_frames [[id_2019]; [id_2020]]))
  /\ ([[id_2019]; [id_2020]] <> [] ->
      Reconciler.combine_results (search_frames [[id_2019]; [id_2020]])
      = Ok (Reconciler.reconciled (search_frames [[id_2019]; [id_2020]]))).
Proof.
  apply (search_frames_meet_combine_results [[id_2019]; [id_2020]]).
  apply (bool_decide_unpack _). vm_compute. exact I.
Defined.

Lemma no_parsed_id_ends_in_key_error_witness :
  Reconciler.combine_results (search_frames [["CMIP6.tas"]; []])
  = Raise (KeyError "data_node").
Proof.
  apply (no_parsed_id_ends_in_key_error [["CMIP6.tas"]; []]).
  - discriminate.
  - apply (bool_decide_unpack _). vm_compute. exact I.
Defined.

End CapturesFacts.

Module AbsorptionFacts.
Import Pandas Reconciler ReconcilerFacts.

Lemma keep_first_known i (rs : list row) : forall seen,
  (forall r, r ∈ rs -> cell_at i r ∈ seen) -> keep_first i seen rs = [].
Proof.
  induction rs as [|x rs IH]; intros seen H; [done|]. cbn [keep_first].
  rewrite bool_decide_eq_true_2 by (apply H; by left).
  apply IH. intros r Hr. apply H. by right.
Qed.

Lemma keep_first_app_known i (known : list row) : forall (rs : list row) seen,
  (forall r, r ∈ known -> cell_at i r ∈ seen \/ cell_at i r ∈ cell_at i <$> rs) ->
  keep_first i seen (rs ++ known) = keep_first i seen rs.
Proof.
  induction rs as [|x rs IH]; intros seen H.
  - cbn [app keep_first]. apply keep_first_known. intros r Hr.
    destruct (H r Hr) as [?|Hn]; [done|]. by apply elem_of_nil in Hn.
  - cbn [app keep_first].
    destruct (bool_decide (cell_at i x ∈ seen)) eqn:E.
    + apply bool_decide_eq_true in E. apply IH. intros r Hr.
      destruct (H r Hr) as [?|Hin]; [by left|].
      rewrite fmap_cons in Hin. apply elem_of_cons in Hin as [->|?];
        [by left|by right].
    + f_equal. apply IH. intros r Hr.
      destruct (H r Hr) as [?|Hin]; [left; by right|].
      rewrite fmap_cons in Hin. apply elem_of_cons in Hin as [->|?];
        [left; by left|by right].
Qed.

(** X16. A source that only repeats ids that the other sources have
    already given changes nothing: with its frame appended,
    [combine_results] returns what it returns without it. *)
Theorem source_with_known_ids_changes_nothing (dfs : list DataFrame)
    (df : DataFrame) :
  dfs <> [] ->
  Forall search_frame dfs ->
  search_frame df ->
  (forall c, c ∈ (rows df).*2 ->
     exists c', c' ∈ records dfs /\ id_of c' = id_of c) ->
  combine_results (dfs ++ [df]) = combine_results dfs.
Proof.
  intros Hne Hdfs Hdf Hknown.
  assert (Hall : Forall search_frame (dfs ++ [df])).
  { apply Forall_app. split; [done|]. by apply Forall_singleton. }
  rewrite (combine_results_search dfs Hne Hdfs).
  rewrite (combine_results_search (dfs ++ [df])); [|by destruct dfs|done].
  f_equal. unfold reconciled, deduplicated.
  replace ((dfs ++ [df]) ≫= rows) with ((dfs ≫= rows) ++ rows df)
    by (rewrite bind_app; cbn; by rewrite app_nil_r).
  rewrite keep_first_app_known; [done|].
  intros r Hr. right.
  destruct (Hknown r.2) as (c' & Hc' & Hid); [by apply list_elem_of_fmap_2|].
  unfold records in Hc'. apply list_elem_of_fmap in Hc' as (r' & -> & Hr').
  apply list_elem_of_fmap. exists r'. split; [|done].
  pose proof (search_rows_bind dfs Hdfs) as Hrows.
  eapply Forall_forall in Hrows; [|exact Hr'].
  destruct Hdf as [_ Hdf]. eapply Forall_forall in Hdf; [|exact Hr].
  rewrite (search_row_id r Hdf), (search_row_id r' Hrows). by rewrite Hid.
Qed.

Import Fixtures.

Lemma source_with_known_ids_changes_nothing_witness :
  combine_results (two_versions ++ [from_records (Parser.parse_ids [id_2019])])
  = combine_results two_versions.
Proof.
  apply (source_with_known_ids_changes_nothing two_versions
           (from_records (Parser.parse_ids [id_2019]))).
  - discriminate.
  - vm_compute. repeat constructor.
  - vm_compute. repeat constructor.
  - intros c Hc. exists c. split; [|done].
    vm_compute in Hc. apply list_elem_of_singleton in Hc as ->.
    vm_compute. by left.
Defined.

End AbsorptionFacts.

Module EsgfFacts.
Import Py Esgf PathScenarios.

(** *** Splitting and joining *)

Lemma rev_app_append (s acc t : string) :
  String.rev_app s acc +:+ t = String.rev_app s (acc +:+ t).
Proof.
  revert acc. induction s as [|c s IH]; intros acc; [done|].
  change (String.rev_app s (String c acc) +:+ t
          = String.rev_app s (String c (acc +:+ t))).
  by rewrite IH.
Qed.

Lemma rev_cons_append c (cur a : string) :
  String.rev (String c cur) +:+ a = String.rev cur +:+ String c a.
Proof.
  unfold String.rev.
  change (String.rev_app (String c cur) "") with (String.rev_app cur (String c "")).
  by rewrite !rev_app_append.
Qed.

Lemma append_nil_r (s : string) : s +:+ "" = s.
Proof.
  induction s as [|c s IH]; [done|].
  change (String c (s +:+ "") = String c s). by rewrite IH.
Qed.

Lemma append_assoc (a b c : string) : (a +:+ b) +:+ c = a +:+ (b +:+ c).
Proof.
  induction a as [|x a IH]; [done|].
  change (String x ((a +:+ b) +:+ c) = String x (a +:+ (b +:+ c))).
  by rewrite IH.
Qed.

(** a text without the separator *)
Definition free_of (sep : ascii) (s : string) : Prop :=
  sep ∉ list_ascii_of_string s.

Lemma free_of_cons sep c s :
  free_of sep (String c s) <-> c <> sep /\ free_of sep s.
Proof.
  unfold free_of. cbn. rewrite not_elem_of_cons. split; intros [? ?]; split; auto.
Qed.

Lemma split_aux_whole sep (a : string) : forall cur,
  free_of sep a -> Str.split_aux sep cur a = [String.rev cur +:+ a].
Proof.
  induction a as [|c a IH]; intros cur Ha; cbn [Str.split_aux].
  - by rewrite append_nil_r.
  - apply free_of_cons in Ha as [Hc Ha].
    rewrite (proj2 (Ascii.eqb_neq c sep) Hc). rewrite IH by done.
    by rewrite rev_cons_append.
Qed.

Lemma split_aux_first sep (a b : string) : forall cur,
  free_of sep a ->
  Str.split_aux sep cur (a +:+ String sep b)
  = (String.rev cur +:+ a) :: Str.split_aux sep "" b.
Proof.
  induction a as [|c a IH]; intros cur Ha.
  - change ("" +:+ String sep b) with (String sep b). cbn [Str.split_aux].
    rewrite Ascii.eqb_refl. by rewrite append_nil_r.
  - change (String c a +:+ String sep b) with (String c (a +:+ String sep b)).
    cbn [Str.split_aux]. apply free_of_cons in Ha as [Hc Ha].
    rewrite (proj2 (Ascii.eqb_neq c sep) Hc). rewrite IH by done.
    by rewrite rev_cons_append.
Qed.

Lemma split_whole sep (a : string) : free_of sep a -> Str.split sep a = [a].
Proof. intros Ha. unfold Str.split. by rewrite split_aux_whole. Qed.

Lemma split_first sep (a b : string) :
  free_of sep a -> Str.split sep (a +:+ String sep b) = a :: Str.split sep b.
Proof. intros Ha. unfold Str.split. by rewrite split_aux_first. Qed.

(** splitting what was joined gives the parts back *)
Lemma split_join sep (l : list string) :
  l <> [] -> Forall (free_of sep) l ->
  Str.split sep (Str.join (String sep "") l) = l.
Proof.
  induction l as [|a l IH]; intros Hne Hl; [done|].
  apply Forall_cons in Hl as [Ha Hl]. destruct l as [|b l].
  - cbn. by apply split_whole.
  - change (Str.join (String sep "") (a :: b :: l))
      with (a +:+ String sep "" +:+ Str.join (String sep "") (b :: l)).
    change (String sep "" +:+ Str.join (String sep "") (b :: l))
      with (String sep (Str.join (String sep "") (b :: l))).
    rewrite split_first by done. f_equal. by apply IH.
Qed.

Lemma free_of_append sep (a b : string) :
  free_of sep (a +:+ b) <-> free_of sep a /\ free_of sep b.
Proof.
  unfold free_of. rewrite ParserFacts.list_ascii_of_string_app, not_elem_of_app.
  done.
Qed.

Lemma free_of_join sep other (l : list string) :
  other <> sep -> Forall (free_of sep) l ->
  free_of sep (Str.join (String other "") l).
Proof.
  intros Hne. induction l as [|a l IH]; intros Hl.
  - unfold free_of. cbn. apply not_elem_of_nil.
  - apply Forall_cons in Hl as [Ha Hl]. destruct l as [|b l]; [done|].
    change (Str.join (String other "") (a :: b :: l))
      with (a +:+ String other (Str.join (String other "") (b :: l))).
    apply free_of_append. split; [done|]. apply free_of_cons. split; [done|].
    by apply IH.
Qed.

Lemma no_separator_free (s : string) :
  Parser.no_separator s = true -> free_of "." s /\ free_of "|" s.
Proof.
  unfold Parser.no_separator, free_of. intros H.
  rewrite forallb_forall in H.
  split; intros Hin; apply list_elem_of_In, H in Hin; done.
Qed.

(** the version cut out of an id of the grammar is its last facet *)
Lemma dataset_version_build_id (vs : list string) (dn : string) :
  vs <> [] ->
  forallb Parser.no_separator vs = true ->
  dataset_version (Parser.build_id vs dn) = default "" (last vs).
Proof.
  intros Hne Hvs. unfold dataset_version, Parser.build_id.
  assert (Hall : Forall (fun v => free_of "." v /\ free_of "|" v) vs).
  { apply Forall_forall. intros v Hv. apply no_separator_free.
    rewrite forallb_forall in Hvs. by apply Hvs, list_elem_of_In. }
  assert (Hdot : Forall (free_of ".") vs)
    by (eapply Forall_impl; [exact Hall|]; by intros v [? ?]).
  assert (Hpipe : Forall (free_of "|") vs)
    by (eapply Forall_impl; [exact Hall|]; by intros v [? ?]).
  change ("|" +:+ dn) with (String "|" dn).
  rewrite split_first by (by apply free_of_join).
  cbn [head]. change (default "" (Some ?x)) with x.
  by rewrite split_join.
Qed.

Lemma count_char_append c (a b : string) :
  count_char c (a +:+ b) = count_char c a + count_char c b.
Proof.
  unfold count_char.
  by rewrite ParserFacts.list_ascii_of_string_app, filter_app, length_app.
Qed.

Lemma count_char_cons c x (s : string) :
  count_char c (String x s) = (if decide (x = c) then 1 else 0) + count_char c s.
Proof.
  unfold count_char. cbn [list_ascii_of_string].
  destruct (decide (x = c)) as [E|E].
  - by rewrite filter_cons_True.
  - by rewrite filter_cons_False.
Qed.

Lemma count_char_free c (s : string) : count_char c s = 0 -> free_of c s.
Proof.
  unfold count_char, free_of. intros H Hin.
  apply length_zero_iff_nil in H.
  assert (Hf : c ∈ filter (fun x => x = c) (list_ascii_of_string s))
    by by apply list_elem_of_filter.
  rewrite H in Hf. by apply elem_of_nil in Hf.
Qed.

(** the last part of a text is the last part of what follows a separator *)
Lemma split_aux_last sep (a b : string) : forall cur,
  last (Str.split_aux sep cur (a +:+ String sep b)) = last (Str.split sep b).
Proof.
  assert (Hne : forall cur s, Str.split_aux sep cur s <> []).
  { intros cur s. revert cur. induction s as [|c s IH]; intros cur; cbn [Str.split_aux];
      [done|]. destruct (Ascii.eqb c sep); [done|apply IH]. }
  induction a as [|c a IH]; intros cur.
  - change ("" +:+ String sep b) with (String sep b). cbn [Str.split_aux].
    rewrite Ascii.eqb_refl. fold (Str.split sep b).
    destruct (Str.split sep b) as [|x l] eqn:E; [by apply Hne in E|done].
  - change (String c a +:+ String sep b) with (String c (a +:+ String sep b)).
    cbn [Str.split_aux]. destruct (Ascii.eqb c sep) eqn:E.
    + apply Ascii.eqb_eq in E as ->.
      specialize (IH "").
      destruct (Str.split_aux sep "" (a +:+ String sep b)) as [|x l] eqn:E;
        [by apply Hne in E|]. exact IH.
    + apply IH.
Qed.

Lemma split_last sep (a b : string) :
  last (Str.split sep (a +:+ String sep b)) = last (Str.split sep b).
Proof. apply split_aux_last. Qed.

(** the last part of a value of the shape of a facet *)
Lemma facet_last_part (v : string) :
  Captures.facet_shape v = true ->
  v = default "" (last (Str.split "." v))
  \/ v = "." +:+ default "" (last (Str.split "." v)).
Proof.
  unfold Captures.facet_shape. destruct v as [|c v]; [done|].
  cbn [list_ascii_of_string]. destruct (list_ascii_of_string v) as [|y more] eqn:E;
    [done|]. intros H. apply andb_prop in H as [_ H].
  assert (Hv : free_of "." v).
  { unfold free_of. rewrite E. intros Hin.
    rewrite forallb_forall in H. apply list_elem_of_In, H in Hin. done. }
  destruct (decide (c = "."%char)) as [->|Hc].
  - right. change (String "." v) with ("" +:+ String "." v).
    rewrite split_last, split_whole by done. done.
  - left. rewrite split_whole; [done|]. apply free_of_cons. by split.
Qed.

(** X17. The version that the path code cuts out of a dataset id, the text
    between the last dot before the first pipe and that pipe, against the
    value that the dataset pattern captures as the version: for every id
    with one pipe that [re.search] matches, the two are equal, or the
    captured version is the cut text with a dot before it (the first
    character of a facet may be a dot). *)
Theorem version_cut_from_the_id_is_the_version_facet (id : string)
    (g : Re.groupdict) :
  Re.search Parser.get_dataset_pattern id = Some g ->
  count_char "|" id = 1 ->
  exists version,
    Re.group "version" g = Some version
    /\ (version = dataset_version id \/ version = "." +:+ dataset_version id).
Proof.
  intros Hs Hone.
  apply CapturesFacts.search_inv in Hs
    as (pre & vs & dn & post & Hid & Hlen & Hvs & Hdn & ->).
  destruct vs as [|v1 [|v2 [|v3 [|v4 [|v5 [|v6 [|v7 [|v8 [|v9 [|v10 [|? ?]]]]]]]]]]];
    try discriminate Hlen. clear Hlen.
  exists v10. split; [reflexivity|].
  set (front := pre +:+ v1 +:+ "." +:+ v2 +:+ "." +:+ v3 +:+ "." +:+ v4 +:+ "."
                +:+ v5 +:+ "." +:+ v6 +:+ "." +:+ v7 +:+ "." +:+ v8 +:+ "."
                +:+ v9).
  assert (E : id = (front +:+ String "." v10) +:+ String "|" (dn +:+ post)).
  { rewrite Hid. unfold front, Parser.build_id. cbn [Str.join].
    rewrite !append_assoc. reflexivity. }
  assert (Hfree : free_of "|" (front +:+ String "." v10)).
  { apply count_char_free. rewrite E in Hone.
    rewrite count_char_append, count_char_cons in Hone.
    rewrite decide_True in Hone by done. lia. }
  unfold dataset_version. rewrite E, split_first by done.
  cbn [head]. change (default "" (Some ?x)) with x.
  rewrite split_last. apply facet_last_part.
  cbn [forallb] in Hvs. do 9 (apply andb_prop in Hvs as [_ Hvs]).
  by apply andb_prop in Hvs as [Hvs _].
Qed.

(** *** The guards *)

Definition lookup_error (e : exn) : Prop :=
  match e with
  | KeyError _ | IndexError | TypeError => True
  | _ => False
  end.

Lemma getitem_errors v i e : getitem v i = Raise e -> lookup_error e.
Proof.
  destruct v as [s|n|l]; cbn.
  - destruct (list_ascii_of_string s !! i); cbn; [done|]. by intros [= <-].
  - by intros [= <-].
  - destruct (l !! i); cbn; [done|]. by intros [= <-].
Qed.

Lemma field_errors kw f e : field kw f = Some (Raise e) -> lookup_error e.
Proof.
  unfold field. destruct (name_part f) as [name rest].
  destruct (negb (name_ok name)); [done|].
  destruct rest as [|b inner].
  - destruct (kw !! string_of_list_ascii name) as [v|]; [|by intros [= <-]].
    by destruct v.
  - destruct (reverse inner) as [|c rds]; [done|].
    destruct (Ascii.eqb c "]") eqn:E.
    + apply Ascii.eqb_eq in E as ->.
      destruct (_ && _); [|done].
      destruct (kw !! string_of_list_ascii name) as [v|]; [|by intros [= <-]].
      intros [= H]. by eapply getitem_errors.
    + apply Ascii.eqb_neq in E.
      destruct c as [[] [] [] [] [] [] [] []]; first [done | by destruct E].
Qed.

Lemma format_aux_errors kw s : forall m e,
  format_aux kw m s = Some (Raise e) -> lookup_error e.
Proof.
  induction s as [|c s IH]; intros m e; destruct m as [|acc]; cbn [format_aux];
    try done.
  - destruct (Ascii.eqb c "{").
    + destruct s as [|c' s']; [apply IH|].
      destruct (Ascii.eqb c' "{") eqn:E.
      * apply Ascii.eqb_eq in E as ->. done.
      * intros H. apply (IH (Field [])).
        destruct c' as [[] [] [] [] [] [] [] []]; first [exact H | done].
    + destruct (Ascii.eqb c "}"); [done|].
      destruct (format_aux kw Text s) as [[out|e']|] eqn:E; cbn; try done.
      intros [= <-]. by eapply IH.
  - destruct (Ascii.eqb c "}").
    + destruct (field kw (reverse acc)) as [[v|e']|] eqn:Ef; cbn; try done.
      * destruct (format_aux kw Text s) as [[out|e']|] eqn:E; cbn; try done.
        intros [= <-]. by eapply IH.
      * intros [= <-]. by eapply field_errors.
    + destruct (Ascii.eqb c "{"); [done|]. apply IH.
Qed.

Lemma render_errors file_path c e :
  render file_path c = Some (Raise e) -> lookup_error e.
Proof.
  unfold render, format.
  destruct (format_aux c Text _) as [[out|e']|] eqn:E; cbn; try done.
  intros [= <-]. by eapply format_aux_errors.
Qed.

Lemma required_present (c : gmap string jvalue) :
  forallb (fun k => bool_decide (is_Some (c !! k))) REQUIRED = true
  <-> ~ exists k, k ∈ REQUIRED /\ c !! k = None.
Proof.
  rewrite forallb_forall. split.
  - intros H (k & Hk & Hn). apply list_elem_of_In, H in Hk.
    apply bool_decide_eq_true in Hk. rewrite Hn in Hk. by destruct Hk.
  - intros H k Hk. apply bool_decide_eq_true.
    destruct (c !! k) eqn:E; [done|]. destruct H. exists k.
    split; [by apply list_elem_of_In|done].
Qed.

(** X18. The two guards of [get_relative_esgf_path].  The call ends in the
    [ValueError] about the missing content exactly for an entry without
    content, and in the [ValueError] about the expected keys exactly for an
    entry whose content lacks one of the three keys; in both cases the
    entry is left as it was. *)
Theorem guards_stop_incomplete_entries_untouched (e : entry) :
  ((get_relative_esgf_path e).1
   = Some (Raise (ValueError "'content' not part of the entry."))
   <-> content e = None)
  /\ ((get_relative_esgf_path e).1
      = Some (Raise (ValueError "Entry content does not contain expected keys."))
      <-> exists c, content e = Some c
                    /\ exists k, k ∈ REQUIRED /\ c !! k = None)
  /\ (incomplete e -> (get_relative_esgf_path e).2 = e).
Proof.
  unfold get_relative_esgf_path, incomplete. destruct (content e) as [c|] eqn:Ec.
  2:{ split; [done|]. split; [|done]. split; [done|]. by intros (c & ? & _). }
  destruct (forallb _ REQUIRED) eqn:Hreq; cbn [negb].
  - assert (Hno : ~ exists k, k ∈ REQUIRED /\ c !! k = None)
      by by apply required_present.
    assert (Hnone : forall msg,
              (match set_version c with
               | Ok c' => (andthen (Some (template_of c'))
                                   (fun file_path => render file_path c'),
                           mkEntry (entry_id e) (Some c'))
               | Raise ex => (fail ex, e)
               end).1 <> Some (Raise (ValueError msg))).
    { intros msg H.
      unfold set_version in H. destruct (c !! "dataset_id") as [[id|n|l]|]; cbn in H;
        try discriminate H.
      destruct (template_of _) as [t|ex] eqn:Et; cbn in H.
      + by apply render_errors in H.
      + injection H as ->. unfold template_of in Et.
        destruct (_ !! "directory_format_template_"); [|discriminate Et].
        by apply getitem_errors in Et. }
    split; [split; [by intros H%Hnone|done]|].
    split; [|by intros ?]. split; [by intros H%Hnone|].
    intros (c' & [= <-] & H). by destruct Hno.
  - assert (Hyes : exists k, k ∈ REQUIRED /\ c !! k = None).
    { unfold REQUIRED in *. cbn [forallb] in Hreq.
      destruct (c !! "version") eqn:E1;
        [|exists "version"; split; [set_solver|done]].
      destruct (c !! "dataset_id") eqn:E2;
        [|exists "dataset_id"; split; [set_solver|done]].
      destruct (c !! "directory_format_template_") eqn:E3;
        [|exists "directory_format_template_"; split; [set_solver|done]].
      rewrite !bool_decide_eq_true_2 in Hreq by eauto. discriminate Hreq. }
    cbn [fst snd]. split; [done|]. split; [|done]. split; [|done].
    intros _. by exists c.
Qed.

Lemma get_relative_esgf_path_run (e : entry) c id :
  content e = Some c ->
  is_Some (c !! "version") ->
  c !! "dataset_id" = Some (JStr id) ->
  is_Some (c !! "directory_format_template_") ->
  let c' := <["version" := JList [dataset_version id]]> c in
  get_relative_esgf_path e
  = (andthen (Some (template_of c')) (fun file_path => render file_path c'),
     mkEntry (entry_id e) (Some c')).
Proof.
  intros Hc Hv Hid Ht. unfold get_relative_esgf_path. rewrite Hc.
  unfold REQUIRED. cbn [forallb]. rewrite Hid.
  rewrite !bool_decide_eq_true_2 by eauto. cbn [andb negb].
  unfold set_version. by rewrite Hid.
Qed.

(** X19. The version in the content counts for nothing: the call writes
    the version cut out of the dataset id into the content of the entry,
    and path and entry come out the same whatever version the content
    held before. *)
Theorem version_comes_from_the_dataset_id (e : entry) c id :
  content e = Some c ->
  is_Some (c !! "version") ->
  c !! "dataset_id" = Some (JStr id) ->
  is_Some (c !! "directory_format_template_") ->
  content (get_relative_esgf_path e).2
  = Some (<["version" := JList [dataset_version id]]> c)
  /\ forall v,
       get_relative_esgf_path (mkEntry (entry_id e) (Some (<["version" := v]> c)))
       = get_relative_esgf_path e.
Proof.
  intros Hc Hv Hid Ht.
  rewrite (get_relative_esgf_path_run e c id Hc Hv Hid Ht). split; [done|].
  intros v.
  rewrite (get_relative_esgf_path_run
             (mkEntry (entry_id e) (Some (<["version" := v]> c)))
             (<["version" := v]> c) id eq_refl).
  - cbn [entry_id]. by rewrite insert_insert_eq.
  - rewrite lookup_insert_eq. eauto.
  - by rewrite lookup_insert_ne.
  - by rewrite lookup_insert_ne.
Qed.

(** *** Replacing *)

Abbreviation chars := list_ascii_of_string.

Lemma replace_aux_skip old new (a s : list ascii) :
  replace_aux old new (length a) (a ++ s) = replace_aux old new 0 s.
Proof. induction a as [|c a IH]; [done|]. exact IH. Qed.

Lemma starts_with_app (old s : list ascii) : starts_with old (old ++ s) = true.
Proof.
  induction old as [|c old IH]; [done|]. cbn. by rewrite Ascii.eqb_refl, IH.
Qed.

(** an occurrence at the head is replaced *)
Lemma replace_aux_hit o old new (s : list ascii) :
  replace_aux (o :: old) new 0 ((o :: old) ++ s)
  = new ++ replace_aux (o :: old) new 0 s.
Proof.
  change ((o :: old) ++ s) with (o :: (old ++ s)). cbn [replace_aux].
  change (o :: old ++ s) with ((o :: old) ++ s). rewrite starts_with_app.
  replace (length (o :: old) - 1) with (length old) by (cbn [length]; lia).
  by rewrite replace_aux_skip.
Qed.

(** text without the first character of [old] is passed *)
Lemma replace_aux_pass o old new (a s : list ascii) :
  o ∉ a ->
  replace_aux (o :: old) new 0 (a ++ s) = a ++ replace_aux (o :: old) new 0 s.
Proof.
  induction a as [|c a IH]; intros Ha; [done|].
  apply not_elem_of_cons in Ha as [Hc Ha].
  change ((c :: a) ++ s) with (c :: (a ++ s)). cbn [replace_aux starts_with].
  rewrite (proj2 (Ascii.eqb_neq o c) Hc). cbn [andb]. by rewrite IH.
Qed.

Lemma replace_aux_nil old new : replace_aux old new 0 [] = [].
Proof. done. Qed.

(** the pieces of a template, with a slash between two of them *)
Fixpoint pieces (f : string -> list ascii) (keys : list string) : list ascii :=
  match keys with
  | [] => []
  | [k] => f k
  | k :: keys' => f k ++ "/"%char :: pieces f keys'
  end.

Lemma chars_join (g : string -> string) (keys : list string) :
  chars (Str.join "/" (g <$> keys)) = pieces (fun k => chars (g k)) keys.
Proof.
  induction keys as [|k keys IH]; [done|]. destruct keys as [|k' keys]; [done|].
  change (Str.join "/" (g <$> k :: k' :: keys))
    with (g k +:+ "/" +:+ Str.join "/" (g <$> k' :: keys)).
  rewrite !ParserFacts.list_ascii_of_string_app, IH. done.
Qed.

Lemma replace_pieces o old new (f g : string -> list ascii) (keys : list string) :
  o <> "/"%char ->
  (forall k more, k ∈ keys ->
     replace_aux (o :: old) new 0 (f k ++ more)
     = g k ++ replace_aux (o :: old) new 0 more) ->
  replace_aux (o :: old) new 0 (pieces f keys) = pieces g keys.
Proof.
  intros Ho. induction keys as [|k keys IH]; intros H; [done|].
  destruct keys as [|k' keys].
  - cbn [pieces]. rewrite <- (app_nil_r (f k)), H by (by left).
    by rewrite replace_aux_nil, !app_nil_r.
  - change (pieces f (k :: k' :: keys)) with (f k ++ "/"%char :: pieces f (k' :: keys)).
    change (pieces g (k :: k' :: keys)) with (g k ++ "/"%char :: pieces g (k' :: keys)).
    rewrite H by (by left). f_equal.
    change ("/"%char :: pieces f (k' :: keys))
      with (["/"%char] ++ pieces f (k' :: keys)).
    rewrite replace_aux_pass by (by apply not_elem_of_cons; split; [|apply not_elem_of_nil]).
    cbn [app]. f_equal. apply IH. intros k0 more Hk. apply H. by right.
Qed.

(** *** Names and values *)

Lemma plain_chars (k : string) :
  plain k = true ->
  chars k <> []
  /\ forallb is_word (chars k) = true
  /\ forallb is_digit (chars k) = false.
Proof.
  unfold plain. destruct (chars k) as [|c cs] eqn:E; [done|].
  intros H. apply andb_prop in H as [H1 H2]. split; [done|]. split; [done|].
  by apply negb_true_iff.
Qed.

Lemma word_not (k : string) (c : ascii) :
  plain k = true -> is_word c = false -> c ∉ chars k.
Proof.
  intros Hk Hc Hin. apply plain_chars in Hk as (_ & Hw & _).
  rewrite forallb_forall in Hw. apply list_elem_of_In, Hw in Hin. congruence.
Qed.

Lemma plain_name_ok (k : string) : plain k = true -> name_ok (chars k) = true.
Proof.
  intros Hk. pose proof (plain_chars k Hk) as (Hne & Hw & Hd).
  unfold name_ok. rewrite Hd. rewrite bool_decide_eq_false_2 by done.
  cbn [negb andb]. rewrite andb_true_r. apply forallb_forall. intros c Hc.
  apply negb_true_iff, bool_decide_eq_false. intros Hin.
  rewrite forallb_forall in Hw. apply Hw in Hc.
  cbn in Hin. set_unfold in Hin.
  destruct Hin as [->|[->|[->|[->|[->|[->|[->|[]]]]]]]]; discriminate Hc.
Qed.

(** *** The three replacements on a template of the usual form *)

Ltac not_among :=
  let H := fresh in
  cbn [list_ascii_of_string]; intros H;
  repeat (apply elem_of_cons in H as [H|H]; [discriminate H|]);
  by apply elem_of_nil in H.

Definition pct (k : string) : list ascii := chars ("%(" +:+ k +:+ ")s").
Definition half (k : string) : list ascii := chars ("{" +:+ k +:+ ")s").
Definition braced (k : string) : list ascii := chars ("{" +:+ k +:+ "[0]}").

Lemma pct_chars k : pct k = chars "%(" ++ chars k ++ chars ")s".
Proof. unfold pct. by rewrite !ParserFacts.list_ascii_of_string_app. Qed.

Lemma half_chars k : half k = chars "{" ++ chars k ++ chars ")s".
Proof. unfold half. by rewrite !ParserFacts.list_ascii_of_string_app. Qed.

Lemma braced_chars k : braced k = chars "{" ++ chars k ++ chars "[0]}".
Proof. unfold braced. by rewrite !ParserFacts.list_ascii_of_string_app. Qed.

Lemma root_is_not_here (k : string) (more : list ascii) :
  plain k = true -> k <> "root" ->
  starts_with (chars "%(root)s/") (pct k ++ more) = false.
Proof.
  intros Hk Hne. rewrite pct_chars.
  assert (Hp : ")"%char ∉ chars k) by by apply word_not.
  assert (E : string_of_list_ascii (chars k) = k)
    by apply string_of_list_ascii_of_string.
  destruct (chars k) as [|c1 [|c2 [|c3 [|c4 [|c5 l]]]]];
    cbn [starts_with app list_ascii_of_string];
    rewrite ?Ascii.eqb_refl; cbn [andb];
    repeat match goal with
           | |- context [Ascii.eqb ?a ?b] =>
               destruct (Ascii.eqb a b) eqn:?; cbn [andb]; try done
           end;
    repeat match goal with
           | H : Ascii.eqb _ ?c = true |- _ => apply Ascii.eqb_eq in H; subst c
           end; try done.
  destruct Hp. set_solver.
Qed.

Lemma replace_aux_miss old new c (s : list ascii) :
  starts_with old (c :: s) = false ->
  replace_aux old new 0 (c :: s) = c :: replace_aux old new 0 s.
Proof. intros H. cbn [replace_aux]. by rewrite H. Qed.

Lemma stage_root (keys : list string) :
  Forall (fun k => plain k = true /\ k <> "root") keys ->
  replace_aux (chars "%(root)s/") [] 0 (pieces pct keys) = pieces pct keys.
Proof.
  intros H. apply (replace_pieces "%" _ _ pct pct); [done|].
  intros k more Hk. eapply Forall_forall in H as [Hp Hne]; [|exact Hk].
  pose proof (root_is_not_here k more Hp Hne) as Hs.
  assert (E : forall x, pct k ++ x
            = "%"%char :: (("("%char :: chars k ++ chars ")s") ++ x))
    by (intros x; by rewrite pct_chars).
  rewrite !E. rewrite E in Hs.
  change ("%"%char :: chars "(root)s/") with (chars "%(root)s/").
  rewrite (replace_aux_miss _ _ _ _ Hs). f_equal.
  change (chars "%(root)s/") with ("%"%char :: chars "(root)s/").
  rewrite replace_aux_pass; [done|].
  apply not_elem_of_cons. split; [done|]. apply not_elem_of_app. split.
  - by apply word_not.
  - not_among.
Qed.

Lemma stage_open (keys : list string) :
  Forall (fun k => plain k = true) keys ->
  replace_aux (chars "%(") (chars "{") 0 (pieces pct keys) = pieces half keys.
Proof.
  intros H. apply (replace_pieces "%" _ _ pct half); [done|].
  intros k more Hk. eapply Forall_forall in H; [|exact Hk].
  rewrite pct_chars, half_chars, <- !app_assoc.
  change (chars "%(") with ("%"%char :: ["("%char]).
  rewrite replace_aux_hit. f_equal.
  rewrite app_assoc, replace_aux_pass; [by rewrite <- app_assoc|].
  apply not_elem_of_app. split; [by apply word_not|]. not_among.
Qed.

Lemma stage_close (keys : list string) :
  Forall (fun k => plain k = true) keys ->
  replace_aux (chars ")s") (chars "[0]}") 0 (pieces half keys)
  = pieces braced keys.
Proof.
  intros H. apply (replace_pieces ")" _ _ half braced); [done|].
  intros k more Hk. eapply Forall_forall in H; [|exact Hk].
  rewrite half_chars, braced_chars, <- !app_assoc.
  change (chars "{" ++ chars k ++ chars ")s" ++ more)
    with (("{"%char :: chars k) ++ chars ")s" ++ more).
  rewrite replace_aux_pass.
  - change (chars ")s") with (")"%char :: ["s"%char]).
    rewrite replace_aux_hit. reflexivity.
  - apply not_elem_of_cons. split; [done|]. by apply word_not.
Qed.

Lemma template_replaced (keys : list string) :
  Forall (fun k => plain k = true /\ k <> "root") keys ->
  chars (replace ")s" "[0]}" (replace "%(" "{" (replace "%(root)s/" "" (template keys))))
  = pieces braced keys.
Proof.
  intros H.
  assert (Hp : Forall (fun k => plain k = true) keys)
    by (eapply Forall_impl; [exact H|]; by intros k [? _]).
  unfold replace.
  change (chars "%(root)s/") with ("%"%char :: chars "(root)s/").
  rewrite !list_ascii_of_string_of_list_ascii.
  unfold template. rewrite ParserFacts.list_ascii_of_string_app, chars_join.
  change (fun k => chars ("%(" +:+ k +:+ ")s")) with pct.
  change (chars "") with (@nil ascii).
  change ("%"%char :: chars "(root)s/") with (chars "%(root)s/").
  change (chars "%(root)s/") with ("%"%char :: chars "(root)s/") at 1 2.
  rewrite replace_aux_hit. cbn [app].
  change ("%"%char :: chars "(root)s/") with (chars "%(root)s/").
  rewrite stage_root by done. rewrite stage_open by done.
  by rewrite stage_close.
Qed.

(** *** Formatting *)

Lemma name_part_app (k rest : list ascii) :
  "["%char ∉ k -> name_part (k ++ "["%char :: rest) = (k, "["%char :: rest).
Proof.
  induction k as [|c k IH]; intros Hk; [done|].
  apply not_elem_of_cons in Hk as [Hc Hk].
  change ((c :: k) ++ "["%char :: rest) with (c :: (k ++ "["%char :: rest)).
  cbn [name_part]. rewrite (proj2 (Ascii.eqb_neq c "[") (not_eq_sym Hc)).
  by rewrite IH.
Qed.

Lemma field_braced (kw : gmap string jvalue) (k v : string) (others : list string) :
  plain k = true ->
  kw !! k = Some (JList (v :: others)) ->
  field kw (chars k ++ chars "[0]") = Some (Ok v).
Proof.
  intros Hk Hv. unfold field.
  change (chars "[0]") with ("["%char :: chars "0]").
  rewrite name_part_app by by apply word_not.
  rewrite plain_name_ok by done. cbn [negb].
  change (reverse (chars "0]")) with ("]"%char :: ["0"%char]). cbv beta iota.
  change (reverse ["0"%char]) with ["0"%char].
  rewrite bool_decide_eq_false_2 by done.
  change (negb false && forallb is_digit ["0"%char]) with true. cbv iota.
  rewrite string_of_list_ascii_of_string, Hv. reflexivity.
Qed.

Lemma format_aux_field (kw : gmap string jvalue) (f : list ascii) :
  forall acc more,
    "{"%char ∉ f -> "}"%char ∉ f ->
    format_aux kw (Field acc) (f ++ "}"%char :: more)
    = andthen (field kw (reverse acc ++ f)) (fun v =>
      andthen (format_aux kw Text more) (fun out =>
      done_ (chars v ++ out))).
Proof.
  induction f as [|c f IH]; intros acc more Ho Hc.
  - cbn [app format_aux]. rewrite Ascii.eqb_refl. by rewrite app_nil_r.
  - apply not_elem_of_cons in Ho as [Ho1 Ho]. apply not_elem_of_cons in Hc as [Hc1 Hc].
    change ((c :: f) ++ "}"%char :: more) with (c :: (f ++ "}"%char :: more)).
    cbn [format_aux].
    rewrite (proj2 (Ascii.eqb_neq c "}") (not_eq_sym Hc1)).
    rewrite (proj2 (Ascii.eqb_neq c "{") (not_eq_sym Ho1)).
    rewrite IH by done. by rewrite reverse_cons, <- app_assoc.
Qed.

Lemma format_aux_text (kw : gmap string jvalue) c (s : list ascii) :
  c <> "{"%char -> c <> "}"%char ->
  format_aux kw Text (c :: s)
  = andthen (format_aux kw Text s) (fun out => done_ (c :: out)).
Proof.
  intros Ho Hc. cbn [format_aux].
  rewrite (proj2 (Ascii.eqb_neq c "{") Ho).
  by rewrite (proj2 (Ascii.eqb_neq c "}") Hc).
Qed.

Lemma format_aux_open (kw : gmap string jvalue) c (s : list ascii) :
  c <> "{"%char ->
  format_aux kw Text ("{"%char :: c :: s) = format_aux kw (Field []) (c :: s).
Proof.
  intros Hc. cbn [format_aux]. rewrite Ascii.eqb_refl.
  destruct c as [[] [] [] [] [] [] [] []]; first [reflexivity | by destruct Hc].
Qed.

Lemma format_piece (kw : gmap string jvalue) (k v : string)
    (others : list string) (more : list ascii) :
  plain k = true ->
  kw !! k = Some (JList (v :: others)) ->
  format_aux kw Text (braced k ++ more)
  = andthen (format_aux kw Text more) (fun out => done_ (chars v ++ out)).
Proof.
  intros Hk Hv. rewrite braced_chars.
  pose proof (plain_chars k Hk) as (Hne & _ & _).
  assert (Ho : "{"%char ∉ chars k) by by apply word_not.
  assert (Hc : "}"%char ∉ chars k) by by apply word_not.
  replace ((chars "{" ++ chars k ++ chars "[0]}") ++ more)
    with ("{"%char :: ((chars k ++ chars "[0]") ++ "}"%char :: more)).
  2:{ rewrite <- !app_assoc. reflexivity. }
  destruct (chars k) as [|c l] eqn:E; [done|].
  change (((c :: l) ++ chars "[0]") ++ "}"%char :: more)
    with (c :: ((l ++ chars "[0]") ++ "}"%char :: more)).
  rewrite format_aux_open.
  2:{ intros ->. apply Ho. by left. }
  change (c :: ((l ++ chars "[0]") ++ "}"%char :: more))
    with (((c :: l) ++ chars "[0]") ++ "}"%char :: more).
  rewrite format_aux_field.
  - change (reverse [] ++ (c :: l) ++ chars "[0]") with ((c :: l) ++ chars "[0]").
    rewrite <- E. by rewrite (field_braced kw k v others Hk Hv).
  - apply not_elem_of_app. split; [done|]. not_among.
  - apply not_elem_of_app. split; [done|]. not_among.
Qed.

Lemma format_pieces (kw : gmap string jvalue) (keys vs : list string) :
  Forall2 (fun k v => plain k = true
                      /\ exists others, kw !! k = Some (JList (v :: others)))
          keys vs ->
  format_aux kw Text (pieces braced keys) = Some (Ok (pieces chars vs)).
Proof.
  induction 1 as [|k v keys vs [Hk [others Hv]] H IH]; [done|].
  destruct H as [|k' v' keys vs Hkv H].
  - cbn [pieces]. rewrite <- (app_nil_r (braced k)).
    rewrite (format_piece kw k v others [] Hk Hv). cbn. by rewrite app_nil_r.
  - change (pieces braced (k :: k' :: keys))
      with (braced k ++ "/"%char :: pieces braced (k' :: keys)).
    change (pieces chars (v :: v' :: vs))
      with (chars v ++ "/"%char :: pieces chars (v' :: vs)).
    rewrite (format_piece kw k v others _ Hk Hv).
    rewrite format_aux_text by done. rewrite IH. reflexivity.
Qed.

(** *** The path *)

Lemma segment_chars (v : string) :
  segment v = true -> v <> "" /\ v <> "." /\ free_of "/" v.
Proof.
  unfold segment, free_of. destruct (chars v) as [|c cs] eqn:E; [done|].
  intros H. apply andb_prop in H as [H1 H2].
  apply negb_true_iff, bool_decide_eq_false in H2.
  split; [by intros ->|]. split; [done|].
  intros Hin. rewrite forallb_forall in H1. apply list_elem_of_In, H1 in Hin.
  by rewrite Ascii.eqb_refl in Hin.
Qed.

Lemma of_string_join (vs : list string) :
  vs <> [] -> Forall (fun v => segment v = true) vs ->
  Pathlib.of_string (Str.join "/" vs) = mkPath false vs.
Proof.
  intros Hne Hvs. unfold Pathlib.of_string.
  assert (Hs : Forall (fun v => v <> "" /\ v <> "." /\ free_of "/" v) vs)
    by (eapply Forall_impl; [exact Hvs|]; apply segment_chars).
  rewrite split_join; [|done|by eapply Forall_impl; [exact Hs|]; intros v (_ & _ & ?)].
  f_equal.
  - destruct vs as [|v vs]; [done|]. apply Forall_cons in Hs as [(Hv & _ & Hf) _].
    destruct v as [|c v]; [done|]. apply free_of_cons in Hf as [Hc _].
    assert (E : exists rest, Str.join "/" (String c v :: vs) = String c rest).
    { destruct vs; [by exists v|]. by eexists. }
    destruct E as [rest ->].
    destruct c as [[] [] [] [] [] [] [] []]; first [reflexivity | by destruct Hc].
  - clear Hne Hvs. induction Hs as [|v vs (Hv & Hd & _) Hs IH]; [done|].
    rewrite filter_cons_True by done. by f_equal.
Qed.

Lemma string_of_pieces (vs : list string) :
  string_of_list_ascii (pieces chars vs) = Str.join "/" vs.
Proof.
  rewrite <- (list_fmap_id vs) at 2.
  rewrite <- (string_of_list_ascii_of_string (Str.join "/" (id <$> vs))).
  by rewrite chars_join.
Qed.

(** X20. For a template of the usual form,
    [%(root)s/%(k1)s/.../%(kn)s] with facet names [k1 .. kn] other than
    [root], the path returned is relative and has exactly the components
    [v1 .. vn], where [vi] is the first element of the list that the
    content holds under [ki], the version being the one cut out of the
    dataset id. *)
Theorem usual_template_gives_the_directory (e : entry)
    (c : gmap string jvalue) (id : string) (keys vs more : list string) :
  content e = Some c ->
  is_Some (c !! "version") ->
  c !! "dataset_id" = Some (JStr id) ->
  c !! "directory_format_template_" = Some (JList (template keys :: more)) ->
  keys <> [] ->
  Forall2 (fun k v =>
             plain k = true /\ k <> "root" /\ segment v = true
             /\ exists others,
                  <["version" := JList [dataset_version id]]> c !! k
                  = Some (JList (v :: others)))
          keys vs ->
  (get_relative_esgf_path e).1 = Some (Ok (mkPath false vs)).
Proof.
  intros Hc Hv Hid Ht Hne H.
  rewrite (get_relative_esgf_path_run e c id Hc Hv Hid); [|by rewrite Ht].
  cbn [fst]. unfold template_of. rewrite lookup_insert_ne by done. rewrite Ht.
  cbn [getitem lookup list_lookup from_option andthen].
  unfold render, format.
  rewrite template_replaced.
  2:{ clear -H. induction H as [|k v keys vs (? & ? & _) H IH]; by constructor. }
  rewrite (format_pieces _ keys vs).
  2:{ eapply Forall2_impl; [exact H|]. intros k v (Hp & _ & _ & Ho). done. }
  cbn [andthen done_]. rewrite string_of_pieces.
  rewrite of_string_join; [done| |].
  - destruct H; [done|discriminate].
  - clear -H. induction H as [|k v keys vs (_ & _ & ? & _) H IH]; by constructor.
Qed.

(** the model on a few texts *)
Example replace_and_format :
  replace "aa" "b" "aaa" = "ba"
  /\ replace "" "-" "abc" = "-a-b-c-"
  /\ replace ")s" "[0]}" "{a)s/{b)s" = "{a[0]}/{b[0]}"
  /\ dataset_version "a.b.v1|node.x" = "v1"
  /\ format "{a[0]}/{b}-{c[1]}"
            (list_to_map [("a", JList ["x"]); ("b", JInt 7); ("c", JStr "pq")])
     = Some (Ok "x/7-q")
  /\ format "{a[0]}/{b}" (list_to_map [("b", JInt 7)]) = Some (Raise (KeyError "a"))
  /\ format "{a[0]}" (list_to_map [("a", JList [])]) = Some (Raise IndexError).
Proof. vm_compute. repeat split. Qed.

Lemma version_cut_from_the_id_is_the_version_facet_witness :
  exists version,
    Re.group "version"
      (default [] (Re.search Parser.get_dataset_pattern cesm2_id)) = Some version
    /\ (version = dataset_version cesm2_id
        \/ version = "." +:+ dataset_version cesm2_id).
Proof.
  apply (version_cut_from_the_id_is_the_version_facet cesm2_id
           (default [] (Re.search Parser.get_dataset_pattern cesm2_id))).
  - vm_compute. reflexivity.
  - vm_compute. reflexivity.
Defined.

Lemma version_comes_from_the_dataset_id_witness :
  let e := mkEntry "file" (Some cesm2_content) in
  content (get_relative_esgf_path e).2
  = Some (<["version" := JList [dataset_version cesm2_id]]> cesm2_content)
  /\ forall v,
       get_relative_esgf_path
         (mkEntry (entry_id e) (Some (<["version" := v]> cesm2_content)))
       = get_relative_esgf_path e.
Proof.
  apply (version_comes_from_the_dataset_id
           (mkEntry "file" (Some cesm2_content)) cesm2_content cesm2_id).
  - reflexivity.
  - vm_compute. eauto.
  - vm_compute. reflexivity.
  - vm_compute. eauto.
Defined.

Lemma usual_template_gives_the_directory_witness :
  (get_relative_esgf_path (mkEntry "file" (Some cesm2_content))).1
  = Some (Ok (mkPath false ["CMIP6"; "CMIP"; "NCAR"; "v20190308"])).
Proof.
  apply (usual_template_gives_the_directory
           (mkEntry "file" (Some cesm2_content)) cesm2_content cesm2_id
           ["mip_era"; "activity_drs"; "institution_id"; "version"]
           ["CMIP6"; "CMIP"; "NCAR"; "v20190308"] []).
  - reflexivity.
  - vm_compute. eauto.
  - vm_compute. reflexivity.
  - vm_compute. reflexivity.
  - discriminate.
  - repeat (constructor;
            [split; [reflexivity|split; [discriminate|split; [reflexivity|]]];
             exists []; vm_compute; reflexivity|]).
    constructor.
Defined.

End EsgfFacts.
